(** * Commutation oracle and commutation DAG of [get_dag_commutation.py]

    A shallow embedding of [pennylane/transforms/get_dag_commutation.py]:
    the lookup tables [position] and [commutation_map], the rotation
    simplifications, the pairwise oracle [is_commuting], the node store and
    the incremental edge construction of [CommutationDAG], and the wire
    relabelling done by the wrapper of [get_dag_commutation].

    Python exceptions are values of [exn]; a call that may raise returns a
    [result].  Methods of [CommutationDAG] mutate the object, so they take a
    DAG and return the DAG they leave behind together with their outcome. *)

From stdpp Require Import gmap strings list fin_maps sorting.

Open Scope string_scope.
Open Scope list_scope.

(** Wire labels are integers or strings; so are dictionary keys. *)
Inductive Label : Type :=
| IntLabel (i : Z)
| StrLabel (s : string).

#[global] Instance Label_eq_dec : EqDecision Label.
Proof. solve_decision. Defined.

#[global] Instance Label_countable : Countable Label :=
  inj_countable'
    (λ l, match l with IntLabel i => inl i | StrLabel s => inr s end)
    (λ x, match x with inl i => IntLabel i | inr s => StrLabel s end)
    (λ l, match l with IntLabel _ | StrLabel _ => eq_refl end).

Abbreviation Wires := (list Label).

(** ** Exceptions and results *)

Inductive exn : Type :=
| QuantumFunctionError (msg : string)
| AttributeError (attr : string)
| KeyError (key : Label)
| IndexError
| TypeError
| ValueError
| WireError
| ReferenceError
| NetworkXError (node : Z).

Inductive result (A : Type) : Type :=
| Ok (a : A)
| Raise (e : exn).
Arguments Ok {A} a.
Arguments Raise {A} e.

#[global] Instance result_ret : MRet result := fun A a => Ok a.
#[global] Instance result_bind : MBind result := fun A B f m =>
  match m with
  | Ok a => f a
  | Raise e => Raise e
  end.

#[global] Instance result_fmap : FMap result := fun A B f m =>
  match m with
  | Ok a => Ok (f a)
  | Raise e => Raise e
  end.

Definition is_ok {A} (r : result A) : bool :=
  match r with Ok _ => true | Raise _ => false end.

(** Python's [a and b] on results: [b] is looked at only when [a] is true. *)
Definition and_then (a b : result bool) : result bool :=
  match a with
  | Ok true => b
  | _ => a
  end.

(** [l[i]] on a Python list, for a non-negative literal index. *)
Definition item {A} (l : list A) (i : nat) : result A :=
  match l !! i with
  | Some x => Ok x
  | None => Raise IndexError
  end.

(** [d[k]] on a dict with string keys. *)
Definition getitem {V} (d : gmap string V) (k : string) : result V :=
  match d !! k with
  | Some v => Ok v
  | None => Raise (KeyError (StrLabel k))
  end.

(** [x in l] for a list of strings. *)
Definition str_in (x : string) (l : list string) : bool := bool_decide (x ∈ l).

(** Truth value of a string: only the empty string is false. *)
Definition truthy (s : string) : bool := negb (bool_decide (s = "")).

(** ** The lookup tables *)

Definition position_items : list (string * nat) :=
  [("Hadamard", 0); ("PauliX", 1); ("PauliY", 2); ("PauliZ", 3);
   ("SWAP", 4); ("ctrl", 5); ("S", 6); ("T", 7);
   ("SX", 8); ("ISWAP", 9); ("SISWAP", 10); ("Barrier", 11);
   ("WireCut", 12); ("RX", 13); ("RY", 14); ("RZ", 15);
   ("PhaseShift", 16); ("Rot", 17); ("MultiRZ", 18); ("Identity", 19);
   ("U1", 20); ("U2", 21); ("U3", 22); ("IsingXX", 23);
   ("IsingYY", 24); ("IsingZZ", 25); ("QubitStateVector", 26); ("BasisState", 27)].

Definition commutation_map_items : list (string * list nat) :=
  [("Hadamard",
      [1; 0; 0; 0; 0; 0; 0; 0; 0; 0; 0; 0; 0; 0; 0; 0; 0; 0; 0; 1; 0; 0; 0; 0; 0; 0; 0; 0]);
   ("PauliX",
      [0; 1; 0; 0; 0; 0; 0; 0; 1; 0; 0; 0; 0; 1; 0; 0; 0; 0; 0; 1; 0; 0; 0; 1; 0; 0; 0; 0]);
   ("PauliY",
      [0; 0; 1; 0; 0; 0; 0; 0; 0; 0; 0; 0; 0; 0; 1; 0; 0; 0; 0; 1; 0; 0; 0; 0; 1; 0; 0; 0]);
   ("PauliZ",
      [0; 0; 0; 1; 0; 1; 1; 1; 0; 0; 0; 0; 0; 0; 0; 1; 1; 0; 1; 1; 1; 0; 0; 0; 0; 1; 0; 0]);
   ("SWAP",
      [0; 0; 0; 0; 1; 0; 0; 0; 0; 1; 1; 0; 0; 0; 0; 0; 0; 0; 0; 1; 0; 0; 0; 0; 0; 0; 0; 0]);
   ("ctrl",
      [0; 0; 0; 1; 0; 1; 1; 1; 0; 0; 0; 0; 0; 0; 0; 1; 1; 0; 1; 1; 1; 0; 0; 0; 0; 1; 0; 0]);
   ("S",
      [0; 0; 0; 1; 0; 1; 1; 1; 0; 0; 0; 0; 0; 0; 0; 1; 1; 0; 1; 1; 1; 0; 0; 0; 0; 1; 0; 0]);
   ("T",
      [0; 0; 0; 1; 0; 1; 1; 1; 0; 0; 0; 0; 0; 0; 0; 1; 1; 0; 1; 1; 1; 0; 0; 0; 0; 1; 0; 0]);
   ("SX",
      [0; 1; 0; 0; 0; 0; 0; 0; 1; 0; 0; 0; 0; 0; 0; 1; 1; 0; 1; 1; 1; 0; 0; 0; 0; 1; 0; 0]);
   ("ISWAP",
      [0; 0; 0; 0; 1; 0; 0; 0; 0; 1; 1; 0; 0; 0; 0; 0; 0; 0; 0; 1; 0; 0; 0; 0; 0; 0; 0; 0]);
   ("SISWAP",
      [0; 0; 0; 0; 1; 0; 0; 0; 0; 1; 1; 0; 0; 0; 0; 0; 0; 0; 0; 1; 0; 0; 0; 0; 0; 0; 0; 0]);
   ("Barrier",
      [0; 0; 0; 0; 0; 0; 0; 0; 0; 0; 0; 0; 0; 0; 0; 0; 0; 0; 0; 0; 0; 0; 0; 0; 0; 0; 0; 0]);
   ("WireCut",
      [0; 0; 0; 0; 0; 0; 0; 0; 0; 0; 0; 0; 0; 0; 0; 0; 0; 0; 0; 0; 0; 0; 0; 0; 0; 0; 0; 0]);
   ("RX",
      [0; 1; 0; 0; 0; 0; 0; 0; 1; 0; 0; 0; 0; 1; 0; 0; 0; 0; 0; 1; 0; 0; 0; 1; 0; 0; 0; 0]);
   ("RY",
      [0; 0; 1; 0; 0; 0; 0; 0; 0; 0; 0; 0; 0; 0; 1; 0; 0; 0; 0; 1; 0; 0; 0; 0; 1; 0; 0; 0]);
   ("RZ",
      [0; 0; 0; 1; 0; 1; 1; 1; 0; 0; 0; 0; 0; 0; 0; 1; 1; 0; 1; 1; 1; 0; 0; 0; 0; 1; 0; 0]);
   ("PhaseShift",
      [0; 0; 0; 1; 0; 1; 1; 1; 0; 0; 0; 0; 0; 0; 0; 1; 1; 0; 1; 1; 1; 0; 0; 0; 0; 1; 0; 0]);
   ("Rot",
      [0; 0; 0; 0; 0; 0; 0; 0; 0; 0; 0; 0; 0; 0; 0; 0; 0; 0; 0; 1; 0; 0; 0; 0; 0; 0; 0; 0]);
   ("MultiRZ",
      [0; 0; 0; 1; 0; 1; 1; 1; 0; 0; 0; 0; 0; 0; 0; 1; 1; 0; 1; 1; 1; 0; 0; 0; 0; 1; 0; 0]);
   ("Identity",
      [1; 1; 1; 1; 1; 1; 1; 1; 1; 1; 1; 0; 0; 1; 1; 1; 1; 1; 1; 1; 1; 1; 1; 1; 1; 1; 0; 0]);
   ("U1",
      [0; 0; 0; 1; 0; 1; 1; 1; 0; 0; 0; 0; 0; 0; 0; 1; 1; 0; 1; 1; 1; 0; 0; 0; 0; 1; 0; 0]);
   ("U2",
      [0; 0; 0; 0; 0; 0; 0; 0; 0; 0; 0; 0; 0; 0; 0; 0; 0; 0; 0; 1; 0; 0; 0; 0; 0; 0; 0; 0]);
   ("U3",
      [0; 0; 0; 0; 0; 0; 0; 0; 0; 0; 0; 0; 0; 0; 0; 0; 0; 0; 0; 1; 0; 0; 0; 0; 0; 0; 0; 0]);
   ("IsingXX",
      [0; 1; 0; 0; 0; 0; 0; 0; 1; 0; 0; 0; 0; 1; 0; 0; 0; 0; 0; 1; 0; 0; 0; 1; 0; 0; 0; 0]);
   ("IsingYY",
      [0; 0; 1; 0; 0; 0; 0; 0; 0; 0; 0; 0; 0; 0; 1; 0; 0; 0; 0; 1; 0; 0; 0; 0; 1; 0; 0; 0]);
   ("IsingZZ",
      [0; 0; 0; 1; 0; 1; 1; 1; 0; 0; 0; 0; 0; 0; 0; 1; 1; 0; 1; 1; 1; 0; 0; 0; 0; 1; 0; 0]);
   ("QubitStateVector",
      [0; 0; 0; 0; 0; 0; 0; 0; 0; 0; 0; 0; 0; 0; 0; 0; 0; 0; 0; 0; 0; 0; 0; 0; 0; 0; 0; 0]);
   ("BasisState",
      [0; 0; 0; 0; 0; 0; 0; 0; 0; 0; 0; 0; 0; 0; 0; 0; 0; 0; 0; 0; 0; 0; 0; 0; 0; 0; 0; 0])].

Definition position : gmap string nat := list_to_map position_items.

Definition commutation_map : gmap string (list nat) :=
  list_to_map commutation_map_items.

(** [bool(commutation_map[k1][position[k2]])]: the row is fetched first, then
    the column index, then the entry. *)
Definition table (k1 k2 : string) : result bool :=
  row ← getitem commutation_map k1;
  col ← getitem position k2;
  x ← item row col;
  mret (negb (x =? 0)%nat).

(** ** Numbers

    The parameters of an operation are numbers or arrays; those of the four
    rotations are real angles.  The oracle only ever asks whether
    [np.mod(x, m)] is close to a constant, and adds two angles, which fails
    on arrays whose shapes do not fit.  On the whole parameter list of an
    operation [np.mod] first makes one array of the list, which fails when
    the parameters have different shapes, and it is not defined on complex
    values.  Those numpy operations are the
    interface [Numeric]; every result below holds for any implementation of
    it. *)

Inductive Modulus : Type := TwoPi | NegTwoPi | HalfPi.
Inductive Target : Type := Zero | PiOver2 | NegPiOver2 | Pi.

Class Numeric : Type := {
  angle : Type;
  (** [x + y] *)
  angle_add : angle → angle → angle;
  (** the constant [np.pi / 2] *)
  half_pi : angle;
  (** [np.allclose(np.mod(x, m), t)] *)
  allclose_mod : angle → Modulus → Target → bool;
  (** the parameter is real-valued: [np.mod] raises on a complex one *)
  is_real : angle → bool;
  (** two parameters have the same shape, so that they fit into one array *)
  same_shape : angle → angle → bool;
  (** [x + y] is defined: the shapes of the two parameters fit *)
  can_add : angle → angle → bool;
  (** the sum of two real values is real *)
  is_real_add : ∀ x y, is_real x = true → is_real y = true → is_real (angle_add x y) = true;
  (** values of the same shape can be added, and so can a value and itself *)
  same_shape_can_add : ∀ x y, same_shape x y = true → can_add x y = true;
  can_add_refl : ∀ x, can_add x x = true;
}.

(** Exact arithmetic on whole multiples of pi/2: [k] stands for [k * pi/2],
    a real number.  [np.mod] takes the sign of the modulus.  Floating-point
    numbers follow exact arithmetic on small multiples only: rounding makes
    numpy answer otherwise on large ones, such as 22 pi modulo 2 pi.  The
    examples below use angles of at most one turn. *)
#[global] Instance QuarterTurns : Numeric := {|
  angle := Z;
  angle_add := Z.add;
  half_pi := 1%Z;
  allclose_mod x m t :=
    let t' := match t with Zero => 0 | PiOver2 => 1 | NegPiOver2 => -1 | Pi => 2 end%Z in
    match m with
    | TwoPi => bool_decide ((x `mod` 4)%Z = t')
    | NegTwoPi => bool_decide ((x `mod` (-4))%Z = t')
    | HalfPi => bool_decide (0%Z = t')
    end;
  is_real _ := true;
  same_shape _ _ := true;
  can_add _ _ := true;
  is_real_add _ _ _ _ := eq_refl;
  same_shape_can_add _ _ _ := eq_refl;
  can_add_refl _ := eq_refl;
|}.

(** Parameters of three kinds: an angle in quarter turns as above, a real
    array of a given length, taken to hold values away from every target,
    and a complex matrix such as the one of [QubitUnitary].  A number can be
    added to anything, an array to an array of the same length. *)
Inductive Value : Type :=
| Angle (k : Z)
| RealArray (length : nat)
| ComplexMatrix.

Definition Value_add (x y : Value) : Value :=
  match x, y with
  | Angle j, Angle k => Angle (j + k)
  | Angle _, _ => y
  | _, _ => x
  end.

Definition Value_same_shape (x y : Value) : bool :=
  match x, y with
  | Angle _, Angle _ => true
  | RealArray m, RealArray n => bool_decide (m = n)
  | ComplexMatrix, ComplexMatrix => true
  | _, _ => false
  end.

Definition Value_can_add (x y : Value) : bool :=
  match x, y with
  | Angle _, _ | _, Angle _ => true
  | _, _ => Value_same_shape x y
  end.

Definition Value_is_real (x : Value) : bool :=
  match x with
  | ComplexMatrix => false
  | _ => true
  end.

Definition Values : Numeric.
Proof.
  refine {|
    angle := Value;
    angle_add := Value_add;
    half_pi := Angle 1;
    allclose_mod x m t :=
      match x with
      | Angle k => @allclose_mod QuarterTurns k m t
      | _ => false
      end;
    is_real := Value_is_real;
    same_shape := Value_same_shape;
    can_add := Value_can_add;
    is_real_add := _;
    same_shape_can_add := _;
    can_add_refl := _;
  |}.
  - intros [] []; simpl; congruence.
  - intros [] []; simpl; congruence.
  - intros []; simpl; [done|by apply bool_decide_eq_true_2|done].
Defined.

(** ** Operations *)

Section Oracle.
Context `{Numeric}.

(** What the oracle reads of an operation.  [is_cv] and [is_channel] are the
    [isinstance] tests against [CVOperation] and [Channel]; [is_controlled]
    is [None] or the name of the operation applied to the target wires. *)
Record Operation : Type := {
  name : string;
  is_cv : bool;
  is_channel : bool;
  data : list angle;
  wires : Wires;
  control_wires : Wires;
  target_wires : Wires;
  is_controlled : option string;
}.

(** Modelled from the spec: the constructors [qml.RX], [qml.RY], [qml.RZ],
    [qml.Hadamard], [qml.CRX], [qml.CRY], [qml.CRZ] and [qml.ctrl] are not in
    the sources.  An uncontrolled operation has both its control and its
    target wires equal to its wires; a controlled one acts on its control
    wires followed by its target wires, and [is_controlled] names the
    operation on the target.  What [qml.ctrl] builds is an operation of the
    class [ControlledOperation], which has no [is_controlled] of its own. *)
Definition uncontrolled (n : string) (params : list angle) (w : Wires) : Operation :=
  {| name := n; is_cv := false; is_channel := false; data := params; wires := w;
     control_wires := w; target_wires := w; is_controlled := None |}.

Definition controlled (n base : string) (params : list angle) (c t : Wires) : Operation :=
  {| name := n; is_cv := false; is_channel := false; data := params; wires := c ++ t;
     control_wires := c; target_wires := t; is_controlled := Some base |}.

Definition RX (x : angle) (w : Wires) := uncontrolled "RX" [x] w.
Definition RY (x : angle) (w : Wires) := uncontrolled "RY" [x] w.
Definition RZ (x : angle) (w : Wires) := uncontrolled "RZ" [x] w.
Definition Hadamard (w : Wires) := uncontrolled "Hadamard" [] w.
Definition CRX (x : angle) (w : Wires) := controlled "CRX" "RX" [x] (take 1 w) (drop 1 w).
Definition CRY (x : angle) (w : Wires) := controlled "CRY" "RY" [x] (take 1 w) (drop 1 w).
Definition CRZ (x : angle) (w : Wires) := controlled "CRZ" "RZ" [x] (take 1 w) (drop 1 w).
Definition ctrl_Hadamard (c t : Wires) : Operation :=
  {| name := "ControlledOperation"; is_cv := false; is_channel := false; data := [];
     wires := c ++ t; control_wires := c; target_wires := t; is_controlled := None |}.

(** [len(Wires.shared_wires([wires1, wires2])) != 0] *)
Definition intersection (wires1 wires2 : Wires) : bool :=
  negb (bool_decide (filter (λ w, w ∈ wires2) wires1 = [])).

(** [np.allclose(np.mod(x, m), t)], which raises when [x] is complex. *)
Definition close (x : angle) (m : Modulus) (t : Target) : result bool :=
  if is_real x then mret (allclose_mod x m t) else Raise TypeError.

(** [x + y], which raises when the shapes of [x] and [y] do not fit. *)
Definition angle_sum (x y : angle) : result angle :=
  if can_add x y then mret (angle_add x y) else Raise ValueError.

(** [np.allclose(np.mod(rot.data[i], m), t)] *)
Definition close_at (d : list angle) (i : nat) (m : Modulus) (t : Target) : result bool :=
  x ← item d i; close x m t.

Definition simplify_rotation (rot : Operation) : result Operation :=
  let d := data rot in
  c1 ← and_then (close_at d 0 TwoPi PiOver2) (close_at d 2 NegTwoPi NegPiOver2);
  if c1 : bool then x ← item d 1; mret (RX x (wires rot)) else
  c2 ← and_then (close_at d 0 TwoPi Zero) (close_at d 2 TwoPi Zero);
  if c2 : bool then x ← item d 1; mret (RY x (wires rot)) else
  c3 ← close_at d 1 TwoPi Zero;
  if c3 : bool then
    x ← item d 0; y ← item d 2; z ← angle_sum x y; mret (RZ z (wires rot)) else
  c4 ← and_then (close_at d 0 TwoPi Pi)
         (and_then (close_at d 1 TwoPi PiOver2) (close_at d 2 TwoPi Zero));
  if c4 : bool then mret (Hadamard (wires rot)) else
  mret rot.

Definition simplify_controlled_rotation (crot : Operation) : result Operation :=
  let d := data crot in
  c1 ← and_then (close_at d 0 TwoPi PiOver2) (close_at d 2 NegTwoPi NegPiOver2);
  if c1 : bool then x ← item d 1; mret (CRX x (wires crot)) else
  c2 ← and_then (close_at d 0 TwoPi Zero) (close_at d 2 TwoPi Zero);
  if c2 : bool then x ← item d 1; mret (CRY x (wires crot)) else
  c3 ← close_at d 1 TwoPi Zero;
  if c3 : bool then
    x ← item d 0; y ← item d 2; z ← angle_sum x y; mret (CRZ z (wires crot)) else
  c4 ← and_then (close_at d 0 TwoPi Pi)
         (and_then (close_at d 1 TwoPi PiOver2) (close_at d 2 TwoPi Zero));
  if c4 : bool then mret (ctrl_Hadamard (control_wires crot) (target_wires crot)) else
  mret crot.

(** [np.allclose(np.mod(u.data[i] + u.data[j], 2 * np.pi), 0)] *)
Definition sum_close_zero (d : list angle) (i j : nat) : result bool :=
  x ← item d i; y ← item d j; z ← angle_sum x y; close z TwoPi Zero.

Definition not_ (r : result bool) : result bool := b ← r; mret (negb b).

Definition simplify_u2 (u2 : Operation) : result Operation :=
  let d := data u2 in
  c1 ← and_then (close_at d 1 TwoPi Zero) (sum_close_zero d 0 1);
  if c1 : bool then mret (RY half_pi (wires u2)) else
  c2 ← and_then (close_at d 1 HalfPi Zero) (sum_close_zero d 0 1);
  if c2 : bool then x ← item d 1; mret (RX x (wires u2)) else
  mret u2.

Definition simplify_u3 (u3 : Operation) : result Operation :=
  let d := data u3 in
  c1 ← and_then (close_at d 2 TwoPi Zero)
         (and_then (close_at d 1 TwoPi Zero) (not_ (close_at d 0 TwoPi Zero)));
  if c1 : bool then x ← item d 0; mret (RZ x (wires u3)) else
  c2 ← and_then (close_at d 2 TwoPi PiOver2)
         (and_then (sum_close_zero d 1 1) (not_ (close_at d 1 TwoPi Zero)));
  if c2 : bool then x ← item d 1; mret (RX x (wires u3)) else
  c3 ← and_then (close_at d 2 TwoPi Zero)
         (and_then (not_ (close_at d 1 TwoPi Zero)) (sum_close_zero d 1 1));
  if c3 : bool then x ← item d 0; mret (RY x (wires u3)) else
  mret u3.

(** [simplify] returns [None] when the name is none of the four. *)
Definition simplify (operation : Operation) : result (option Operation) :=
  if bool_decide (name operation = "Rot") then Some <$> simplify_rotation operation
  else if bool_decide (name operation = "U2") then Some <$> simplify_u2 operation
  else if bool_decide (name operation = "U3") then Some <$> simplify_u3 operation
  else if bool_decide (name operation = "CRot") then
    Some <$> simplify_controlled_rotation operation
  else mret None.

Definition not_supported_operations : list string :=
  ["PauliRot"; "QubitDensityMatrix"; "CVNeuralNetLayers"; "ApproxTimeEvolution";
   ("ArbitraryUnitary" ++ "CommutingEvolution")%string; "DisplacementEmbedding";
   "SqueezingEmbedding"].

Definition non_commuting_operations : list string :=
  ["ArbitraryStatePreparation"; "BasisStatePreparation"; "MottonenStatePreparation";
   "QubitCarry"; "QubitSum"; "SingleExcitation"; "SingleExcitationMinus";
   "SingleExcitationPlus"; "DoubleExcitation"; "DoubleExcitationPlus";
   "DoubleExcitationMinus"; "BasicEntanglerLayers"; "GateFabric";
   "ParticleConservingU1"; "ParticleConservingU2"; "RandomLayers";
   "SimplifiedTwoDesign"; "StronglyEntanglingLayers"; "AllSinglesDoubles";
   "FermionicDoubleExcitation"; "FermionicSingleExcitation"; "Grover"; "kUpCCGSD";
   "Permute"; "QFT"; "QuantumMonteCarlo"; "QuantumPhaseEstimation"; "UCCSD"; "MPS";
   "TTN"; "AmplitudeEmbedding"; "AngleEmbedding"; "BasisEmbedding"; "IQPEmbedding";
   "QAOAEmbedding"].

Definition rotations : list string := ["U2"; "U3"; "Rot"; "CRot"].
Definition barriers : list string := ["Barrier"; "WireCut"].

(** The test guarding each of the two [raise] statements. *)
Definition rejected (operation : Operation) : bool :=
  str_in (name operation) not_supported_operations || is_cv operation || is_channel operation.

Definition not_supported_error (operation : Operation) : exn :=
  QuantumFunctionError ("Operation " ++ name operation ++ " not supported.")%string.

(** [operation = simplify(operation)] followed by the first attribute access
    on the outcome. *)
Definition simplified (operation : Operation) : result Operation :=
  if str_in (name operation) rotations then
    o ← simplify operation;
    match o with
    | Some operation' => mret operation'
    | None => Raise (AttributeError "data")
    end
  else mret operation.

(** [np.mod(operation.data, 2 * np.pi)] takes the whole parameter list for
    one array: numpy raises [TypeError] when the parameters have different
    shapes, and when a parameter is complex-valued. *)
Definition homogeneous (d : list angle) : bool :=
  match d with
  | [] => true
  | x :: d => forallb (same_shape x) d
  end.

Definition mod_defined (d : list angle) : bool := forallb is_real d && homogeneous d.

(** [np.allclose(np.mod(operation.data, 2 * np.pi), 0)] *)
Definition all_zeros (operation : Operation) : result bool :=
  if mod_defined (data operation)
  then Ok (forallb (λ x, allclose_mod x TwoPi Zero) (data operation))
  else Raise TypeError.

(** "Parametric operation implements identity operator": [Some b] when the
    block returns [b], [None] when it falls through. *)
Definition identity_case (operation other : Operation) : result (option bool) :=
  if negb (bool_decide (data operation = [])) && negb (bool_decide (name operation = "U2"))
  then
    zeros ← all_zeros operation;
    mret (if zeros : bool then Some (negb (str_in (name other) barriers)) else None)
  else mret None.

(** Every matrix comparison goes through [np.allcllose], which numpy does not
    have: the attribute lookup raises before any matrix is built. *)
Definition matrices_commute : result bool := Raise (AttributeError "allcllose").

(** The name used where the code indexes a table with [is_controlled]. *)
Definition base_name (operation : Operation) : string :=
  default "" (is_controlled operation).

Definition controlled_truthy (operation : Operation) : bool :=
  match is_controlled operation with
  | Some s => truthy s
  | None => false
  end.

(** "Two simplified CRot" *)
Definition two_crot (operation1 operation2 : Operation) : result bool :=
  let control_control := intersection (control_wires operation1) (control_wires operation2) in
  let target_target := intersection (target_wires operation1) (target_wires operation2) in
  if control_control && target_target then matrices_commute
  else if control_control && negb target_target then mret true
  else if negb control_control && target_target then matrices_commute
  else mret false.

(** "Two simplified rotations" *)
Definition two_rotations (operation1 operation2 : Operation) : result bool :=
  if bool_decide (name operation1 = "CRot") then
    if negb (intersection (target_wires operation1) (wires operation2))
    then table "ctrl" (name operation2)
    else matrices_commute
  else if bool_decide (name operation2 = "CRot") then
    if negb (intersection (target_wires operation2) (wires operation1))
    then table (name operation1) "ctrl"
    else matrices_commute
  else matrices_commute.

(** Cases 2 to 5.  A case whose sub-cases all fail falls through to the
    table lookup of case 5. *)
Definition controlled_cases (operation1 operation2 : Operation) : result bool :=
  let n1 := name operation1 in
  let n2 := name operation2 in
  let b1 := base_name operation1 in
  let b2 := base_name operation2 in
  if controlled_truthy operation1 && controlled_truthy operation2 then
    let control_control := intersection (control_wires operation1) (control_wires operation2) in
    let target_target := intersection (target_wires operation1) (target_wires operation2) in
    let control_target := intersection (control_wires operation1) (target_wires operation2) in
    let target_control := intersection (target_wires operation1) (control_wires operation2) in
    if control_control && negb target_target && negb control_target && negb target_control
    then mret true
    else if negb control_control && target_target && negb control_target && negb target_control
    then table b1 b2
    else if target_target && control_control && negb control_target && negb target_control
    then table b1 b2
    else if control_target && target_control && negb target_target
    then and_then (table "ctrl" b2) (table b1 "ctrl")
    else if control_target && negb target_control && target_target
    then and_then (table "ctrl" b2) (table b1 b2)
    else if target_control && negb control_target && target_target
    then and_then (table b1 "ctrl") (table b1 b2)
    else if target_control && negb control_target && negb target_target
    then table b1 "ctrl"
    else if negb target_control && control_target && negb target_target
    then table "ctrl" b2
    else if target_control && control_target && target_target
    then and_then (table b1 "ctrl") (and_then (table "ctrl" b2) (table b1 b2))
    else table n1 n2
  else if controlled_truthy operation1 then
    let control_target := intersection (control_wires operation1) (wires operation2) in
    let target_target := intersection (target_wires operation1) (wires operation2) in
    if control_target && target_target
    then and_then (table b1 n2) (table "ctrl" n2)
    else if control_target && negb target_target
    then table "ctrl" n2
    else if negb control_target && target_target
    then table b1 n2
    else table n1 n2
  else if controlled_truthy operation2 then
    let target_control := intersection (wires operation1) (control_wires operation2) in
    let target_target := intersection (wires operation1) (target_wires operation2) in
    if target_control && target_target
    then and_then (table n1 b2) (table n1 b2)
    else if target_control && negb target_target
    then table n1 "ctrl"
    else if negb target_control && target_target
    then table n1 b2
    else table n1 n2
  else table n1 n2.

Definition is_commuting (operation1 operation2 : Operation) : result bool :=
  if rejected operation1 then Raise (not_supported_error operation1)
  else if rejected operation2 then Raise (not_supported_error operation2)
  else
  operation1 ← simplified operation1;
  operation2 ← simplified operation2;
  first ← identity_case operation1 operation2;
  match first with
  | Some b => mret b
  | None =>
  second ← identity_case operation2 operation1;
  match second with
  | Some b => mret b
  | None =>
  if negb (intersection (wires operation1) (wires operation2)) then mret true
  else if truthy (name operation1) || str_in (name operation2) non_commuting_operations
  then mret false
  else if bool_decide (name operation1 = "CRot") && bool_decide (name operation2 = "CRot")
  then two_crot operation1 operation2
  else if str_in (name operation1) rotations && str_in (name operation2) rotations
  then two_rotations operation1 operation2
  else controlled_cases operation1 operation2
  end
  end.

End Oracle.

Arguments Operation {_}.

Open Scope Z_scope.

(** ** The commutation DAG *)

(** [heapq.merge]: the heap holds the head of every iterable that is not
    exhausted; the least head comes out (the earliest iterable on a tie) and
    the next element of the same iterable goes in. *)
Fixpoint least_head (iterables : list (list Z)) : option Z :=
  match iterables with
  | [] => None
  | [] :: rest => least_head rest
  | (x :: _) :: rest =>
      match least_head rest with
      | Some y => Some (if y <? x then y else x)
      | None => Some x
      end
  end.

Fixpoint advance (v : Z) (iterables : list (list Z)) : list (list Z) :=
  match iterables with
  | [] => []
  | [] :: rest => [] :: advance v rest
  | (x :: l) :: rest => if x =? v then l :: rest else (x :: l) :: advance v rest
  end.

Fixpoint heapq_merge_fuel (fuel : nat) (iterables : list (list Z)) : list Z :=
  match fuel with
  | O => []
  | S fuel =>
      match least_head iterables with
      | Some v => v :: heapq_merge_fuel fuel (advance v iterables)
      | None => []
      end
  end.

Definition heapq_merge (iterables : list (list Z)) : list Z :=
  heapq_merge_fuel (length (mjoin iterables)) iterables.

(** The loop of [_merge_no_duplicates]; [last] is [None] for the fresh
    [object()], which equals no value. *)
Fixpoint skip_repeats (last : option Z) (vals : list Z) : list Z :=
  match vals with
  | [] => []
  | val :: vals =>
      if bool_decide (Some val = last) then skip_repeats last vals
      else val :: skip_repeats (Some val) vals
  end.

Definition _merge_no_duplicates (iterables : list (list Z)) : list Z :=
  skip_repeats None (heapq_merge iterables).

(** [range(lo, hi)] and [range(hi - 1, lo - 1, -1)] *)
Definition range (lo hi : Z) : list Z := seqZ lo (hi - lo).
Definition range_down (lo hi : Z) : list Z := reverse (range lo hi).

Module Node.
Section Node.
Context `{Numeric}.

Record t : Type := mk {
  op : Operation;
  wires : Wires;
  target_wires : Wires;
  control_wires : Wires;
  node_id : Z;
  successors : list Z;
  predecessors : list Z;
  reachable : option bool;
  matchedwith : list Z;
  isblocked : option bool;
  successorstovisit : list Z;
}.

Definition set_node_id (i : Z) (n : t) : t :=
  mk (op n) (wires n) (target_wires n) (control_wires n) i (successors n)
     (predecessors n) (reachable n) (matchedwith n) (isblocked n) (successorstovisit n).

Definition set_successors (l : list Z) (n : t) : t :=
  mk (op n) (wires n) (target_wires n) (control_wires n) (node_id n) l
     (predecessors n) (reachable n) (matchedwith n) (isblocked n) (successorstovisit n).

Definition set_predecessors (l : list Z) (n : t) : t :=
  mk (op n) (wires n) (target_wires n) (control_wires n) (node_id n) (successors n)
     l (reachable n) (matchedwith n) (isblocked n) (successorstovisit n).

Definition set_op (o : Operation) (n : t) : t :=
  mk o (wires n) (target_wires n) (control_wires n) (node_id n) (successors n)
     (predecessors n) (reachable n) (matchedwith n) (isblocked n) (successorstovisit n).

Definition set_reachable (b : bool) (n : t) : t :=
  mk (op n) (wires n) (target_wires n) (control_wires n) (node_id n) (successors n)
     (predecessors n) (Some b) (matchedwith n) (isblocked n) (successorstovisit n).

End Node.
End Node.

Abbreviation CommutationDAGNode := Node.t.

(** A terminal measurement, as far as the wrapper touches it.

    Modelled from the spec: the class [Tensor] is not in the sources.  A
    tensor product of observables has no wires of its own: its [wires] are
    read off its factors, whatever its attribute [_wires] holds. *)
Record Observable : Type := {
  obs_name : string;
  obs_wires : Wires;
  obs_tensor : bool;
}.

Module DAG.
Section DAG.
Context `{Numeric}.

(** [nodes] and [edges] are the node dictionary and the edge list of
    [_multi_graph]; every edge carries [commute=False]. *)
Record t : Type := mk {
  wires : Wires;
  num_wires : nat;
  node_id : Z;
  nodes : gmap Z CommutationDAGNode;
  edges : list (Z * Z);
  observables : list Observable;
}.

Definition set_node_id (i : Z) (d : t) : t :=
  mk (wires d) (num_wires d) i (nodes d) (edges d) (observables d).

Definition set_nodes (m : gmap Z CommutationDAGNode) (d : t) : t :=
  mk (wires d) (num_wires d) (node_id d) m (edges d) (observables d).

Definition set_edges (l : list (Z * Z)) (d : t) : t :=
  mk (wires d) (num_wires d) (node_id d) (nodes d) l (observables d).

End DAG.
End DAG.

Abbreviation CommutationDAG := DAG.t.

Section Builder.
Context `{Numeric}.

(** A method that mutates the DAG and may raise: the DAG it leaves behind
    comes with its outcome, also when that is an exception. *)
Definition M (A : Type) : Type := CommutationDAG → CommutationDAG * result A.

Definition pure {A} (a : A) : M A := λ dag, (dag, Ok a).

Definition bind {A B} (m : M A) (f : A → M B) : M B := λ dag,
  match m dag with
  | (dag', Ok a) => f a dag'
  | (dag', Raise e) => (dag', Raise e)
  end.

(** Reading the DAG, and changing it without failure. *)
Definition reading {A} (f : CommutationDAG → result A) : M A := λ dag, (dag, f dag).
Definition writing (f : CommutationDAG → CommutationDAG) : M unit := λ dag, (f dag, Ok ()).

#[global] Instance M_ret : MRet M := @pure.
#[global] Instance M_bind : MBind M := λ A B f m, bind m f.

Fixpoint for_each (body : Z → M unit) (ids : list Z) : M unit :=
  match ids with
  | [] => pure ()
  | i :: ids => body i ;; for_each body ids
  end.

Definition __init__ (wires : Wires) (observables : list Observable) : CommutationDAG :=
  DAG.mk wires (length wires) (-1) ∅ [] observables.

Definition _add_node (node : CommutationDAGNode) : M unit :=
  writing (λ dag,
    let i := DAG.node_id dag + 1 in
    DAG.set_nodes (<[i := Node.set_node_id i node]> (DAG.nodes dag)) (DAG.set_node_id i dag)).

Definition get_node (node_id : Z) (dag : CommutationDAG) : result CommutationDAGNode :=
  match DAG.nodes dag !! node_id with
  | Some node => Ok node
  | None => Raise (KeyError (IntLabel node_id))
  end.

(** [self.get_node(node_id).attr = value] *)
Definition update_node (f : CommutationDAGNode → CommutationDAGNode) (node_id : Z) : M unit :=
  node ← reading (get_node node_id);
  writing (λ dag, DAG.set_nodes (<[node_id := f node]> (DAG.nodes dag)) dag).

(** Both ends are nodes of the graph wherever [_update_edges] calls
    [add_edge], so no node is created here. *)
Definition add_edge (node_in node_out : Z) : M unit :=
  writing (λ dag, DAG.set_edges (DAG.edges dag ++ [(node_in, node_out)]) dag).

Definition sources (edges : list (Z * Z)) (node_id : Z) : list Z :=
  omap (λ e, if bool_decide (e.2 = node_id) then Some e.1 else None) edges.

Definition targets (edges : list (Z * Z)) (node_id : Z) : list Z :=
  omap (λ e, if bool_decide (e.1 = node_id) then Some e.2 else None) edges.

Definition direct_predecessors (node_id : Z) (dag : CommutationDAG) : result (list Z) :=
  match DAG.nodes dag !! node_id with
  | Some _ => Ok (merge_sort Z.le (remove_dups (sources (DAG.edges dag) node_id)))
  | None => Raise (KeyError (IntLabel node_id))
  end.

Definition direct_successors (node_id : Z) (dag : CommutationDAG) : result (list Z) :=
  match DAG.nodes dag !! node_id with
  | Some _ => Ok (merge_sort Z.le (remove_dups (targets (DAG.edges dag) node_id)))
  | None => Raise (KeyError (IntLabel node_id))
  end.

(** [nx.ancestors] and [nx.descendants]: the nodes joined to [node_id] by a
    path of at least one edge, [node_id] itself left out.  A path without a
    repeated node has at most as many edges as the graph has nodes. *)
Fixpoint reaches (fuel : nat) (edges : list (Z * Z)) (m n : Z) : bool :=
  match fuel with
  | O => false
  | S fuel =>
      existsb (λ p, bool_decide (p = m) || reaches fuel edges m p) (sources edges n)
  end.

Definition ancestors (node_id : Z) (dag : CommutationDAG) : result (list Z) :=
  match DAG.nodes dag !! node_id with
  | Some _ =>
      Ok (filter (λ m, reaches (size (DAG.nodes dag)) (DAG.edges dag) m node_id ∧ m ≠ node_id)
            (elements (dom (DAG.nodes dag))))
  | None => Raise (NetworkXError node_id)
  end.

Definition descendants (node_id : Z) (dag : CommutationDAG) : result (list Z) :=
  match DAG.nodes dag !! node_id with
  | Some _ =>
      Ok (filter (λ m, reaches (size (DAG.nodes dag)) (DAG.edges dag) node_id m ∧ m ≠ node_id)
            (elements (dom (DAG.nodes dag))))
  | None => Raise (NetworkXError node_id)
  end.

Definition predecessors (node_id : Z) (dag : CommutationDAG) : result (list Z) :=
  pred ← ancestors node_id dag; mret (merge_sort Z.le pred).

Definition successors (node_id : Z) (dag : CommutationDAG) : result (list Z) :=
  succ ← descendants node_id dag; mret (merge_sort Z.le succ).

(** The lists handed to [_merge_no_duplicates]: for every direct neighbour
    its id and its own cached list. *)
Fixpoint gather (cached : CommutationDAGNode → list Z) (ids : list Z)
    (dag : CommutationDAG) : result (list (list Z)) :=
  match ids with
  | [] => Ok []
  | d :: ids =>
      node ← get_node d dag;
      rest ← gather cached ids dag;
      mret ([d] :: cached node :: rest)
  end.

Definition _pred_update (node_id : Z) : M unit :=
  update_node (Node.set_predecessors []) node_id ;;
  direct ← reading (direct_predecessors node_id);
  lists ← reading (gather Node.predecessors direct);
  update_node (Node.set_predecessors (_merge_no_duplicates lists)) node_id.

(** The body of the second loop of [_update_edges]. *)
Definition scan (max_node_id : Z) (max_node : Operation) (prev_node_id : Z) : M unit :=
  prev ← reading (get_node prev_node_id);
  match Node.reachable prev with
  | Some true =>
      commute ← reading (λ _, is_commuting (Node.op prev) max_node);
      if commute : bool then pure ()
      else
        add_edge prev_node_id max_node_id ;;
        _pred_update max_node_id ;;
        node ← reading (get_node max_node_id);
        for_each (update_node (Node.set_reachable false)) (Node.predecessors node)
  | _ => pure ()
  end.

Definition _update_edges : M unit :=
  max_node_id ← reading (λ dag, Ok (Z.of_nat (size (DAG.nodes dag)) - 1));
  node ← reading (get_node max_node_id);
  let max_node := Node.op node in
  for_each (update_node (Node.set_reachable true)) (range 0 max_node_id) ;;
  for_each (scan max_node_id max_node) (range_down 0 max_node_id).

Definition new_node (operation : Operation) : CommutationDAGNode :=
  if controlled_truthy operation then
    Node.mk operation (wires operation) (target_wires operation) (control_wires operation)
      (-1) [] [] None [] None []
  else
    Node.mk operation (wires operation) (wires operation) []
      (-1) [] [] None [] None [].

Definition add_node (operation : Operation) : M unit :=
  _add_node (new_node operation) ;; _update_edges.

(** The body of the loop of [_add_successors].  A node whose successor list
    already holds ids cannot be merged: [heapq.merge] would iterate over an
    integer. *)
Definition succ_update (node_id : Z) : M unit :=
  direct ← reading (direct_successors node_id);
  node ← reading (get_node node_id);
  lists ← reading (gather Node.successors direct);
  match Node.successors node with
  | [] => update_node (Node.set_successors (_merge_no_duplicates lists)) node_id
  | _ :: _ => reading (λ _, Raise TypeError)
  end.

Definition _add_successors : M unit :=
  n ← reading (λ dag, Ok (Z.of_nat (size (DAG.nodes dag))));
  for_each succ_update (range_down 0 n).

(** The DAG after [add_node] has been called on each operation in turn,
    stopping at the first exception. *)
Definition add_nodes (operations : list Operation) : M unit :=
  foldr (λ operation rest, add_node operation ;; rest) (pure ()) operations.

End Builder.

(** ** The wrapper of [get_dag_commutation] *)

Module Tape.
Section Tape.
Context `{Numeric}.

(** The tape, as far as the wrapper reads it.  [wires] is an attribute,
    set when the tape is recorded ([_update_circuit_info] in [circuit.py])
    and not read again off the operations afterwards.  Operations and
    observables are objects that the wrapper changes in place, and
    [tape.observables] lists the observable of every measurement
    ([observables] in [circuit.py]), so one object may be listed more than
    once: the tape holds its objects, and [operations] and [observables]
    refer to them by position. *)
Record t : Type := mk {
  wires : Wires;
  operation_objects : list Operation;
  operations : list nat;
  observable_objects : list Observable;
  observables : list nat;
}.

End Tape.
End Tape.

Abbreviation QuantumTape := Tape.t.

Section Wrapper.
Context `{Numeric}.

(** [Wires(range(len(wires)))] *)
Definition consecutive (wires : Wires) : Wires :=
  IntLabel <$> range 0 (Z.of_nat (length wires)).

(** [OrderedDict(zip(wires, consecutive_wires))]; a later pair wins. *)
Definition make_wires_map (wires consecutive_wires : Wires) : gmap Label Label :=
  foldl (λ m kv, <[kv.1 := kv.2]> m) ∅ (zip wires consecutive_wires).

(** The constructor [Wires(...)] refuses repeated labels. *)
Definition Wires_new (labels : list Label) : result Wires :=
  if bool_decide (NoDup labels) then Ok labels else Raise WireError.

Definition lookup_wire (wires_map : gmap Label Label) (wire : Label) : result Label :=
  match wires_map !! wire with
  | Some w => Ok w
  | None => Raise (KeyError wire)
  end.

(** [Wires([wires_map[wire] for wire in x.wires.tolist()])] *)
Definition relabelled (wires_map : gmap Label Label) (ws : Wires) : result Wires :=
  labels ← mapM (lookup_wire wires_map) ws; Wires_new labels.

(** Modelled from the spec: control and target wires partition the wires of
    an operation and are read off them, so they follow the new labels. *)
Definition follow (wires_map : gmap Label Label) (ws : Wires) : Wires :=
  (λ w, default w (wires_map !! w)) <$> ws.

(** [operation._wires = ...] *)
Definition set_wires (wires_map : gmap Label Label) (new_wires : Wires)
    (operation : Operation) : Operation :=
  {| name := name operation; is_cv := is_cv operation; is_channel := is_channel operation;
     data := data operation; wires := new_wires;
     control_wires := follow wires_map (control_wires operation);
     target_wires := follow wires_map (target_wires operation);
     is_controlled := is_controlled operation |}.

(** [obs._wires = ...]: on a tensor product the assignment changes nothing
    that is read afterwards. *)
Definition set_obs_wires (new_wires : Wires) (obs : Observable) : Observable :=
  if obs_tensor obs then obs
  else {| obs_name := obs_name obs; obs_wires := new_wires; obs_tensor := false |}.

(** The object a reference stands for.  A reference always names an object
    of its tape; the model raises where it does not. *)
Definition object {A} (objects : list A) (ref : nat) : result A :=
  match objects !! ref with
  | Some o => Ok o
  | None => Raise ReferenceError
  end.

(** The first loop, over [tape.observables]: the objects as the loop leaves
    them, and the exception that stopped it, if any. *)
Fixpoint relabel_observables (wires_map : gmap Label Label) (observables : list nat)
    (objects : list Observable) : list Observable * result unit :=
  match observables with
  | [] => (objects, Ok ())
  | obs :: rest =>
      match o ← object objects obs;
            ws ← relabelled wires_map (obs_wires o);
            mret (set_obs_wires ws o) with
      | Ok o' => relabel_observables wires_map rest (<[obs := o']> objects)
      | Raise e => (objects, Raise e)
      end
  end.

(** A node holds the operation object itself: when the wrapper relabels an
    object that was added before, the nodes holding it see the new wires.
    Node [k] holds the [k]-th operation added. *)
Definition sync (added : list nat) (ref : nat) (operation : Operation)
    (dag : CommutationDAG) : CommutationDAG :=
  DAG.set_nodes
    (map_imap (λ k node,
       Some (if bool_decide (0 ≤ k ∧ added !! Z.to_nat k = Some ref)
             then Node.set_op operation node else node))
       (DAG.nodes dag))
    dag.

(** The second loop, over [tape.operations]: every operation is relabelled
    in place and handed to [add_node]. *)
Fixpoint add_operations (wires_map : gmap Label Label) (operations added : list nat)
    (objects : list Operation) (dag : CommutationDAG)
    : list Operation * (CommutationDAG * result unit) :=
  match operations with
  | [] => (objects, (dag, Ok ()))
  | operation :: rest =>
      match o ← object objects operation;
            ws ← relabelled wires_map (wires o);
            mret (set_wires wires_map ws o) with
      | Ok o' =>
          let objects' := <[operation := o']> objects in
          match add_node o' (sync added operation o' dag) with
          | (dag', Ok _) =>
              add_operations wires_map rest (added ++ [operation]) objects' dag'
          | (dag', Raise e) => (objects', (dag', Raise e))
          end
      | Raise e => (objects, (dag, Raise e))
      end
  end.

(** The wrapper applied to a tape: the tape as it is left, and the DAG or
    the exception that reaches the caller.  [Unwrap] only changes the
    representation of the parameters while the DAG is built. *)
Definition wrapper (tape : QuantumTape) : QuantumTape * result CommutationDAG :=
  let wires := Tape.wires tape in
  let consecutive_wires := consecutive wires in
  let wires_map := make_wires_map wires consecutive_wires in
  let left operation_objects observable_objects :=
    Tape.mk wires operation_objects (Tape.operations tape)
      observable_objects (Tape.observables tape) in
  match relabel_observables wires_map (Tape.observables tape)
          (Tape.observable_objects tape) with
  | (observable_objects, Raise e) =>
      (left (Tape.operation_objects tape) observable_objects, Raise e)
  | (observable_objects, Ok _) =>
      let dag :=
        __init__ consecutive_wires
          (omap (λ obs, observable_objects !! obs) (Tape.observables tape)) in
      match add_operations wires_map (Tape.operations tape) []
              (Tape.operation_objects tape) dag with
      | (operation_objects, (dag, Raise e)) =>
          (left operation_objects observable_objects, Raise e)
      | (operation_objects, (dag, Ok _)) =>
          match _add_successors dag with
          | (dag, Ok _) => (left operation_objects observable_objects, Ok dag)
          | (dag, Raise e) => (left operation_objects observable_objects, Raise e)
          end
      end
  end.

End Wrapper.

(** A few operations on integer wires, with parameters in quarter turns. *)
Definition on (ws : list Z) : Wires := IntLabel <$> ws.
Definition gate (n : string) (params : list Z) (ws : list Z) : Operation :=
  uncontrolled n params (on ws).
Definition cgate (n base : string) (params : list Z) (c t : list Z) : Operation :=
  controlled n base params (on c) (on t).

(** The circuit of the docstring of [get_dag_commutation], with every angle
    a quarter turn. *)
Definition example_circuit : list Operation :=
  [gate "RX" [1] [0]; gate "RX" [1] [0]; cgate "CNOT" "PauliX" [] [1] [2];
   gate "RY" [1] [1]; gate "Hadamard" [] [2]; cgate "CRZ" "RZ" [1] [2] [0];
   gate "RY" [-1] [1]].

(** A tape on the wires ["a"], [7] and [0]. *)
Definition example_tape : QuantumTape :=
  Tape.mk [StrLabel "a"; IntLabel 7; IntLabel 0]
    [uncontrolled "RX" [1] [IntLabel 7];
     controlled "CNOT" "PauliX" [] [StrLabel "a"] [IntLabel 0];
     uncontrolled "PauliX" [] [IntLabel 0]]
    [0; 1; 2]%nat
    [{| obs_name := "PauliZ"; obs_wires := [IntLabel 7]; obs_tensor := false |}]
    [0]%nat.

(** A tape on the wires [1] and [0] whose two measurements, an expectation
    value and a variance, are of one and the same observable. *)
Definition shared_observable_tape : QuantumTape :=
  Tape.mk [IntLabel 1; IntLabel 0]
    [gate "RX" [1] [1]; gate "RX" [1] [0]]
    [0; 1]%nat
    [{| obs_name := "PauliZ"; obs_wires := [IntLabel 1]; obs_tensor := false |}]
    [0; 0]%nat.

(** The same on the wires ["b"] and ["a"]. *)
Definition shared_observable_tape_abc : QuantumTape :=
  Tape.mk [StrLabel "b"; StrLabel "a"]
    [uncontrolled "RX" [1] [StrLabel "b"]; uncontrolled "RX" [1] [StrLabel "a"]]
    [0; 1]%nat
    [{| obs_name := "PauliZ"; obs_wires := [StrLabel "b"]; obs_tensor := false |}]
    [0; 0]%nat.

(** A tape on the wires ["b"] and ["a"] that measures the tensor product of
    two observables. *)
Definition tensor_observable_tape : QuantumTape :=
  Tape.mk [StrLabel "b"; StrLabel "a"]
    [uncontrolled "RX" [1] [StrLabel "b"]; uncontrolled "RX" [1] [StrLabel "a"]]
    [0; 1]%nat
    [{| obs_name := "Tensor"; obs_wires := [StrLabel "b"; StrLabel "a"];
        obs_tensor := true |}]
    [0]%nat.

(** A tape with the operations given, each a different object, on the wires
    [0], [1], ... *)
Definition tape_of (n : nat) (operations : list Operation) : QuantumTape :=
  Tape.mk (on (seqZ 0 (Z.of_nat n))) operations (seq 0 (length operations)) [] [].

(** Operations with parameters of any kind ([Values]): a [QubitUnitary]
    holds a complex matrix, a [SimplifiedTwoDesign] two real arrays of
    different shapes. *)
Definition vgate (n : string) (params : list Value) (ws : list Z) : @Operation Values :=
  @uncontrolled Values n params (on ws).

Definition QubitUnitary (ws : list Z) : @Operation Values :=
  vgate "QubitUnitary" [ComplexMatrix] ws.

Definition SimplifiedTwoDesign (ws : list Z) : @Operation Values :=
  vgate "SimplifiedTwoDesign" [RealArray 2; RealArray 4] ws.

(** ** Supported operations *)

Section Supported.
Context `{Numeric}.

(** What the operation classes stand for: a name, two angles for [U2],
    three for [U3], [Rot] and [CRot], all of them real and of one shape, no
    parameter for [Barrier] and [WireCut], and a [CRot] acting on its
    control wire followed by its target wire. *)
Definition well_formed (o : Operation) : bool :=
  truthy (name o)
  && (if bool_decide (name o = "U2") then bool_decide (length (data o) = 2%nat) else true)
  && (if str_in (name o) ["U3"; "Rot"; "CRot"]
      then bool_decide (length (data o) = 3%nat) else true)
  && (if str_in (name o) rotations then mod_defined (data o) else true)
  && (if str_in (name o) barriers then bool_decide (data o = []) else true)
  && (if bool_decide (name o = "CRot")
      then bool_decide (wires o = control_wires o ++ target_wires o) else true).

Definition supported (o : Operation) : bool := negb (rejected o) && well_formed o.

(** The operand "acts as the identity": it has parameters, is not a [U2],
    and the test that all its parameters are zero modulo 2 pi returns
    True. *)
Definition acts_as_identity (o : Operation) : bool :=
  negb (bool_decide (data o = [])) && negb (bool_decide (name o = "U2"))
  && match all_zeros o with Ok zeros => zeros | Raise _ => false end.

(** The zero test is defined on the operation as the oracle looks at it,
    that is, once simplified: its parameters are real and of one shape. *)
Definition tests_defined (o : Operation) : bool :=
  match simplified o with
  | Ok o' => mod_defined (data o')
  | Raise _ => false
  end.


Definition is_barrier (o : Operation) : bool := str_in (name o) barriers.

(** What is left of [is_commuting] once both operands are simplified and
    the first has a name: the two identity tests and the test for a common
    wire. *)
Definition outcome (a' b' : Operation) : result bool :=
  first ← identity_case a' b';
  match first with
  | Some c => mret c
  | None =>
      second ← identity_case b' a';
      match second with
      | Some c => mret c
      | None => mret (negb (intersection (wires a') (wires b')))
      end
  end.

(** What [is_commuting] answers then, when the zero tests are defined. *)
Definition verdict (a' b' : Operation) : bool :=
  if acts_as_identity a' then negb (is_barrier b')
  else if acts_as_identity b' then negb (is_barrier a')
  else negb (intersection (wires a') (wires b')).

End Supported.

(** ** Paths, and the brute-force construction *)

(** [path edges m n]: the edges lead from [m] to [n] in one step or more. *)
Inductive path (edges : list (Z * Z)) : Z → Z → Prop :=
| path_edge m n : (m, n) ∈ edges → path edges m n
| path_snoc m k n : path edges m k → (k, n) ∈ edges → path edges m n.

(** Every edge points from a lower id to a higher id. *)
Definition ascending (edges : list (Z * Z)) : Prop :=
  ∀ p q, (p, q) ∈ edges → p < q.

Section BruteForce.
Context `{Numeric}.

(** The DAG left by a method, whatever its outcome. *)
Definition after {A} (m : M A) (dag : CommutationDAG) : CommutationDAG := (m dag).1.

(** [is_commuting(operations[i], operations[j])] is false. *)
Definition fails_to_commute (operations : list Operation) (i j : Z) : bool :=
  match operations !! Z.to_nat i, operations !! Z.to_nat j with
  | Some a, Some b =>
      match is_commuting a b with
      | Ok false => true
      | _ => false
      end
  | _, _ => false
  end.

(** The all-pairs construction: one edge [i -> j] for every [i < j] whose
    operations do not commute. *)
Definition brute_force_edges (operations : list Operation) : list (Z * Z) :=
  let ids := range 0 (Z.of_nat (length operations)) in
  filter (λ e, e.1 < e.2 ∧ fails_to_commute operations e.1 e.2 = true)
    (i ← ids; j ← ids; [(i, j)]).

(** The same nodes as [add_node] creates, with the brute-force edges. *)
Definition brute_force (wires : Wires) (observables : list Observable)
    (operations : list Operation) : CommutationDAG :=
  let nodes_only :=
    foldr (λ operation rest, _add_node (new_node operation) ;; rest) (pure ()) operations in
  DAG.set_edges (brute_force_edges operations)
    (after nodes_only (__init__ wires observables)).

(** A method keeps a property of the DAG, also when it raises. *)
Definition keeps (Q : CommutationDAG → Prop) {A} (m : M A) : Prop :=
  ∀ dag, Q dag → Q (after m dag).

Definition ascending_dag (dag : CommutationDAG) : Prop := ascending (DAG.edges dag).

(** A cached predecessor list is right for node [k] when it lists, in
    strictly increasing order, the nodes with a path to [k]. *)
Definition cache_ok (edges : list (Z * Z)) (k : Z) (l : list Z) : Prop :=
  StronglySorted Z.lt l ∧ ∀ m, m ∈ l ↔ path edges m k.

(** The state of a DAG to which [add_node] has been applied on each of
    [operations], in order. *)
Record built_from (operations : list Operation) (dag : CommutationDAG) : Prop := {
  bf_size : size (DAG.nodes dag) = length operations;
  bf_keys : ∀ k, is_Some (DAG.nodes dag !! k) ↔ 0 ≤ k < Z.of_nat (length operations);
  bf_node_id : DAG.node_id dag = Z.of_nat (length operations) - 1;
  bf_ops : ∀ k node,
    DAG.nodes dag !! k = Some node → operations !! Z.to_nat k = Some (Node.op node);
  bf_edges : ∀ p q,
    (p, q) ∈ DAG.edges dag → 0 ≤ p < q ∧ q < Z.of_nat (length operations);
  bf_cache : ∀ k node,
    DAG.nodes dag !! k = Some node → cache_ok (DAG.edges dag) k (Node.predecessors node);
  bf_paths : ∀ m k,
    path (DAG.edges dag) m k ↔ path (brute_force_edges operations) m k;
}.

(** The state of the second loop of [_update_edges] while [operation] is
    added to the DAG [dag] built from [operations]: the previous nodes with
    ids from [j] upwards have been scanned and have given the direct
    predecessors [direct] of the new node. *)
Record scanning (operations : list Operation) (operation : Operation)
    (dag : CommutationDAG) (j : Z) (d : CommutationDAG) : Prop := {
  sc_size : size (DAG.nodes d) = S (length operations);
  sc_node_id : DAG.node_id d = Z.of_nat (length operations);
  sc_keys : ∀ k, is_Some (DAG.nodes d !! k) ↔ 0 ≤ k ≤ Z.of_nat (length operations);
  sc_nodes : ∃ top,
    DAG.nodes d !! Z.of_nat (length operations) = Some top
    ∧ Node.op top = operation
    ∧ cache_ok (DAG.edges d) (Z.of_nat (length operations)) (Node.predecessors top)
    ∧ ∀ k node, DAG.nodes dag !! k = Some node →
        ∃ node', DAG.nodes d !! k = Some node'
          ∧ Node.op node' = Node.op node
          ∧ Node.predecessors node' = Node.predecessors node
          ∧ Node.reachable node' = Some (negb (bool_decide (k ∈ Node.predecessors top)));
  sc_edges : ∃ direct,
    DAG.edges d =
      DAG.edges dag ++ ((λ p, (p, Z.of_nat (length operations))) <$> direct)
    ∧ ∀ p, p ∈ direct →
        j ≤ p < Z.of_nat (length operations)
        ∧ fails_to_commute (operations ++ [operation]) p (Z.of_nat (length operations)) = true;
  sc_done : ∀ p,
    j ≤ p < Z.of_nat (length operations) →
    fails_to_commute (operations ++ [operation]) p (Z.of_nat (length operations)) = true →
    path (DAG.edges d) p (Z.of_nat (length operations));
}.

End BruteForce.

(** ** Undoing the relabelling *)

(** [wires[i]] for every new label [i]: the label the tape had there. *)
Definition original_label (tape_wires : Wires) (w : Label) : option Label :=
  match w with
  | IntLabel i => if bool_decide (0 ≤ i) then tape_wires !! Z.to_nat i else None
  | StrLabel _ => None
  end.

Definition original_labels (tape_wires : Wires) (ws : Wires) : option Wires :=
  mapM (original_label tape_wires) ws.


Section Unchanged.
Context `{Numeric}.

(** The objects a loop of the wrapper leaves behind: those referred to are
    related to what they were by [R], the others are as they were. *)
Definition objects_left {A} (R : A → A → Prop) (refs : list nat)
    (objects objects' : list A) : Prop :=
  length objects' = length objects
  ∧ ∀ ref o, objects !! ref = Some o →
      ∃ o', objects' !! ref = Some o'
            ∧ if bool_decide (ref ∈ refs) then R o o' else o' = o.


(** A tensor product is as it was: it still has its labels. *)
Definition observable_recoverable (tape_wires : Wires) (b b' : Observable) : Prop :=
  obs_name b' = obs_name b ∧ obs_tensor b' = obs_tensor b
  ∧ if obs_tensor b then obs_wires b' = obs_wires b
    else original_labels tape_wires (obs_wires b') = Some (obs_wires b).

End Unchanged.

(** ** Further notions used in the results *)

(** The names [simplify] gives to what it builds. *)
Definition simple_names : list string :=
  ["RX"; "RY"; "RZ"; "Hadamard"; "CRX"; "CRY"; "CRZ"; "ControlledOperation"].

Section Controls.
Context `{Numeric}.

(** Two operations that differ at most in what they say of controls and
    targets: [control_wires], [target_wires] and [is_controlled]. *)
Definition same_apart_from_controls (o1 o2 : Operation) : Prop :=
  name o1 = name o2 ∧ is_cv o1 = is_cv o2 ∧ is_channel o1 = is_channel o2
  ∧ data o1 = data o2 ∧ wires o1 = wires o2.

End Controls.

(** No edge is implied by the others: none joins two nodes that a longer
    path joins as well. *)
Definition no_shortcut (edges : list (Z * Z)) : Prop :=
  ∀ p q, (p, q) ∈ edges → ¬ ∃ k, path edges p k ∧ path edges k q.

Section Structure.
Context `{Numeric}.

(** [get_edge]: [get_edge_data] of the multigraph gives the dictionary of
    the parallel edges from [node_in] to [node_out], keyed 0, 1, ... in the
    order they were added, each with its attribute [commute] (always
    False), and [None] when there is no such edge. *)
Definition get_edge (node_in node_out : Z) (dag : CommutationDAG)
    : option (list (nat * bool)) :=
  match length (filter (λ e, e = (node_in, node_out)) (DAG.edges dag)) with
  | O => None
  | S n => Some ((λ key, (key, false)) <$> seq 0 (S n))
  end.

(** What [_update_edges] never assigns of a node: everything but
    [predecessors] and [reachable]. *)
Definition fixed_part (node : CommutationDAGNode) :=
  (Node.op node, Node.wires node, Node.target_wires node, Node.control_wires node,
   Node.node_id node, Node.successors node, Node.matchedwith node, Node.isblocked node,
   Node.successorstovisit node).

Definition same_fixed_parts (dag0 dag : CommutationDAG) : Prop :=
  DAG.node_id dag = DAG.node_id dag0
  ∧ ∀ k, fixed_part <$> DAG.nodes dag !! k = fixed_part <$> DAG.nodes dag0 !! k.

(** The ids [0 .. n-1] are in use and [node_id] is the last of them. *)
Definition counted (n : nat) (dag : CommutationDAG) : Prop :=
  DAG.node_id dag = Z.of_nat n - 1
  ∧ ∀ k, is_Some (DAG.nodes dag !! k) ↔ 0 ≤ k < Z.of_nat n.

End Structure.

Section Pruning.
Context `{Numeric}.

(** The direct predecessors that the second loop of [_update_edges] has
    found for the new node once the previous nodes from [j] upwards are
    scanned: they come in descending order, each fails to commute with the
    new operation, and no path of the DAG joins two of them. *)
Definition pruned (operations : list Operation) (operation : Operation)
    (dag : CommutationDAG) (j : Z) (d : CommutationDAG) : Prop :=
  ∃ direct,
    DAG.edges d =
      DAG.edges dag ++ ((λ p, (p, Z.of_nat (length operations))) <$> direct)
    ∧ StronglySorted (λ x y, y < x) direct
    ∧ (∀ p, p ∈ direct →
         j ≤ p < Z.of_nat (length operations)
         ∧ fails_to_commute (operations ++ [operation]) p (Z.of_nat (length operations))
           = true)
    ∧ ∀ x y, x ∈ direct → y ∈ direct → ¬ path (DAG.edges dag) x y.

(** The edges of a DAG built from [operations]: each joins two operations
    that do not commute, none is there twice, and none is implied by the
    others. *)
Record tidy (operations : list Operation) (dag : CommutationDAG) : Prop := {
  td_noncommuting : ∀ p q,
    (p, q) ∈ DAG.edges dag → (p, q) ∈ brute_force_edges operations;
  td_NoDup : NoDup (DAG.edges dag);
  td_no_shortcut : no_shortcut (DAG.edges dag);
}.

(** The state of a DAG to which [add_node] has been applied on each of
    [operations] in order, whether the last call returned or raised: the
    node of the last operation may lack predecessors that the scan had not
    reached. *)
Record grown_from (operations : list Operation) (dag : CommutationDAG) : Prop := {
  gf_size : size (DAG.nodes dag) = length operations;
  gf_keys : ∀ k, is_Some (DAG.nodes dag !! k) ↔ 0 ≤ k < Z.of_nat (length operations);
  gf_node_id : DAG.node_id dag = Z.of_nat (length operations) - 1;
  gf_ops : ∀ k node,
    DAG.nodes dag !! k = Some node → operations !! Z.to_nat k = Some (Node.op node);
  gf_edges : ∀ p q,
    (p, q) ∈ DAG.edges dag → 0 ≤ p < q ∧ q < Z.of_nat (length operations);
  gf_cache : ∀ k node,
    DAG.nodes dag !! k = Some node → cache_ok (DAG.edges dag) k (Node.predecessors node);
  gf_tidy : tidy operations dag;
}.

End Pruning.

Section Finishing.
Context `{Numeric}.

(** A cached successor list is right for node [k] when it lists, in
    strictly increasing order, the nodes that a path leads to from [k]. *)
Definition succ_cache_ok (edges : list (Z * Z)) (k : Z) (l : list Z) : Prop :=
  StronglySorted Z.lt l ∧ ∀ m, m ∈ l ↔ path edges k m.

(** The state of the loop of [_add_successors] on the DAG [dag] once the
    nodes with ids from [j] upwards are done: they hold their successors,
    the others hold none yet, and nothing else has changed. *)
Record finishing (dag : CommutationDAG) (j : Z) (d : CommutationDAG) : Prop := {
  fi_edges : DAG.edges d = DAG.edges dag;
  fi_dom : dom (DAG.nodes d) = dom (DAG.nodes dag);
  fi_nodes : ∀ k node,
    DAG.nodes dag !! k = Some node →
    ∃ l, DAG.nodes d !! k = Some (Node.set_successors l node)
         ∧ if bool_decide (j ≤ k) then succ_cache_ok (DAG.edges dag) k l else l = [];
}.

End Finishing.

Section Recorded.
Context `{Numeric}.


End Recorded.

(** The DAG that the wrapper returns on [example_tape]. *)
Definition example_dag : CommutationDAG :=
  match (wrapper example_tape).2 with
  | Ok dag => dag
  | Raise _ => __init__ [] []
  end.

(** ** Proof automation *)

Ltac eval_str_in H :=
  repeat match type of H with
         | context [str_in ?a ?l] =>
             let b := eval vm_compute in (str_in a l) in
             change (str_in a l) with b in H
         end.

Ltac split_tests :=
  repeat (match goal with
          | Hx : is_real ?x = true |- context [is_real ?x] => rewrite Hx
          | Hx : is_real ?x = true, Hy : is_real ?y = true
            |- context [is_real (angle_add ?x ?y)] => rewrite (is_real_add x y Hx Hy)
          | Hx : is_real ?x = true
            |- context [is_real (angle_add ?x ?x)] => rewrite (is_real_add x x Hx Hx)
          | Hx : same_shape ?x ?y = true |- context [same_shape ?x ?y] => rewrite Hx
          | Hx : same_shape ?x ?y = true |- context [can_add ?x ?y] =>
              rewrite (same_shape_can_add x y Hx)
          | |- context [can_add ?x ?x] => rewrite (can_add_refl x)
          | |- context [can_add ?a ?b] => destruct (can_add a b) eqn:?
          | |- context [is_real ?a] => destruct (is_real a) eqn:?
          | |- context [allclose_mod ?a ?b ?c] => destruct (allclose_mod a b c) eqn:?
          | |- context [same_shape ?a ?b] => destruct (same_shape a b) eqn:?
          end; simpl).

Ltac simplified_case :=
  unfold simplify_u2, simplify_u3, simplify_rotation, simplify_controlled_rotation,
    close_at, sum_close_zero, close, angle_sum, not_, acts_as_identity, all_zeros,
    mod_defined, homogeneous, is_barrier; simpl;
  split_tests;
  (eexists; split; [reflexivity|]); simpl; repeat split; try done; try congruence;
  intros; repeat match goal with
                 | Hx : allclose_mod _ _ _ = _ |- _ => rewrite ?Hx in *; clear Hx
                 | Hx : same_shape _ _ = _ |- _ => rewrite ?Hx in *; clear Hx
                 | Hx : is_real _ = _ |- _ => rewrite ?Hx in *; clear Hx
                 end; try done; try apply take_drop.

(** * Results *)

(** ** The oracle *)

Section OracleFacts.
Context `{Numeric}.

Lemma rotations_cases (n : string) :
  str_in n rotations = true → n = "U2" ∨ n = "U3" ∨ n = "Rot" ∨ n = "CRot".
Proof.
  intros E. apply bool_decide_eq_true in E. unfold rotations in E.
  rewrite !elem_of_cons, elem_of_nil in E. tauto.
Qed.

Lemma simplified_supported (o : Operation) :
  supported o = true →
  ∃ o', simplified o = Ok o' ∧ wires o' = wires o ∧ truthy (name o') = true
        ∧ is_barrier o' = is_barrier o
        ∧ (is_barrier o' = true → data o' = [])
        ∧ (acts_as_identity o = true → acts_as_identity o' = true).
Proof.
  unfold supported. rewrite andb_true_iff. intros [_ Hwf].
  unfold well_formed in Hwf. rewrite !andb_true_iff in Hwf.
  destruct Hwf as [[[[[Hn Hu2] Hr3] Hreal] Hbar] Hcrot].
  unfold simplified. destruct (str_in (name o) rotations) eqn:Hr.
  - destruct o as [n cv ch d w cw tw ic]; simpl in *.
    apply rotations_cases in Hr as [-> | [-> | [-> | ->]]];
      unfold simplify; simpl in *; eval_str_in Hr3.
    + apply bool_decide_eq_true in Hu2. destruct d as [|x [|y [|]]]; try discriminate.
      unfold mod_defined in Hreal. simpl in Hreal. rewrite !andb_true_iff in Hreal.
      destruct Hreal as ((Hx & Hy & _) & Hxy & _).
      simplified_case.
    + apply bool_decide_eq_true in Hr3. destruct d as [|x [|y [|z [|]]]]; try discriminate.
      unfold mod_defined in Hreal. simpl in Hreal. rewrite !andb_true_iff in Hreal.
      destruct Hreal as ((Hx & Hy & Hz & _) & Hxy & Hxz & _).
      simplified_case.
    + apply bool_decide_eq_true in Hr3. destruct d as [|x [|y [|z [|]]]]; try discriminate.
      unfold mod_defined in Hreal. simpl in Hreal. rewrite !andb_true_iff in Hreal.
      destruct Hreal as ((Hx & Hy & Hz & _) & Hxy & Hxz & _).
      simplified_case.
    + apply bool_decide_eq_true in Hr3. destruct d as [|x [|y [|z [|]]]]; try discriminate.
      unfold mod_defined in Hreal. simpl in Hreal. rewrite !andb_true_iff in Hreal.
      destruct Hreal as ((Hx & Hy & Hz & _) & Hxy & Hxz & _).
      apply bool_decide_eq_true in Hcrot. subst w.
      simplified_case.
  - exists o. repeat split; try done. 
    unfold is_barrier. intros Hb. rewrite Hb in Hbar. by apply bool_decide_eq_true in Hbar.
Qed.



Lemma all_zeros_defined (o : Operation) :
  mod_defined (data o) = true → ∃ zeros, all_zeros o = Ok zeros.
Proof. intros E. unfold all_zeros. rewrite E. eauto. Qed.

Lemma identity_case_spec (a b : Operation) :
  mod_defined (data a) = true →
  identity_case a b = Ok (if acts_as_identity a then Some (negb (is_barrier b)) else None).
Proof.
  intros E. unfold identity_case, acts_as_identity, is_barrier, all_zeros. rewrite E.
  destruct (negb (bool_decide (data a = []))), (negb (bool_decide (name a = "U2")));
    reflexivity.
Qed.



Lemma is_commuting_simplified (a b a' b' : Operation) :
  rejected a = false → rejected b = false →
  simplified a = Ok a' → simplified b = Ok b' →
  truthy (name a') = true →
  is_commuting a b = outcome a' b'.
Proof.
  intros Ha Hb Ha' Hb' Hn. unfold is_commuting, outcome.
  rewrite Ha, Hb, Ha', Hb'. cbn.
  destruct (identity_case a' b') as [[c|]|e]; cbn; try reflexivity.
  destruct (identity_case b' a') as [[c|]|e]; cbn; try reflexivity.
  rewrite Hn. cbn.
  destruct (intersection (wires a') (wires b')); reflexivity.
Qed.

Lemma outcome_verdict (a' b' : Operation) :
  mod_defined (data a') = true → mod_defined (data b') = true →
  outcome a' b' = Ok (verdict a' b').
Proof.
  intros Ha Hb. unfold outcome, verdict. rewrite !identity_case_spec by done. cbn.
  destruct (acts_as_identity a'); [reflexivity|]. cbn.
  destruct (acts_as_identity b'); reflexivity.
Qed.




(** An operand the deny list names, a continuous-variable operation or a
    channel makes the oracle raise before anything else happens. *)
Lemma is_commuting_rejected (a b : Operation) :
  (rejected a = true → is_commuting a b = Raise (not_supported_error a))
  ∧ (rejected a = false → rejected b = true →
     is_commuting a b = Raise (not_supported_error b)).
Proof.
  unfold is_commuting. split.
  - by intros ->.
  - by intros -> ->.
Qed.

Lemma supported_not_rejected (o : Operation) : supported o = true → rejected o = false.
Proof. unfold supported. rewrite andb_true_iff, negb_true_iff. tauto. Qed.

(** On supported operands the oracle gets as far as the identity tests. *)
Lemma is_commuting_supported (a b : Operation) :
  supported a = true → supported b = true →
  ∃ a' b', simplified a = Ok a' ∧ simplified b = Ok b'
           ∧ is_commuting a b = outcome a' b'.
Proof.
  intros Ha Hb.
  destruct (simplified_supported a Ha) as (a' & Ea & _ & Hn & _).
  destruct (simplified_supported b Hb) as (b' & Eb & _).
  exists a', b'. split_and!; [done..|].
  apply is_commuting_simplified; auto using supported_not_rejected.
Qed.

(** It answers when the zero tests are defined on both. *)
Lemma is_commuting_total (a b : Operation) :
  supported a = true → supported b = true →
  tests_defined a = true → tests_defined b = true →
  ∃ c, is_commuting a b = Ok c.
Proof.
  intros Ha Hb Ta Tb.
  destruct (is_commuting_supported a b Ha Hb) as (a' & b' & Ea & Eb & E).
  unfold tests_defined in Ta, Tb. rewrite Ea in Ta. rewrite Eb in Tb.
  rewrite E, outcome_verdict by done. eauto.
Qed.



End OracleFacts.

Section OracleClaims.
Context `{Numeric}.


End OracleClaims.







(** C2: the table says that [PauliZ] and [S] commute; the oracle says they
    do not, because the test before the table lookup never fails. *)
Theorem table_lookup_never_reached :
  table "PauliZ" "S" = Ok true
  ∧ is_commuting (gate "PauliZ" [] [0]) (gate "S" [] [0]) = Ok false.
Proof. split; vm_compute; reflexivity. Qed.

(** C6: the row of [SX] disagrees with the rows of [RZ] and [RX]. *)
Theorem commutation_map_asymmetric :
  table "SX" "RZ" = Ok true ∧ table "RZ" "SX" = Ok false
  ∧ table "RX" "SX" = Ok true ∧ table "SX" "RX" = Ok false.
Proof. split_and!; vm_compute; reflexivity. Qed.

(** C9: [ArbitraryUnitary] and [CommutingEvolution] are not in the list of
    unsupported names, which holds their concatenation instead; the oracle
    answers for them without raising. *)
Theorem ArbitraryUnitary_not_rejected :
  not_supported_operations !! 4%nat = Some "ArbitraryUnitaryCommutingEvolution"
  ∧ rejected (gate "ArbitraryUnitary" [1] [0]) = false
  ∧ rejected (gate "CommutingEvolution" [1] [0]) = false
  ∧ is_commuting (gate "ArbitraryUnitary" [1] [0]) (gate "PauliX" [] [0]) = Ok false
  ∧ is_commuting (gate "PauliRot" [1] [0]) (gate "PauliX" [] [0])
    = Raise (QuantumFunctionError "Operation PauliRot not supported.").
Proof. split_and!; vm_compute; reflexivity. Qed.

(** ** Merging sorted lists *)

Section HeapMerge.
Implicit Types (its : list (list Z)) (l : list Z) (v x : Z).

Lemma least_head_None its : least_head its = None → mjoin its = [].
Proof.
  induction its as [|[|x l] its IH]; simpl; [done|done|].
  destruct (least_head its); done.
Qed.

Lemma least_head_Some its v :
  least_head its = Some v →
  (∃ l, (v :: l) ∈ its) ∧ ∀ x l, (x :: l) ∈ its → v ≤ x.
Proof.
  revert v. induction its as [|[|x l] its IH]; simpl; intros v Hv; [done|..].
  - destruct (IH v Hv) as [[l' Hl'] Hmin]. split.
    + exists l'. by right.
    + intros y l'' [?|?]%elem_of_cons; [done|]. eauto.
  - destruct (least_head its) as [y|] eqn:E.
    + destruct (IH y eq_refl) as [[l' Hl'] Hmin].
      injection Hv as <-. destruct (Z.ltb_spec y x).
      * split; [exists l'; by right|].
        intros z l'' [Heq|?]%elem_of_cons; [injection Heq as -> ->; lia|eauto].
      * split; [exists l; by left|].
        intros z l'' [Heq|Hin]%elem_of_cons; [injection Heq as -> ->; lia|].
        specialize (Hmin _ _ Hin). lia.
    + injection Hv as <-. split; [exists l; by left|].
      intros z l'' [Heq|Hin]%elem_of_cons; [injection Heq as -> ->; lia|].
      apply least_head_None in E.
      assert (z ∈ mjoin its) as Hz.
      { apply list_elem_of_join. exists (z :: l''). split; [left|done]. }
      rewrite E in Hz. by apply elem_of_nil in Hz.
Qed.

Lemma advance_Permutation its v l :
  (v :: l) ∈ its → mjoin its ≡ₚ v :: mjoin (advance v its).
Proof.
  induction its as [|[|x l'] its IH]; simpl; intros Hin.
  - by apply elem_of_nil in Hin.
  - apply elem_of_cons in Hin as [?|Hin]; [done|]. auto.
  - destruct (Z.eqb_spec x v) as [->|Hne]; [done|].
    apply elem_of_cons in Hin as [Heq|Hin]; [congruence|].
    simpl. rewrite (IH Hin). rewrite <- !Permutation_middle.
    apply perm_swap.
Qed.

Lemma advance_sorted its v :
  Forall (StronglySorted Z.le) its → Forall (StronglySorted Z.le) (advance v its).
Proof.
  induction 1 as [|[|x l] its Hl Hits IH]; simpl; [constructor|by constructor|].
  destruct (x =? v).
  - constructor; [|done]. by apply StronglySorted_inv in Hl as [? _].
  - by constructor.
Qed.

Lemma heapq_merge_fuel_spec fuel its :
  (length (mjoin its) ≤ fuel)%nat →
  Forall (StronglySorted Z.le) its →
  heapq_merge_fuel fuel its ≡ₚ mjoin its ∧
  StronglySorted Z.le (heapq_merge_fuel fuel its).
Proof.
  revert its. induction fuel as [|fuel IH]; intros its Hlen Hs; simpl.
  - destruct (mjoin its); simpl in *; [split; [done|constructor] | lia].
  - destruct (least_head its) as [v|] eqn:E.
    + destruct (least_head_Some _ _ E) as [[l Hl] Hmin].
      pose proof (advance_Permutation _ _ _ Hl) as Hp.
      destruct (IH (advance v its)) as [IHp IHs].
      { apply Permutation_length in Hp. simpl in Hp. lia. }
      { by apply advance_sorted. }
      split; [by rewrite Hp, IHp|].
      constructor; [done|].
      rewrite IHp. apply Forall_forall. intros x Hx.
      assert (x ∈ mjoin its) as Hx' by (rewrite Hp; by right).
      apply list_elem_of_join in Hx' as (l' & Hxl & Hl').
      destruct l' as [|y l']; [by apply elem_of_nil in Hxl|].
      specialize (Hmin _ _ Hl').
      rewrite Forall_forall in Hs. specialize (Hs _ Hl').
      apply StronglySorted_inv in Hs as [_ Hy].
      apply elem_of_cons in Hxl as [->|Hxl]; [done|].
      rewrite Forall_forall in Hy. specialize (Hy _ Hxl). lia.
    + apply least_head_None in E. rewrite E. split; [done|constructor].
Qed.

Lemma skip_repeats_spec last l :
  StronglySorted Z.le l →
  (∀ a, last = Some a → Forall (Z.le a) l) →
  StronglySorted Z.lt (skip_repeats last l) ∧
  (∀ x, x ∈ skip_repeats last l ↔ x ∈ l ∧ Some x ≠ last).
Proof.
  revert last. induction l as [|v l IH]; intros last Hs Hlast; simpl.
  - split; [constructor|]. intros x. rewrite elem_of_nil. tauto.
  - apply StronglySorted_inv in Hs as [Hs Hv].
    case_bool_decide as Hd.
    + destruct (IH last Hs) as [IH1 IH2].
      { intros a Ha. specialize (Hlast a Ha). by apply Forall_inv_tail in Hlast. }
      split; [done|]. intros x. rewrite IH2, elem_of_cons.
      split; [intros [? ?]; auto|intros [[->|?] ?]; [done|auto]].
    + destruct (IH (Some v) Hs) as [IH1 IH2].
      { intros a [= <-]. done. }
      split.
      * constructor; [done|]. apply Forall_forall. intros x Hx.
        apply IH2 in Hx as [Hx Hne].
        rewrite Forall_forall in Hv. specialize (Hv _ Hx).
        assert (x ≠ v) by congruence. lia.
      * intros x. rewrite !elem_of_cons, IH2. split.
        -- intros [->|[Hx Hne]]; [split; [by left|done]|].
           split; [by right|]. intros <-.
           specialize (Hlast _ eq_refl). apply Forall_inv in Hlast.
           rewrite Forall_forall in Hv. specialize (Hv _ Hx).
           assert (x = v) as -> by lia. done.
        -- intros [[->|Hx] Hne]; [by left|].
           destruct (decide (x = v)) as [->|]; [by left|right]. split; [done|congruence].
Qed.

Lemma merge_no_duplicates_spec its :
  Forall (StronglySorted Z.le) its →
  StronglySorted Z.lt (_merge_no_duplicates its) ∧
  (∀ x, x ∈ _merge_no_duplicates its ↔ ∃ l, l ∈ its ∧ x ∈ l).
Proof.
  intros Hs. unfold _merge_no_duplicates, heapq_merge.
  destruct (heapq_merge_fuel_spec (length (mjoin its)) its) as [Hp Hm]; [done..|].
  destruct (skip_repeats_spec None _ Hm) as [H1 H2]; [done|].
  split; [done|]. intros x. rewrite H2, Hp, list_elem_of_join.
  split; [intros [(l & ? & ?) _]; eauto | intros (l & ? & ?); split; [eauto|done]].
Qed.

Lemma StronglySorted_lt_le l : StronglySorted Z.lt l → StronglySorted Z.le l.
Proof.
  induction 1 as [|x l Hl IH Hx]; constructor; [done|].
  eapply Forall_impl; [done|]. simpl. lia.
Qed.
End HeapMerge.

(** ** Properties that every method keeps *)

Section Frames.
Context `{Numeric}.
Implicit Types (Q : CommutationDAG → Prop) (dag : CommutationDAG).

Lemma keeps_pure Q {A} (a : A) : keeps Q (mret a : M A).
Proof. by intros dag. Qed.

Lemma keeps_reading Q {A} (f : CommutationDAG → result A) : keeps Q (reading f).
Proof. by intros dag. Qed.

Lemma keeps_writing Q (f : CommutationDAG → CommutationDAG) :
  (∀ dag, Q dag → Q (f dag)) → keeps Q (writing f).
Proof. intros Hf dag. apply Hf. Qed.

Lemma keeps_bind Q {A B} (m : M A) (f : A → M B) :
  keeps Q m → (∀ a, keeps Q (f a)) → keeps Q (m ≫= f).
Proof.
  intros Hm Hf dag HQ. specialize (Hm dag HQ).
  unfold after, mbind, M_bind, bind in *.
  destruct (m dag) as [dag' [a|e]]; simpl in *; [|done].
  by apply Hf.
Qed.

Lemma keeps_for_each Q (body : Z → M unit) (ids : list Z) :
  (∀ i, i ∈ ids → keeps Q (body i)) → keeps Q (for_each body ids).
Proof.
  induction ids as [|i ids IH]; intros Hb; simpl.
  - apply keeps_pure.
  - apply keeps_bind; [apply Hb; left|].
    intros _. apply IH. intros j Hj. apply Hb. by right.
Qed.

Lemma keeps_update_node Q f node_id :
  (∀ dag nodes, Q dag → Q (DAG.set_nodes nodes dag)) → keeps Q (update_node f node_id).
Proof.
  intros HQ. unfold update_node. apply keeps_bind; [apply keeps_reading|].
  intros node. apply keeps_writing. intros dag. apply HQ.
Qed.

Lemma ascending_set_nodes dag nodes :
  ascending_dag dag → ascending_dag (DAG.set_nodes nodes dag).
Proof. done. Qed.

Lemma keeps_ascending_pred_update node_id : keeps ascending_dag (_pred_update node_id).
Proof.
  unfold _pred_update.
  repeat first
    [ apply keeps_update_node; apply ascending_set_nodes
    | apply keeps_reading
    | apply keeps_bind; [|intros ?] ].
Qed.

Lemma keeps_ascending_scan max_node_id max_node prev_node_id :
  prev_node_id < max_node_id →
  keeps ascending_dag (scan max_node_id max_node prev_node_id).
Proof.
  intros Hlt. unfold scan.
  apply keeps_bind; [apply keeps_reading|]. intros prev.
  destruct (Node.reachable prev) as [[|]|]; try apply keeps_pure.
  apply keeps_bind; [apply keeps_reading|]. intros [|]; [apply keeps_pure|].
  apply keeps_bind; [|intros _; apply keeps_bind].
  - apply keeps_writing. intros dag Hd p q. simpl.
    rewrite elem_of_app, list_elem_of_singleton. intros [?|[= -> ->]]; [by apply Hd|done].
  - apply keeps_ascending_pred_update.
  - intros _. apply keeps_bind; [apply keeps_reading|]. intros node.
    apply keeps_for_each. intros i _. apply keeps_update_node, ascending_set_nodes.
Qed.

Lemma elem_of_range lo hi i : i ∈ range lo hi ↔ lo ≤ i < hi.
Proof. unfold range. rewrite elem_of_seqZ. lia. Qed.

Lemma elem_of_range_down lo hi i : i ∈ range_down lo hi ↔ lo ≤ i < hi.
Proof. unfold range_down. rewrite elem_of_reverse. apply elem_of_range. Qed.

Lemma keeps_ascending_update_edges : keeps ascending_dag _update_edges.
Proof.
  unfold _update_edges.
  apply keeps_bind; [apply keeps_reading|]. intros max_node_id.
  apply keeps_bind; [apply keeps_reading|]. intros node.
  apply keeps_bind.
  - apply keeps_for_each. intros i _. apply keeps_update_node, ascending_set_nodes.
  - intros _. apply keeps_for_each. intros i Hi%elem_of_range_down.
    apply keeps_ascending_scan. lia.
Qed.

Lemma keeps_ascending_add_node operation : keeps ascending_dag (add_node operation).
Proof.
  unfold add_node. apply keeps_bind; [|intros _; apply keeps_ascending_update_edges].
  apply keeps_writing. by intros dag Hd.
Qed.

Lemma keeps_ascending_add_nodes operations : keeps ascending_dag (add_nodes operations).
Proof.
  induction operations as [|operation operations IH]; simpl.
  - apply keeps_pure.
  - apply keeps_bind; [apply keeps_ascending_add_node|by intros _].
Qed.

Lemma path_ascending edges m n : ascending edges → path edges m n → m < n.
Proof.
  intros Ha. induction 1 as [m n He|m k n _ IH He]; [by apply Ha|].
  apply Ha in He. lia.
Qed.

(** C8: every call of [add_node] keeps all edges pointing from a lower id
    to a higher id, whatever its outcome; so do the edges of a DAG built from
    any sequence of operations; and such edges contain no cycle. *)
Theorem edges_point_upwards :
  (∀ operation dag,
      ascending (DAG.edges dag) → ascending (DAG.edges (after (add_node operation) dag)))
  ∧ (∀ wires observables operations,
      ascending (DAG.edges (after (add_nodes operations) (__init__ wires observables))))
  ∧ (∀ dag, ascending (DAG.edges dag) → ∀ n, ¬ path (DAG.edges dag) n n).
Proof.
  split_and!.
  - intros operation dag. apply keeps_ascending_add_node.
  - intros wires observables operations. apply keeps_ascending_add_nodes.
    intros p q Hin. by apply elem_of_nil in Hin.
  - intros dag Ha n Hp. apply (path_ascending _ _ _ Ha) in Hp. lia.
Qed.
End Frames.

Lemma edges_point_upwards_witness :
  ascending (DAG.edges (after (add_node (gate "PauliZ" [] [0]))
                          (after (add_nodes example_circuit) (__init__ (on [0; 1; 2]) []))))
  ∧ ¬ path (DAG.edges (after (add_nodes example_circuit) (__init__ (on [0; 1; 2]) []))) 5 5.
Proof.
  split.
  - apply (proj1 edges_point_upwards). apply (proj1 (proj2 edges_point_upwards)).
  - apply (proj2 (proj2 edges_point_upwards)). apply (proj1 (proj2 edges_point_upwards)).
Defined.

(** An unsupported operation met by the scan stops [add_node] and the
    wrapper with the error of the oracle. *)
Example unsupported_operation_propagates :
  (add_nodes [gate "PauliX" [] [0]; gate "PauliRot" [1] [0]] (__init__ (on [0]) [])).2
  = Raise (QuantumFunctionError "Operation PauliRot not supported.")
  ∧ (wrapper (tape_of 1 [gate "PauliX" [] [0]; gate "PauliRot" [1] [0]])).2
    = Raise (QuantumFunctionError "Operation PauliRot not supported.")
  ∧ is_ok (wrapper (tape_of 1 [gate "PauliX" [] [0]; gate "ArbitraryUnitary" [1] [0]])).2
    = true.
Proof. split_and!; vm_compute; reflexivity. Qed.

(** ** Paths and reachability *)

Section Paths.
Implicit Types (E : list (Z * Z)) (m n k p q : Z).

Lemma path_last E m n : path E m n → ∃ k, (k, n) ∈ E ∧ (m = k ∨ path E m k).
Proof. destruct 1 as [m n He|m k n Hp He]; eauto. Qed.

Lemma path_mono E E' m n : (∀ e, e ∈ E → e ∈ E') → path E m n → path E' m n.
Proof.
  intros Hsub. induction 1 as [m n He|m k n _ IH He].
  - apply path_edge. auto.
  - eapply path_snoc; eauto.
Qed.

Lemma path_trans E m k n : path E m k → path E k n → path E m n.
Proof.
  intros Hmk Hkn. induction Hkn as [k n He|k j n _ IH He].
  - eapply path_snoc; [exact Hmk|exact He].
  - eapply path_snoc; [by apply IH|exact He].
Qed.

(** Adding edges into a fresh top node [N]. *)
Lemma path_below E0 E1 N m k :
  (∀ p q, (p, q) ∈ E0 → p < q < N) →
  (∀ p q, (p, q) ∈ E1 → (p, q) ∈ E0 ∨ q = N) →
  (∀ e, e ∈ E0 → e ∈ E1) →
  k ≠ N → (path E1 m k ↔ path E0 m k).
Proof.
  intros H0 H1 Hsub Hk. split; [|by apply path_mono].
  intros Hp. induction Hp as [m k He|m j k _ IH He].
  - apply path_edge. destruct (H1 _ _ He); [done|lia].
  - destruct (H1 _ _ He) as [He0|]; [|lia].
    eapply path_snoc; [|done]. apply IH. apply H0 in He0. lia.
Qed.

Lemma path_top E0 E1 N (S : Z → Prop) m :
  (∀ p q, (p, q) ∈ E0 → p < q < N) →
  (∀ p q, (p, q) ∈ E1 ↔ (p, q) ∈ E0 ∨ (q = N ∧ S p)) →
  (∀ p, S p → p < N) →
  path E1 m N ↔ ∃ x, S x ∧ (m = x ∨ path E0 m x).
Proof.
  intros H0 H1 HS.
  assert (∀ e, e ∈ E0 → e ∈ E1) as Hsub.
  { intros [p q] ?. rewrite H1. by left. }
  split.
  - intros Hp. apply path_last in Hp as (x & He & Hm). apply H1 in He as [He|[_ Hx]].
    { apply H0 in He. lia. }
    exists x. split; [done|]. destruct Hm as [->|Hm]; [by left|right].
    assert (∀ p q, (p, q) ∈ E1 → (p, q) ∈ E0 ∨ q = N) as H1'.
    { intros p q Hin. apply H1 in Hin. tauto. }
    assert (x ≠ N) as Hne by (apply HS in Hx; lia).
    by apply (path_below E0 E1 N m x H0 H1' Hsub Hne).
  - intros (x & Hx & [->|Hm]).
    + apply path_edge. rewrite H1. by right.
    + eapply path_snoc; [eapply path_mono; done|]. rewrite H1. by right.
Qed.

Lemma elem_of_sources E n p : p ∈ sources E n ↔ (p, n) ∈ E.
Proof.
  unfold sources. rewrite list_elem_of_omap. split.
  - intros ([a b] & Hin & Heq). simpl in Heq. case_bool_decide; simplify_eq. done.
  - intros Hin. exists (p, n). split; [done|]. simpl. by rewrite bool_decide_eq_true_2.
Qed.

Lemma reaches_path E fuel m n :
  (∀ p q, (p, q) ∈ E → 0 ≤ p < q) →
  (Z.to_nat n < fuel)%nat →
  reaches fuel E m n = true ↔ path E m n.
Proof.
  intros HE. revert n. induction fuel as [|fuel IH]; intros n Hn; [lia|].
  simpl. rewrite existsb_exists. split.
  - intros (p & Hp & Hor). apply list_elem_of_In, elem_of_sources in Hp.
    apply orb_true_iff in Hor as [Heq|Hr].
    + apply bool_decide_eq_true in Heq as ->. by apply path_edge.
    + eapply path_snoc; [|done]. apply IH; [|done].
      apply HE in Hp. lia.
  - intros Hp. apply path_last in Hp as (p & Hp & Hm). exists p.
    split; [by apply list_elem_of_In, elem_of_sources|].
    apply orb_true_iff. destruct Hm as [->|Hm]; [left; by apply bool_decide_eq_true|right].
    apply IH; [|done]. apply HE in Hp. lia.
Qed.
End Paths.

(** ** The methods on a well-formed node store *)

Section Primitives.
Context `{Numeric}.
Implicit Types (dag d : CommutationDAG) (node top : CommutationDAGNode).

Lemma bind_Ok {A B} (m : M A) (f : A → M B) dag dag' a :
  m dag = (dag', Ok a) → (m ≫= f) dag = f a dag'.
Proof. intros E. unfold mbind, M_bind, bind. by rewrite E. Qed.

Lemma bind_Raise {A B} (m : M A) (f : A → M B) dag dag' e :
  m dag = (dag', Raise e) → (m ≫= f) dag = (dag', Raise e).
Proof. intros E. unfold mbind, M_bind, bind. by rewrite E. Qed.

Lemma reading_Ok {A B} (g : CommutationDAG → result A) (f : A → M B) dag a :
  g dag = Ok a → (reading g ≫= f) dag = f a dag.
Proof. intros E. apply bind_Ok. unfold reading. by rewrite E. Qed.

Lemma get_node_Some k dag node : DAG.nodes dag !! k = Some node → get_node k dag = Ok node.
Proof. intros E. unfold get_node. by rewrite E. Qed.

Lemma set_nodes_id dag : DAG.set_nodes (DAG.nodes dag) dag = dag.
Proof. by destruct dag. Qed.

Lemma update_node_Some f k dag node :
  DAG.nodes dag !! k = Some node →
  update_node f k dag = (DAG.set_nodes (<[k := f node]> (DAG.nodes dag)) dag, Ok ()).
Proof.
  intros E. unfold update_node. by rewrite (reading_Ok _ _ _ _ (get_node_Some _ _ _ E)).
Qed.

Lemma for_each_update f ids dag :
  (∀ node, f (f node) = f node) →
  (∀ k, k ∈ ids → is_Some (DAG.nodes dag !! k)) →
  ∃ nodes',
    for_each (update_node f) ids dag = (DAG.set_nodes nodes' dag, Ok ())
    ∧ size nodes' = size (DAG.nodes dag)
    ∧ ∀ k, nodes' !! k = (if bool_decide (k ∈ ids) then f else id) <$> DAG.nodes dag !! k.
Proof.
  intros Hf. revert dag. induction ids as [|i ids IH]; intros dag Hk; simpl.
  - exists (DAG.nodes dag). rewrite set_nodes_id. split_and!; [done..|].
    intros k. by destruct (DAG.nodes dag !! k).
  - destruct (Hk i) as [node Hi]; [left|].
    rewrite (bind_Ok _ _ _ _ _ (update_node_Some f i dag node Hi)).
    destruct (IH (DAG.set_nodes (<[i := f node]> (DAG.nodes dag)) dag)) as (nodes' & E & Hs & Hl).
    { intros k Hin. simpl. apply lookup_insert_is_Some'. right. apply Hk. by right. }
    exists nodes'. split_and!.
    + rewrite E. done.
    + rewrite Hs. simpl. apply map_size_insert_Some. done.
    + intros k. rewrite Hl. simpl. destruct (decide (i = k)) as [<-|Hne].
      * rewrite lookup_insert_eq, Hi. simpl.
        rewrite (bool_decide_eq_true_2 (i ∈ i :: ids)) by left.
        case_bool_decide; by rewrite ?Hf.
      * rewrite lookup_insert_ne by done.
        rewrite (bool_decide_ext (k ∈ i :: ids) (k ∈ ids)); [done|].
        rewrite elem_of_cons. split; [intros [?|?]; [congruence|done] | by right].
Qed.

Lemma gather_spec (cached : CommutationDAGNode → list Z) ids dag :
  (∀ x, x ∈ ids → is_Some (DAG.nodes dag !! x)) →
  ∃ lists,
    gather cached ids dag = Ok lists
    ∧ ∀ l, l ∈ lists ↔
        ∃ x node, x ∈ ids ∧ DAG.nodes dag !! x = Some node ∧ (l = [x] ∨ l = cached node).
Proof.
  induction ids as [|i ids IH]; intros Hk; simpl.
  - exists []. split; [done|]. intros l. split; [by intros ?%elem_of_nil|].
    by intros (x & node & ?%elem_of_nil & _).
  - destruct (Hk i) as [node Hi]; [left|].
    destruct IH as (lists & E & Hl); [intros x Hx; apply Hk; by right|].
    exists ([i] :: cached node :: lists).
    rewrite (get_node_Some _ _ _ Hi). simpl. rewrite E. simpl. split; [done|].
    intros l. rewrite !elem_of_cons, Hl. split.
    + intros [->|[->|(x & node' & Hx & Hn & Hor)]].
      * exists i, node. split_and!; [left|done|by left].
      * exists i, node. split_and!; [left|done|by right].
      * exists x, node'. split_and!; [by right|done..].
    + intros (x & node' & [->|Hx]%elem_of_cons & Hn & Hor).
      * rewrite Hi in Hn. injection Hn as <-. destruct Hor; auto.
      * right; right. eauto 6.
Qed.

Lemma elem_of_direct_predecessors k dag node :
  DAG.nodes dag !! k = Some node →
  ∃ direct, direct_predecessors k dag = Ok direct
            ∧ ∀ x, x ∈ direct ↔ (x, k) ∈ DAG.edges dag.
Proof.
  intros E. unfold direct_predecessors. rewrite E. eexists. split; [done|].
  intros x. rewrite merge_sort_Permutation, elem_of_remove_dups.
  apply elem_of_sources.
Qed.

(** [_pred_update] on a node whose direct predecessors are other nodes of
    the graph. *)
Lemma pred_update_spec k dag top :
  DAG.nodes dag !! k = Some top →
  (∀ x, (x, k) ∈ DAG.edges dag → x ≠ k ∧ is_Some (DAG.nodes dag !! x)) →
  ∃ lists,
    _pred_update k dag =
      (DAG.set_nodes
         (<[k := Node.set_predecessors (_merge_no_duplicates lists) top]> (DAG.nodes dag)) dag,
       Ok ())
    ∧ ∀ l, l ∈ lists ↔
        ∃ x node, (x, k) ∈ DAG.edges dag ∧ DAG.nodes dag !! x = Some node
                  ∧ (l = [x] ∨ l = Node.predecessors node).
Proof.
  intros Htop Hdirect. unfold _pred_update.
  rewrite (bind_Ok _ _ _ _ _ (update_node_Some _ k dag top Htop)).
  set (dag1 := DAG.set_nodes _ dag).
  assert (DAG.nodes dag1 !! k = Some (Node.set_predecessors [] top)) as Htop1
    by apply lookup_insert_eq.
  destruct (elem_of_direct_predecessors k dag1 _ Htop1) as (direct & Ed & Hd).
  rewrite (reading_Ok _ _ _ _ Ed).
  destruct (gather_spec Node.predecessors direct dag1) as (lists & Eg & Hl).
  { intros x Hx%Hd. destruct (Hdirect x Hx) as [Hne Hs].
    subst dag1. simpl. by rewrite lookup_insert_ne. }
  rewrite (reading_Ok _ _ _ _ Eg).
  rewrite (update_node_Some _ k dag1 _ Htop1).
  exists lists. split.
  - subst dag1. simpl. by rewrite insert_insert_eq.
  - intros l. rewrite Hl. split.
    + intros (x & node & Hx%Hd & Hn & Hor). destruct (Hdirect x Hx) as [Hne _].
      subst dag1. simpl in Hn. rewrite lookup_insert_ne in Hn by done. eauto 6.
    + intros (x & node & Hx & Hn & Hor). destruct (Hdirect x Hx) as [Hne _].
      exists x, node. split_and!; [by apply Hd| |done].
      subst dag1. simpl. by rewrite lookup_insert_ne.
Qed.
End Primitives.

(** ** One step of the scan *)

Section Scan.
Context `{Numeric}.
Implicit Types (dag d : CommutationDAG) (node top : CommutationDAGNode).
Implicit Types (operations : list Operation) (operation : Operation).

Lemma elem_of_top_edges (E0 : list (Z * Z)) (direct : list Z) (N p q : Z) :
  (p, q) ∈ E0 ++ ((λ p, (p, N)) <$> direct) ↔ (p, q) ∈ E0 ∨ (q = N ∧ p ∈ direct).
Proof.
  rewrite elem_of_app, list_elem_of_fmap. split.
  - intros [?|(x & [= -> ->] & ?)]; auto.
  - intros [?|[-> ?]]; eauto.
Qed.

Lemma fails_to_commute_top operations operation p a :
  operations !! Z.to_nat p = Some a → 0 ≤ p →
  fails_to_commute (operations ++ [operation]) p (Z.of_nat (length operations)) =
    match is_commuting a operation with Ok false => true | _ => false end.
Proof.
  intros Ha Hp. unfold fails_to_commute.
  rewrite (lookup_app_l_Some _ _ _ _ Ha).
  rewrite Nat2Z.id, list_lookup_middle by done. done.
Qed.

Lemma fails_to_commute_below operations operation p q :
  0 ≤ p < q → q < Z.of_nat (length operations) →
  fails_to_commute (operations ++ [operation]) p q = fails_to_commute operations p q.
Proof.
  intros Hp Hq. unfold fails_to_commute.
  rewrite !lookup_app_l by lia. done.
Qed.

(** The paths into the new node while the scan runs. *)
Lemma scanning_path_top operations dag (direct : list Z) m :
  built_from operations dag →
  (∀ p, p ∈ direct → p < Z.of_nat (length operations)) →
  path (DAG.edges dag ++ ((λ p, (p, Z.of_nat (length operations))) <$> direct))
       m (Z.of_nat (length operations))
  ↔ ∃ x, x ∈ direct ∧ (m = x ∨ path (DAG.edges dag) m x).
Proof.
  intros Hb Hd. apply (path_top _ _ _ (λ x, x ∈ direct)).
  - intros p q Hin. apply (bf_edges _ _ Hb) in Hin. lia.
  - intros p q. apply elem_of_top_edges.
  - done.
Qed.

Lemma scanning_path_below operations dag (direct : list Z) m k :
  built_from operations dag →
  k ≠ Z.of_nat (length operations) →
  path (DAG.edges dag ++ ((λ p, (p, Z.of_nat (length operations))) <$> direct)) m k
  ↔ path (DAG.edges dag) m k.
Proof.
  intros Hb Hk. apply (path_below _ _ (Z.of_nat (length operations))); [| | |done].
  - intros p q Hin. apply (bf_edges _ _ Hb) in Hin. lia.
  - intros p q Hin. apply elem_of_top_edges in Hin. tauto.
  - intros e He. apply elem_of_app. by left.
Qed.

Lemma path_bounds (E : list (Z * Z)) lo hi m n :
  (∀ p q, (p, q) ∈ E → lo ≤ p < q ∧ q < hi) → path E m n → lo ≤ m < n ∧ n < hi.
Proof.
  intros HE. induction 1 as [m n He|m k n _ IH He]; [by apply HE|].
  apply HE in He. lia.
Qed.

Lemma writing_Ok {B} (f : CommutationDAG → CommutationDAG) (k : unit → M B) dag :
  (writing f ≫= k) dag = k () (f dag).
Proof. by apply bind_Ok. Qed.

(** One round of the scan: either it returns and the scan stands one node
    further down, or the oracle raises on the operation of that node and
    nothing has changed. *)
Lemma scan_step operations operation dag j d :
  built_from operations dag →
  0 < j ≤ Z.of_nat (length operations) →
  scanning operations operation dag j d →
  (∃ d', scan (Z.of_nat (length operations)) operation (j - 1) d = (d', Ok ())
         ∧ scanning operations operation dag (j - 1) d')
  ∨ (∃ a e, a ∈ operations ∧ is_commuting a operation = Raise e
            ∧ scan (Z.of_nat (length operations)) operation (j - 1) d = (d, Raise e)).
Proof.
  intros Hb Hj
    [Hsize Hid Hkeys (top & Htop & Hop & Hcache & Hold) (direct & HE & Hdirect) Hdone].
  set (N := Z.of_nat (length operations)) in *.
  destruct (proj2 (bf_keys _ _ Hb (j - 1))) as [node Hnode]; [lia|].
  destruct (Hold _ _ Hnode) as (node' & Hnode' & Hop' & Hpreds' & Hreach).
  pose proof (bf_ops _ _ Hb _ _ Hnode) as Hlook.
  unfold scan. rewrite (reading_Ok _ _ _ _ (get_node_Some _ _ _ Hnode')).
  rewrite Hreach.
  destruct (bool_decide (j - 1 ∈ Node.predecessors top)) eqn:Hin; simpl.
  { (* the node is no longer reachable *)
    left. exists d. split; [done|]. constructor; try done.
    - exists top; done.
    - exists direct. split; [done|]. intros p Hp. destruct (Hdirect p Hp). split; [lia|done].
    - intros p Hp Hf. destruct (decide (p = j - 1)) as [->|].
      + apply Hcache. by apply bool_decide_eq_true in Hin.
      + apply Hdone; [lia|done]. }
  pose proof (fails_to_commute_top operations operation (j - 1) _ Hlook ltac:(lia)) as Hfail.
  rewrite Hop'.
  assert (∃ r, is_commuting (Node.op node) operation = r) as [[c|e] Hc] by eauto.
  2: { (* the oracle raises *)
    right. exists (Node.op node), e. split_and!; [|done|].
    - eapply list_elem_of_lookup_2; done.
    - apply bind_Raise. unfold reading. by rewrite Hc. }
  rewrite Hc in Hfail.
  rewrite (reading_Ok (λ _, is_commuting (Node.op node) operation) _ d c Hc).
  left. destruct c.
  { (* the operations commute *)
    exists d. split; [done|]. constructor; try done.
    - exists top; done.
    - exists direct. split; [done|]. intros p Hp. destruct (Hdirect p Hp). split; [lia|done].
    - intros p Hp Hf. destruct (decide (p = j - 1)) as [->|].
      + subst N. rewrite Hfail in Hf. done.
      + apply Hdone; [lia|done]. }
  (* a new edge *)
  unfold add_edge. rewrite writing_Ok.
  set (d1 := DAG.set_edges _ d).
  assert (DAG.edges d1 = DAG.edges dag ++ ((λ p, (p, N)) <$> (direct ++ [j - 1]))) as HE1.
  { subst d1. simpl. rewrite HE, fmap_app, app_assoc. done. }
  assert (∀ p, p ∈ direct ++ [j - 1] → j - 1 ≤ p < N ∧
            fails_to_commute (operations ++ [operation]) p N = true) as Hdirect1.
  { intros p [Hp|Hp]%elem_of_app.
    - destruct (Hdirect p Hp). split; [lia|done].
    - apply list_elem_of_singleton in Hp as ->. split; [lia|done]. }
  assert (∀ m, path (DAG.edges d1) m N ↔
               ∃ x, x ∈ direct ++ [j - 1] ∧ (m = x ∨ path (DAG.edges dag) m x)) as Hpaths1.
  { intros m. rewrite HE1. apply scanning_path_top; [done|].
    intros p Hp. apply Hdirect1 in Hp. lia. }
  assert (∀ m, path (DAG.edges d1) m N → 0 ≤ m < N) as Hbound1.
  { intros m (x & Hx & Hm)%Hpaths1. apply Hdirect1 in Hx as [Hx _].
    destruct Hm as [->|Hm]; [lia|].
    apply (path_bounds _ 0 N) in Hm; [lia|]. apply (bf_edges _ _ Hb). }
  destruct (pred_update_spec N d1 top) as (lists & Epu & Hlists); [done| |].
  { intros x Hx. assert (0 ≤ x < N) as Hxb by (by apply Hbound1, path_edge).
    split; [lia|]. subst d1. simpl. apply Hkeys. lia. }
  rewrite (bind_Ok _ _ _ _ _ Epu).
  set (preds' := _merge_no_duplicates lists) in *.
  set (top' := Node.set_predecessors preds' top) in *.
  set (d3 := DAG.set_nodes _ d1).
  assert (DAG.nodes d3 !! N = Some top') as Htop3 by apply lookup_insert_eq.
  rewrite (reading_Ok _ _ _ _ (get_node_Some _ _ _ Htop3)).
  (* the new cache of the top node *)
  assert (cache_ok (DAG.edges d1) N preds') as Hcache'.
  { destruct (merge_no_duplicates_spec lists) as [Hsorted Hmem].
    - apply Forall_forall. intros l (x & nodex & Hx & Hnx & [->| ->])%Hlists.
      + repeat constructor.
      + apply StronglySorted_lt_le.
        assert (0 ≤ x < N) as Hxb by (by apply Hbound1, path_edge).
        destruct (proj2 (bf_keys _ _ Hb x)) as [node0 Hn0]; [lia|].
        destruct (Hold _ _ Hn0) as (node0' & Hn0' & _ & Hp0 & _).
        subst d1. simpl in Hnx. rewrite Hn0' in Hnx. injection Hnx as <-.
        rewrite Hp0. apply (bf_cache _ _ Hb _ _ Hn0).
    - split; [done|]. intros m. fold preds' in Hmem. rewrite Hmem, Hpaths1. split.
      + intros (l & (x & nodex & Hx & Hnx & Hl)%Hlists & Hm).
        assert (0 ≤ x < N) as Hxb by (by apply Hbound1, path_edge).
        exists x. split.
        { rewrite HE1 in Hx. apply elem_of_top_edges in Hx as [Hx|[_ Hx]]; [|done].
          apply (bf_edges _ _ Hb) in Hx. lia. }
        destruct Hl as [->| ->]; [left; by apply list_elem_of_singleton in Hm|right].
        destruct (proj2 (bf_keys _ _ Hb x)) as [node0 Hn0]; [lia|].
        destruct (Hold _ _ Hn0) as (node0' & Hn0' & _ & Hp0 & _).
        subst d1. simpl in Hnx. rewrite Hn0' in Hnx. injection Hnx as <-.
        rewrite Hp0 in Hm. by apply (bf_cache _ _ Hb _ _ Hn0).
      + intros (x & Hx & Hm).
        assert (0 ≤ x < N) as Hxb by (apply Hdirect1 in Hx; lia).
        destruct (proj2 (bf_keys _ _ Hb x)) as [node0 Hn0]; [lia|].
        destruct (Hold _ _ Hn0) as (node0' & Hn0' & _ & Hp0 & _).
        assert ((x, N) ∈ DAG.edges d1) as Hedge.
        { rewrite HE1. apply elem_of_top_edges. by right. }
        destruct Hm as [->|Hm].
        * exists [x]. split; [|by apply list_elem_of_singleton].
          apply Hlists. exists x, node0'. split_and!; [done|done|by left].
        * exists (Node.predecessors node0'). split.
          -- apply Hlists. exists x, node0'. split_and!; [done|done|by right].
          -- rewrite Hp0. by apply (bf_cache _ _ Hb _ _ Hn0). }
  destruct (for_each_update (Node.set_reachable false) (Node.predecessors top') d3)
    as (nodes4 & E4 & Hsize4 & Hlook4); [done| |].
  { intros k Hk. apply Hcache', Hbound1 in Hk.
    subst d3. simpl. apply lookup_insert_is_Some'. right. apply Hkeys. lia. }
  rewrite E4. eexists. split; [done|].
  assert (N ∉ preds') as HN.
  { intros HNin%Hcache'%Hbound1. lia. }
  constructor; simpl.
  - rewrite Hsize4. subst d3. simpl. rewrite map_size_insert_Some; done.
  - done.
  - intros k. rewrite Hlook4, fmap_is_Some. subst d3. simpl.
    rewrite lookup_insert_is_Some', Hkeys. fold N. lia.
  - exists top'. fold N. split_and!.
    + rewrite Hlook4, Htop3. simpl. by rewrite bool_decide_eq_false_2.
    + done.
    + done.
    + intros k node0 Hn0.
      destruct (Hold _ _ Hn0) as (node0' & Hn0' & Hop0 & Hp0 & Hr0).
      assert (k ≠ N) as Hk.
      { pose proof (proj1 (bf_keys _ _ Hb k) ltac:(eauto)). fold N in H0. lia. }
      rewrite Hlook4. subst d3. simpl. rewrite lookup_insert_ne by done.
      rewrite Hn0'. simpl. eexists. split; [done|].
      destruct (bool_decide (k ∈ preds')) eqn:Hkin; simpl; [done|].
      split_and!; [done..|]. rewrite Hr0. f_equal. apply negb_true_iff.
      apply bool_decide_eq_false_2. intros Hk0.
      apply bool_decide_eq_false in Hkin. apply Hkin, Hcache'.
      apply Hcache in Hk0. eapply path_mono; [|done].
      intros e He. subst d1. simpl. apply elem_of_app. by left.
  - exists (direct ++ [j - 1]). fold N. split; [exact HE1|]. apply Hdirect1.
  - fold N. change (DAG.edges d ++ [(j - 1, N)]) with (DAG.edges d1).
    intros p Hp Hf. destruct (decide (p = j - 1)) as [->|].
    + apply path_edge. rewrite HE1. apply elem_of_top_edges. right.
      split; [done|]. apply elem_of_app. right. by apply list_elem_of_singleton.
    + eapply path_mono; [|apply Hdone; [lia|done]].
      intros e He. subst d1. simpl. apply elem_of_app. by left.
Qed.

(** One round of the scan adds at most the edge from the node it looks
    at, and only when that node is still reachable and its operation fails
    to commute with the new one. *)
Lemma scan_edges max_node_id max_node prev_node_id d :
  DAG.edges (scan max_node_id max_node prev_node_id d).1 = DAG.edges d
  ∨ (DAG.edges (scan max_node_id max_node prev_node_id d).1
       = DAG.edges d ++ [(prev_node_id, max_node_id)]
     ∧ ∃ node, DAG.nodes d !! prev_node_id = Some node
         ∧ Node.reachable node = Some true
         ∧ is_commuting (Node.op node) max_node = Ok false).
Proof.
  unfold scan.
  destruct (DAG.nodes d !! prev_node_id) as [node|] eqn:Hnode.
  2: { left. unfold mbind, M_bind, bind, reading, get_node. by rewrite Hnode. }
  rewrite (reading_Ok _ _ _ _ (get_node_Some _ _ _ Hnode)).
  destruct (Node.reachable node) as [[|]|] eqn:Hreach; [|by left..].
  destruct (is_commuting (Node.op node) max_node) as [[|]|e] eqn:Hc.
  - left. by rewrite (reading_Ok (λ _, Ok true) _ d true eq_refl).
  - right. split; [|eauto].
    rewrite (reading_Ok (λ _, Ok false) _ d false eq_refl).
    unfold add_edge. rewrite writing_Ok.
    set (rest := _pred_update max_node_id ≫= _).
    change (DAG.edges (after rest
              (DAG.set_edges (DAG.edges d ++ [(prev_node_id, max_node_id)]) d))
            = DAG.edges d ++ [(prev_node_id, max_node_id)]).
    assert (keeps (λ x, DAG.edges x = DAG.edges d ++ [(prev_node_id, max_node_id)]) rest)
      as Hk; [|by apply Hk].
    subst rest. apply (keeps_bind _ (_pred_update max_node_id)).
    + unfold _pred_update.
      repeat first
        [ by apply keeps_update_node
        | apply keeps_reading
        | apply keeps_bind; [|intros ?] ].
    + intros _. apply (keeps_bind _ (reading (get_node max_node_id))); [apply keeps_reading|].
      intros node'. apply keeps_for_each. intros i _. by apply keeps_update_node.
  - by left.
Qed.

(** The direct predecessors found stay pairwise unordered. *)
Lemma scan_step_pruned operations operation dag j d :
  built_from operations dag →
  0 < j ≤ Z.of_nat (length operations) →
  scanning operations operation dag j d →
  pruned operations operation dag j d →
  pruned operations operation dag (j - 1)
    (scan (Z.of_nat (length operations)) operation (j - 1) d).1.
Proof.
  intros Hb Hj Hsc (direct & HE & Hsorted & Hfails & Hanti).
  set (N := Z.of_nat (length operations)) in *.
  destruct (scan_edges N operation (j - 1) d)
    as [Hsame | (Hadd & node & Hnode & Hreach & Hcomm)].
  - exists direct. rewrite Hsame. split_and!; [done..| |done].
    intros p Hp. destruct (Hfails p Hp). split; [lia|done].
  - assert (is_Some (DAG.nodes dag !! (j - 1))) as [node0 Hnode0].
    { apply (bf_keys _ _ Hb). lia. }
    destruct (sc_nodes _ _ _ _ _ Hsc) as (top & Htop & _ & Hcache & Hold).
    destruct (Hold _ _ Hnode0) as (node' & Hnode' & Hop' & _ & Hreach').
    fold N in Htop, Hcache. rewrite Hnode in Hnode'. injection Hnode' as <-.
    rewrite Hreach in Hreach'. injection Hreach' as Hreach'.
    symmetry in Hreach'. apply negb_true_iff, bool_decide_eq_false in Hreach'.
    assert (∀ y, y ∈ direct → ¬ path (DAG.edges dag) (j - 1) y) as Hnew.
    { intros y Hy Hp. apply Hreach', Hcache. rewrite HE.
      apply scanning_path_top; [done| |eauto].
      intros p Hp'. apply Hfails in Hp'. lia. }
    assert (∀ x y, path (DAG.edges dag) x y → x < y) as Hup.
    { intros x y Hp. apply (path_bounds _ 0 N) in Hp; [lia|]. apply (bf_edges _ _ Hb). }
    exists (direct ++ [j - 1]). split_and!.
    + by rewrite Hadd, HE, fmap_app, app_assoc.
    + apply StronglySorted_app_2; [|done|repeat constructor].
      intros x y Hx ->%list_elem_of_singleton. apply Hfails in Hx. lia.
    + intros p [Hp| ->%list_elem_of_singleton]%elem_of_app.
      * destruct (Hfails p Hp). split; [lia|done].
      * split; [lia|].
        rewrite (fails_to_commute_top _ _ _ (Node.op node)); [by rewrite Hcomm| |lia].
        rewrite Hop'. by apply (bf_ops _ _ Hb).
    + intros x y [Hx| ->%list_elem_of_singleton]%elem_of_app
        [Hy| ->%list_elem_of_singleton]%elem_of_app.
      * by apply Hanti.
      * intros Hp%Hup. apply Hfails in Hx. lia.
      * by apply Hnew.
      * intros Hp%Hup. lia.
Qed.
End Scan.

(** ** Adding a node *)

Section Build.
Context `{Numeric}.
Implicit Types (dag d : CommutationDAG) (node top : CommutationDAGNode).
Implicit Types (operations : list Operation) (operation : Operation).

Lemma range_down_S (n : nat) :
  range_down 0 (Z.of_nat (S n)) = Z.of_nat n :: range_down 0 (Z.of_nat n).
Proof.
  unfold range_down, range. rewrite !Z.sub_0_r, seqZ_S, reverse_snoc. done.
Qed.

(** The second loop of [_update_edges] from node [n] downwards: it runs to
    the end, or it stops in the round in which the oracle raises. *)
Lemma scan_loop operations operation dag (n : nat) d :
  built_from operations dag →
  (n ≤ length operations)%nat →
  scanning operations operation dag (Z.of_nat n) d →
  pruned operations operation dag (Z.of_nat n) d →
  ∃ d' r j,
    for_each (scan (Z.of_nat (length operations)) operation)
      (range_down 0 (Z.of_nat n)) d = (d', r)
    ∧ 0 ≤ j ≤ Z.of_nat n
    ∧ scanning operations operation dag j d'
    ∧ pruned operations operation dag j d'
    ∧ match r with
      | Ok _ => j = 0
      | Raise e => ∃ a, a ∈ operations ∧ is_commuting a operation = Raise e
      end.
Proof.
  intros Hb. revert d. induction n as [|n IH]; intros d Hn Hsc Hpr.
  - exists d, (Ok ()), 0. split_and!; [done|lia|lia|done..].
  - rewrite range_down_S. simpl.
    pose proof (scan_step_pruned operations operation dag (Z.of_nat (S n)) d) as Hpr1.
    destruct (scan_step operations operation dag (Z.of_nat (S n)) d)
      as [(d1 & E1 & Hsc1)|(a & e & Ha & Hc & E1)]; [done|lia|done| |].
    + replace (Z.of_nat (S n) - 1) with (Z.of_nat n) in * by lia.
      rewrite E1 in Hpr1.
      destruct (IH d1) as (d' & r & j & E' & Hj & Hsc' & Hpr' & Hr);
        [lia|done|apply Hpr1; [done|lia|done..]|].
      exists d', r, j. rewrite (bind_Ok _ _ _ _ _ E1). split_and!; [done|lia|lia|done..].
    + replace (Z.of_nat (S n) - 1) with (Z.of_nat n) in * by lia.
      exists d, (Raise e), (Z.of_nat (S n)).
      rewrite (bind_Raise _ _ _ _ _ E1). split_and!; [done|lia|lia|done|done|eauto].
Qed.

Lemma new_node_op operation : Node.op (new_node operation) = operation.
Proof. unfold new_node. by destruct (controlled_truthy operation). Qed.

Lemma new_node_predecessors operation : Node.predecessors (new_node operation) = [].
Proof. unfold new_node. by destruct (controlled_truthy operation). Qed.

Lemma elem_of_brute_force_edges operations p q :
  (p, q) ∈ brute_force_edges operations ↔
  0 ≤ p < q ∧ q < Z.of_nat (length operations) ∧ fails_to_commute operations p q = true.
Proof.
  unfold brute_force_edges. rewrite list_elem_of_filter. simpl.
  rewrite list_elem_of_bind. split.
  - intros [[Hlt Hf] (i & Hin & Hi)]. apply list_elem_of_bind in Hin as (j & Hin & Hj).
    apply list_elem_of_singleton in Hin as [= -> ->].
    apply elem_of_range in Hi, Hj. simpl in *. split_and!; [lia|lia|lia|done].
  - intros (Hp & Hq & Hf). split; [simpl; split; [lia|done]|]. exists p. split.
    + apply list_elem_of_bind. exists q. split; [by apply list_elem_of_singleton|].
      apply elem_of_range. lia.
    + apply elem_of_range. lia.
Qed.

Lemma elem_of_brute_force_edges_snoc operations operation p q :
  (p, q) ∈ brute_force_edges (operations ++ [operation]) ↔
  (p, q) ∈ brute_force_edges operations
  ∨ (q = Z.of_nat (length operations)
     ∧ (0 ≤ p < Z.of_nat (length operations)
        ∧ fails_to_commute (operations ++ [operation]) p (Z.of_nat (length operations)) = true)).
Proof.
  rewrite !elem_of_brute_force_edges, length_app. simpl.
  destruct (decide (q = Z.of_nat (length operations))) as [->|Hq].
  - split; [intros (? & ? & ?); right; repeat split; try lia; done|].
    intros [(? & ? & ?)|(_ & ? & ?)]; [lia|]. repeat split; try lia; done.
  - split.
    + intros (? & ? & Hf). left. rewrite fails_to_commute_below in Hf by lia.
      repeat split; try lia; done.
    + intros [(? & ? & Hf)|[? _]]; [|done].
      rewrite fails_to_commute_below by lia. repeat split; try lia; done.
Qed.

Lemma scanning_finish operations operation dag d :
  built_from operations dag →
  scanning operations operation dag 0 d →
  built_from (operations ++ [operation]) d.
Proof.
  intros Hb [Hsize Hid Hkeys (top & Htop & Hop & Hcache & Hold) (direct & HE & Hdirect) Hdone].
  set (N := Z.of_nat (length operations)) in *.
  assert (Z.of_nat (length (operations ++ [operation])) = N + 1) as Hlen.
  { rewrite length_app. simpl. lia. }
  assert (∀ p q, (p, q) ∈ DAG.edges d ↔ (p, q) ∈ DAG.edges dag ∨ (q = N ∧ p ∈ direct)) as Hmem.
  { intros p q. rewrite HE. apply elem_of_top_edges. }
  assert (∀ m k, k ≠ N → path (DAG.edges d) m k ↔ path (DAG.edges dag) m k) as Hbelow.
  { intros m k Hk. rewrite HE. by apply scanning_path_below. }
  assert (∀ k node', DAG.nodes d !! k = Some node' → k ≠ N →
            ∃ node, DAG.nodes dag !! k = Some node ∧ Node.op node' = Node.op node
                    ∧ Node.predecessors node' = Node.predecessors node) as Hback.
  { intros k node' Hn Hk.
    destruct (proj2 (bf_keys _ _ Hb k)) as [node Hnode].
    { pose proof (proj1 (Hkeys k) ltac:(eauto)). fold N. lia. }
    destruct (Hold _ _ Hnode) as (node'' & Hn'' & ? & ? & _).
    rewrite Hn in Hn''. injection Hn'' as <-. eauto. }
  constructor.
  - rewrite Hsize, length_app. simpl. lia.
  - intros k. rewrite Hkeys, Hlen. fold N. lia.
  - rewrite Hid, Hlen. lia.
  - intros k node' Hn. destruct (decide (k = N)) as [->|Hk].
    + rewrite Htop in Hn. injection Hn as <-. rewrite Hop.
      subst N. rewrite Nat2Z.id. apply list_lookup_middle. done.
    + destruct (Hback _ _ Hn Hk) as (node & Hnode & -> & _).
      apply lookup_app_l_Some. by apply (bf_ops _ _ Hb).
  - intros p q [Hin|[-> Hp]]%Hmem; rewrite Hlen.
    + apply (bf_edges _ _ Hb) in Hin. fold N in Hin. lia.
    + apply Hdirect in Hp. lia.
  - intros k node' Hn. destruct (decide (k = N)) as [->|Hk].
    + rewrite Htop in Hn. by injection Hn as <-.
    + destruct (Hback _ _ Hn Hk) as (node & Hnode & _ & ->).
      destruct (bf_cache _ _ Hb _ _ Hnode) as [Hsorted Hm].
      split; [done|]. intros m. rewrite Hm. symmetry. by apply Hbelow.
  - intros m k. subst N.
    assert (∀ p q, (p, q) ∈ brute_force_edges operations → p < q < (Z.of_nat (length operations))) as Hbf0.
    { intros p q Hin%elem_of_brute_force_edges.  lia. }
    destruct (decide (k = (Z.of_nat (length operations)))) as [->|Hk].
    + rewrite HE, (scanning_path_top _ _ _ _ Hb) by (intros p Hp%Hdirect; lia).
      rewrite (path_top (brute_force_edges operations) _ (Z.of_nat (length operations))
                 (λ p, 0 ≤ p < (Z.of_nat (length operations)) ∧ fails_to_commute (operations ++ [operation]) p (Z.of_nat (length operations)) = true));
        [|done|apply elem_of_brute_force_edges_snoc|lia].
      split.
      * intros (x & Hx & Hm). exists x. split.
        { apply Hdirect in Hx. split; [lia|tauto]. }
        destruct Hm as [->|Hm]; [by left|right]. by apply (bf_paths _ _ Hb).
      * intros (x & [Hx Hf] & Hm).
        assert (path (DAG.edges d) x (Z.of_nat (length operations))) as Hxp by (apply Hdone; [lia|done]).
        rewrite HE in Hxp.
        apply (scanning_path_top _ _ _ _ Hb) in Hxp as (y & Hy & Hxy);
          [|intros p Hp%Hdirect; lia].
        exists y. split; [done|].
        destruct Hm as [->|Hm]; [done|]. apply (bf_paths _ _ Hb) in Hm.
        right. destruct Hxy as [<-|Hxy]; [done|]. by eapply path_trans.
    + rewrite (Hbelow _ _ Hk), (bf_paths _ _ Hb). symmetry.
      apply (path_below _ _ (Z.of_nat (length operations))); [done| | |done].
      * intros p q Hin%elem_of_brute_force_edges_snoc. tauto.
      * intros [p q] Hin. apply elem_of_brute_force_edges_snoc. by left.
Qed.

(** Where [add_node] stands when the second loop of [_update_edges]
    starts. *)
Lemma add_node_start operations operation dag :
  built_from operations dag →
  ∃ d,
    add_node operation dag =
      for_each (scan (Z.of_nat (length operations)) operation)
        (range_down 0 (Z.of_nat (length operations))) d
    ∧ scanning operations operation dag (Z.of_nat (length operations)) d
    ∧ DAG.edges d = DAG.edges dag.
Proof.
  intros Hb.
  set (N := Z.of_nat (length operations)).
  assert (DAG.nodes dag !! N = None) as Hfresh.
  { apply eq_None_not_Some. intros Hs%(bf_keys _ _ Hb). subst N. lia. }
  unfold add_node, _add_node. rewrite writing_Ok.
  rewrite (bf_node_id _ _ Hb). replace (Z.of_nat (length operations) - 1 + 1) with N by lia.
  set (top := Node.set_node_id N (new_node operation)).
  set (d1 := DAG.set_nodes _ _).
  assert (DAG.nodes d1 !! N = Some top) as Htop1 by apply lookup_insert_eq.
  assert (size (DAG.nodes d1) = S (length operations)) as Hsize1.
  { subst d1. simpl. rewrite map_size_insert_None by done. by rewrite (bf_size _ _ Hb). }
  unfold _update_edges.
  rewrite (reading_Ok (λ dag, Ok (Z.of_nat (size (DAG.nodes dag)) - 1)) _ d1 N)
    by (rewrite Hsize1; f_equal; lia).
  rewrite (reading_Ok _ _ _ _ (get_node_Some _ _ _ Htop1)).
  destruct (for_each_update (Node.set_reachable true) (range 0 N) d1)
    as (nodes2 & E2 & Hsize2 & Hlook2); [done| |].
  { intros k Hk%elem_of_range. subst d1. simpl. apply lookup_insert_is_Some'. right.
    apply (bf_keys _ _ Hb). done. }
  rewrite (bind_Ok _ _ _ _ _ E2).
  assert (Node.op top = operation) as Hop by apply new_node_op.
  rewrite Hop.
  exists (DAG.set_nodes nodes2 d1). split; [done|]. split; [|done].
  constructor; simpl.
  - by rewrite Hsize2.
  - done.
  - intros k. rewrite Hlook2, fmap_is_Some. subst d1. simpl.
    rewrite lookup_insert_is_Some', (bf_keys _ _ Hb). fold N. lia.
  - exists top. fold N. split_and!.
    + rewrite Hlook2, Htop1. simpl. rewrite bool_decide_eq_false_2; [done|].
      intros Hin%elem_of_range. lia.
    + done.
    + subst top. simpl. rewrite new_node_predecessors. split; [constructor|].
      intros m. split; [by intros ?%elem_of_nil|].
      intros Hp. apply (path_bounds _ 0 N) in Hp; [lia|]. apply (bf_edges _ _ Hb).
    + intros k node Hnode.
      assert (0 ≤ k < N) as Hk by (apply (bf_keys _ _ Hb); eauto).
      rewrite Hlook2. subst d1. simpl. rewrite lookup_insert_ne by lia.
      rewrite Hnode. simpl. rewrite bool_decide_eq_true_2 by (apply elem_of_range; lia).
      eexists. split; [done|]. subst top. simpl. rewrite new_node_predecessors.
      split_and!; [done..|]. by rewrite bool_decide_eq_false_2 by apply not_elem_of_nil.
  - exists []. split; [by rewrite app_nil_r|]. by intros p ?%elem_of_nil.
  - intros p Hp. lia.
Qed.

Lemma tidy_step operations operation dag j d :
  built_from operations dag →
  tidy operations dag →
  0 ≤ j →
  pruned operations operation dag j d →
  tidy (operations ++ [operation]) d.
Proof.
  intros Hb Ht Hj (direct & HE & Hsorted & Hfails & Hanti).
  set (N := Z.of_nat (length operations)) in *.
  assert (∀ p, p ∈ direct → p < N) as Hlt.
  { intros p Hp%Hfails. lia. }
  constructor.
  - intros p q. rewrite HE, elem_of_top_edges, elem_of_brute_force_edges_snoc.
    intros [Hin|[-> Hin]]; [left; by apply (td_noncommuting _ _ Ht)|right].
    split; [done|]. apply Hfails in Hin. split; [lia|]. tauto.
  - rewrite HE. apply NoDup_app. split_and!.
    + apply (td_NoDup _ _ Ht).
    + intros [p q] Hin (x & [= -> ->] & Hx)%list_elem_of_fmap.
      apply (bf_edges _ _ Hb) in Hin. lia.
    + apply NoDup_fmap_2; [by intros x y [=]|].
      clear -Hsorted. induction Hsorted as [|x l Hl IH Hx]; constructor; [|done].
      intros Hin. rewrite Forall_forall in Hx. specialize (Hx _ Hin). lia.
  - intros p q. rewrite HE. intros Hin (k & Hpk & Hkq).
    apply elem_of_top_edges in Hin as [Hin|[-> Hin]].
    + assert (q ≠ N) as Hq by (apply (bf_edges _ _ Hb) in Hin; lia).
      apply scanning_path_below in Hkq; [|done..].
      assert (k ≠ N) as Hk.
      { apply (path_bounds _ 0 N) in Hkq; [lia|]. apply (bf_edges _ _ Hb). }
      apply scanning_path_below in Hpk; [|done..].
      apply (td_no_shortcut _ _ Ht p q Hin). eauto.
    + apply scanning_path_top in Hkq as (y & Hy & Hky); [|done..].
      assert (k ≠ N) as Hk.
      { destruct Hky as [->|Hky]; [apply Hlt in Hy; lia|].
        apply (path_bounds _ 0 N) in Hky; [lia|]. apply (bf_edges _ _ Hb). }
      apply scanning_path_below in Hpk; [|done..].
      apply (Hanti p y Hin Hy).
      destruct Hky as [->|Hky]; [done|]. by eapply path_trans.
Qed.

(** A DAG on which the scan for a new operation has stopped, wherever it
    did. *)
Lemma scanning_grown operations operation dag j d :
  built_from operations dag →
  tidy operations dag →
  0 ≤ j →
  scanning operations operation dag j d →
  pruned operations operation dag j d →
  grown_from (operations ++ [operation]) d.
Proof.
  intros Hb Ht Hj Hsc Hpr. pose proof (tidy_step _ _ _ _ _ Hb Ht Hj Hpr) as Ht'.
  destruct Hsc
    as [Hsize Hid Hkeys (top & Htop & Hop & Hcache & Hold) (direct & HE & Hdirect) Hdone].
  set (N := Z.of_nat (length operations)) in *.
  assert (Z.of_nat (length (operations ++ [operation])) = N + 1) as Hlen.
  { rewrite length_app. simpl. lia. }
  assert (∀ k node', DAG.nodes d !! k = Some node' → k ≠ N →
            ∃ node, DAG.nodes dag !! k = Some node ∧ Node.op node' = Node.op node
                    ∧ Node.predecessors node' = Node.predecessors node) as Hback.
  { intros k node' Hn Hk.
    destruct (proj2 (bf_keys _ _ Hb k)) as [node Hnode].
    { pose proof (proj1 (Hkeys k) ltac:(eauto)). fold N. lia. }
    destruct (Hold _ _ Hnode) as (node'' & Hn'' & ? & ? & _).
    rewrite Hn in Hn''. injection Hn'' as <-. eauto. }
  constructor; [| | | | | |done].
  - rewrite Hsize, length_app. simpl. lia.
  - intros k. rewrite Hkeys, Hlen. fold N. lia.
  - rewrite Hid, Hlen. lia.
  - intros k node' Hn. destruct (decide (k = N)) as [->|Hk].
    + rewrite Htop in Hn. injection Hn as <-. rewrite Hop.
      subst N. rewrite Nat2Z.id. apply list_lookup_middle. done.
    + destruct (Hback _ _ Hn Hk) as (node & Hnode & -> & _).
      apply lookup_app_l_Some. by apply (bf_ops _ _ Hb).
  - intros p q. rewrite HE, elem_of_top_edges, Hlen. intros [Hin|[-> Hp]].
    + apply (bf_edges _ _ Hb) in Hin. fold N in Hin. lia.
    + apply Hdirect in Hp. lia.
  - intros k node' Hn. destruct (decide (k = N)) as [->|Hk].
    + rewrite Htop in Hn. by injection Hn as <-.
    + destruct (Hback _ _ Hn Hk) as (node & Hnode & _ & ->).
      destruct (bf_cache _ _ Hb _ _ Hnode) as [Hsorted Hm].
      split; [done|]. intros m. rewrite Hm, HE. symmetry. by apply scanning_path_below.
Qed.

Lemma built_grown operations dag :
  built_from operations dag → tidy operations dag → grown_from operations dag.
Proof. intros [] Ht. by constructor. Qed.

(** What [add_node] leaves of a DAG built from [operations]: the state of
    the scan at the node [j] where it stopped, which is node 0 when
    [add_node] returns. *)
Lemma add_node_outcome operations operation dag :
  built_from operations dag →
  ∃ d r j,
    add_node operation dag = (d, r)
    ∧ 0 ≤ j ≤ Z.of_nat (length operations)
    ∧ scanning operations operation dag j d
    ∧ pruned operations operation dag j d
    ∧ match r with
      | Ok _ => j = 0
      | Raise e => ∃ a, a ∈ operations ∧ is_commuting a operation = Raise e
      end.
Proof.
  intros Hb.
  destruct (add_node_start operations operation dag Hb) as (d0 & Estart & Hsc & HE).
  rewrite Estart.
  apply (scan_loop operations operation dag (length operations) d0); [done|lia|done|].
  exists []. rewrite HE, app_nil_r. split_and!; [done|constructor| |].
  - by intros p ?%elem_of_nil.
  - by intros x y ?%elem_of_nil.
Qed.

Lemma add_node_step operations operation dag dag' :
  built_from operations dag →
  tidy operations dag →
  add_node operation dag = (dag', Ok ()) →
  built_from (operations ++ [operation]) dag' ∧ tidy (operations ++ [operation]) dag'.
Proof.
  intros Hb Ht E.
  destruct (add_node_outcome operations operation dag Hb)
    as (d & r & j & E' & Hj & Hsc & Hpr & Hr).
  rewrite E in E'. injection E' as <- <-. subst j. split.
  - by eapply scanning_finish.
  - by eapply tidy_step.
Qed.


Lemma add_nodes_app operations1 operations2 dag :
  add_nodes (operations1 ++ operations2) dag =
  (add_nodes operations1 ≫= λ _, add_nodes operations2) dag.
Proof.
  revert dag. induction operations1 as [|operation operations1 IH]; intros dag; simpl.
  - done.
  - unfold mbind, M_bind, bind.
    destruct (add_node operation dag) as [dag' [[]|e]]; [|done].
    apply IH.
Qed.

Lemma built_from_init wires observables : built_from [] (__init__ wires observables).
Proof.
  constructor; simpl; try done.
  - intros k. rewrite lookup_empty. split; [by intros [? ?]|lia].
  - by intros p q ?%elem_of_nil.
Qed.

Lemma tidy_init wires observables : tidy [] (__init__ wires observables).
Proof.
  constructor; simpl.
  - by intros p q ?%elem_of_nil.
  - constructor.
  - by intros p q ?%elem_of_nil.
Qed.

(** Where a run of [add_node] over a list of operations ends: when it
    returns every operation is in the DAG; when it raises, those up to the
    one whose scan the oracle interrupted are, and two of them made the
    oracle raise. *)
Lemma add_nodes_outcome rest : ∀ operations dag,
  built_from operations dag →
  tidy operations dag →
  ∃ d r added,
    add_nodes rest dag = (d, r)
    ∧ added `prefix_of` rest
    ∧ grown_from (operations ++ added) d
    ∧ match r with
      | Ok _ => added = rest ∧ built_from (operations ++ rest) d
      | Raise e =>
          ∃ a b, a ∈ operations ++ rest ∧ b ∈ rest ∧ is_commuting a b = Raise e
      end.
Proof.
  induction rest as [|operation rest IH]; intros operations dag Hb Ht.
  - exists dag, (Ok ()), []. rewrite app_nil_r. split_and!; [done|done|by apply built_grown|done|done].
  - destruct (add_node_outcome operations operation dag Hb)
      as (d1 & r1 & j & E1 & Hj & Hsc & Hpr & Hr).
    simpl. destruct r1 as [[]|e].
    + subst j. rewrite (bind_Ok _ _ _ _ _ E1).
      destruct (add_node_step operations operation dag d1 Hb Ht E1) as [Hb1 Ht1].
      destruct (IH _ _ Hb1 Ht1) as (d & r & added & E & Hpre & Hg & Hr).
      rewrite <- !app_assoc in *. simpl in *.
      exists d, r, (operation :: added). split_and!; [done|by apply prefix_cons|done|].
      destruct r as [[]|e].
      * destruct Hr as [-> ?]. done.
      * destruct Hr as (a & b & Ha & Hb' & Hc). exists a, b. split_and!; [done| |done].
        by right.
    + rewrite (bind_Raise _ _ _ _ _ E1).
      exists d1, (Raise e), [operation]. split_and!.
      * done.
      * apply prefix_cons, prefix_nil.
      * apply (scanning_grown operations operation dag j d1); [done|done|lia|done|done].
      * destruct Hr as (a & Ha & Hc). exists a, operation. split_and!; [|by left|done].
        apply elem_of_app. by left.
Qed.

(** When [add_node] has returned on every operation, the DAG is in a state
    described by [built_from]. *)
Lemma add_nodes_built wires observables operations :
  (add_nodes operations (__init__ wires observables)).2 = Ok () →
  ∃ dag, add_nodes operations (__init__ wires observables) = (dag, Ok ())
         ∧ built_from operations dag ∧ tidy operations dag.
Proof.
  intros Hok.
  destruct (add_nodes_outcome operations [] (__init__ wires observables))
    as (d & r & added & E & Hpre & Hg & Hr); [apply built_from_init|apply tidy_init|].
  rewrite E in Hok. simpl in Hok, Hr, Hg. subst r. destruct Hr as [-> Hb].
  exists d. split_and!; [done..|]. apply (gf_tidy _ _ Hg).
Qed.

(** Whatever the outcome, the DAG has grown from the operations that got a
    node. *)
Lemma add_nodes_grown wires observables operations :
  ∃ added, added `prefix_of` operations
           ∧ grown_from added (after (add_nodes operations) (__init__ wires observables)).
Proof.
  destruct (add_nodes_outcome operations [] (__init__ wires observables))
    as (d & r & added & E & Hpre & Hg & Hr); [apply built_from_init|apply tidy_init|].
  exists added. unfold after. rewrite E. done.
Qed.

(** On supported operations on which the zero tests are defined [add_node]
    never raises. *)
Lemma add_nodes_total wires observables operations :
  Forall (λ o, supported o = true ∧ tests_defined o = true) operations →
  (add_nodes operations (__init__ wires observables)).2 = Ok ().
Proof.
  intros Hs.
  destruct (add_nodes_outcome operations [] (__init__ wires observables))
    as (d & r & added & E & Hpre & Hg & Hr); [apply built_from_init|apply tidy_init|].
  rewrite E. simpl. destruct r as [[]|e]; [done|].
  destruct Hr as (a & b & Ha & Hb & Hc). simpl in Ha.
  rewrite Forall_forall in Hs. destruct (Hs a Ha) as [Sa Ta], (Hs b Hb) as [Sb Tb].
  destruct (is_commuting_total a b) as [c Hc']; [done..|]. congruence.
Qed.
End Build.
(** ** The incremental DAG and the brute-force DAG *)

Section Refinement.
Context `{Numeric}.
Implicit Types (dag d : CommutationDAG) (node top : CommutationDAGNode).
Implicit Types (operations : list Operation) (operation : Operation).

Lemma nodes_only_spec operations dag (n : nat) :
  size (DAG.nodes dag) = n →
  DAG.node_id dag = Z.of_nat n - 1 →
  (∀ k, is_Some (DAG.nodes dag !! k) ↔ 0 ≤ k < Z.of_nat n) →
  let d := after (foldr (λ operation rest, _add_node (new_node operation) ;; rest)
                    (pure ()) operations) dag in
  size (DAG.nodes d) = (n + length operations)%nat
  ∧ ∀ k, is_Some (DAG.nodes d !! k) ↔ 0 ≤ k < Z.of_nat (n + length operations).
Proof.
  revert dag n. induction operations as [|operation operations IH]; intros dag n Hs Hid Hk; simpl.
  - unfold after. simpl. rewrite Nat.add_0_r. done.
  - unfold after, _add_node. rewrite writing_Ok. rewrite Hid.
    replace (Z.of_nat n - 1 + 1) with (Z.of_nat n) by lia.
    assert (DAG.nodes dag !! Z.of_nat n = None) as Hfresh.
    { apply eq_None_not_Some. intros Hs'%Hk. lia. }
    match goal with |- context [foldr ?f ?a operations ?d0] =>
      specialize (IH d0 (S n)) end.
    replace (n + S (length operations))%nat with (S n + length operations)%nat by lia.
    apply IH; simpl.
    + rewrite map_size_insert_None by done. by rewrite Hs.
    + lia.
    + intros k. rewrite lookup_insert_is_Some', Hk. lia.
Qed.

Lemma brute_force_nodes wires observables operations :
  let d := brute_force wires observables operations in
  size (DAG.nodes d) = length operations
  ∧ (∀ k, is_Some (DAG.nodes d !! k) ↔ 0 ≤ k < Z.of_nat (length operations))
  ∧ DAG.edges d = brute_force_edges operations.
Proof.
  unfold brute_force. simpl.
  destruct (nodes_only_spec operations (__init__ wires observables) 0) as [Hs Hk];
    [done|done| |].
  { intros k. simpl. rewrite lookup_empty. split; [by intros [? ?]|lia]. }
  split_and!; done.
Qed.

Lemma same_keys (m1 m2 : gmap Z CommutationDAGNode) :
  (∀ k, is_Some (m1 !! k) ↔ is_Some (m2 !! k)) → dom m1 = dom m2.
Proof.
  intros Hk. apply leibniz_equiv, set_equiv. intros k. by rewrite !elem_of_dom.
Qed.

(** C1: for supported operations added in order, when every [add_node]
    has returned, [predecessors] gives for every node id the same answer on
    the DAG built edge by edge, with pruning by the [reachable] flags, as on
    the DAG with one edge for every pair [i < j] that does not commute. *)
Theorem incremental_matches_brute_force wires observables operations :
  Forall (λ o, supported o = true) operations →
  (add_nodes operations (__init__ wires observables)).2 = Ok () →
  ∀ node_id,
    predecessors node_id (after (add_nodes operations) (__init__ wires observables))
    = predecessors node_id (brute_force wires observables operations).
Proof.
  intros _ Hok.
  destruct (add_nodes_built wires observables operations Hok) as (dag & E & Hb & _).
  unfold after. rewrite E. simpl. intros node_id.
  destruct (brute_force_nodes wires observables operations) as (Hsize & Hkeys & Hedges).
  generalize dependent (brute_force wires observables operations). intros bf Hsize Hkeys Hedges.
  assert (dom (DAG.nodes dag) = dom (DAG.nodes bf)) as Hdom.
  { apply same_keys. intros k. by rewrite Hkeys, (bf_keys _ _ Hb). }
  unfold predecessors, ancestors.
  destruct (DAG.nodes dag !! node_id) as [node|] eqn:Hn.
  - assert (0 ≤ node_id < Z.of_nat (length operations)) as Hid
      by (apply (bf_keys _ _ Hb); eauto).
    destruct (proj2 (Hkeys node_id) Hid) as [node' ->]. simpl.
    rewrite Hdom, Hsize, (bf_size _ _ Hb), Hedges. do 2 f_equal.
    apply list_filter_iff. intros m.
    rewrite !Is_true_true.
    rewrite (reaches_path (DAG.edges dag)); [|intros p q Hin|lia].
    2: { apply (bf_edges _ _ Hb) in Hin. lia. }
    rewrite (reaches_path (brute_force_edges operations)); [|intros p q Hin|lia].
    2: { apply elem_of_brute_force_edges in Hin. lia. }
    by rewrite (bf_paths _ _ Hb).
  - destruct (DAG.nodes bf !! node_id) as [node'|] eqn:Hn'; [|done].
    assert (is_Some (DAG.nodes dag !! node_id)) as [? ?]; [|congruence].
    apply (bf_keys _ _ Hb), Hkeys. eauto.
Qed.
End Refinement.

Lemma incremental_matches_brute_force_witness :
  predecessors 5 (after (add_nodes example_circuit) (__init__ (on [0; 1; 2]) []))
  = predecessors 5 (brute_force (on [0; 1; 2]) [] example_circuit).
Proof.
  apply (incremental_matches_brute_force (on [0; 1; 2]) [] example_circuit);
    [repeat constructor|vm_compute; reflexivity].
Defined.

Example example_circuit_edges :
  DAG.edges (after (add_nodes example_circuit) (__init__ (on [0; 1; 2]) []))
  = [(0, 1); (2, 3); (2, 4); (4, 5); (1, 5); (3, 6)].
Proof. vm_compute. reflexivity. Qed.

Example example_circuit_predecessors :
  predecessors 5 (after (add_nodes example_circuit) (__init__ (on [0; 1; 2]) []))
  = Ok [0; 1; 2; 4].
Proof. vm_compute. reflexivity. Qed.

(** The brute-force construction keeps the edges that the pruning drops. *)
Example example_circuit_brute_force :
  brute_force_edges example_circuit
  = [(0, 1); (0, 5); (1, 5); (2, 3); (2, 4); (2, 5); (2, 6); (3, 6); (4, 5)]
  ∧ predecessors 5 (brute_force (on [0; 1; 2]) [] example_circuit) = Ok [0; 1; 2; 4].
Proof. split; vm_compute; reflexivity. Qed.

(** ** The relabelling of the wires *)

Section Relabelling.
Context `{Numeric}.









End Relabelling.


(** C10: the relabelling cannot always be undone, and can fail.  An
    observable that two measurements share is relabelled once for each of
    them, the second time through a wire map that is keyed by the old
    labels.  On the wires [1] and [0] the wrapper returns, and the
    observable on wire [1] is relabelled to [0] and then back to [1], which
    read back through the wire universe is the label [0].  On the wires
    ["b"] and ["a"] the second lookup, of the new label [0], raises
    [KeyError], and the observable is left on wire [0]. *)
Theorem shared_observable_relabelled_twice :
  (is_ok (wrapper shared_observable_tape).2 = true
   ∧ NoDup (Tape.operations shared_observable_tape)
   ∧ Tape.observable_objects shared_observable_tape
     = [{| obs_name := "PauliZ"; obs_wires := [IntLabel 1]; obs_tensor := false |}]
   ∧ Tape.observable_objects (wrapper shared_observable_tape).1
     = [{| obs_name := "PauliZ"; obs_wires := [IntLabel 1]; obs_tensor := false |}]
   ∧ original_labels (Tape.wires shared_observable_tape) [IntLabel 1] = Some [IntLabel 0]
   ∧ ¬ objects_left (observable_recoverable (Tape.wires shared_observable_tape))
         (Tape.observables shared_observable_tape)
         (Tape.observable_objects shared_observable_tape)
         (Tape.observable_objects (wrapper shared_observable_tape).1))
  ∧ (wrapper shared_observable_tape_abc).2 = Raise (KeyError (IntLabel 0))
  ∧ Tape.observable_objects (wrapper shared_observable_tape_abc).1
    = [{| obs_name := "PauliZ"; obs_wires := [IntLabel 0]; obs_tensor := false |}].
Proof.
  split_and!; try (vm_compute; reflexivity).
  - apply (bool_decide_unpack (NoDup [0; 1]%nat)). vm_compute. exact I.
  - intros [_ Hl].
    destruct (Hl 0%nat {| obs_name := "PauliZ"; obs_wires := [IntLabel 1];
                          obs_tensor := false |} eq_refl)
      as (o' & Ho' & Hrel).
    vm_compute in Ho'. injection Ho' as <-.
    rewrite bool_decide_eq_true_2 in Hrel by left.
    destruct Hrel as (_ & _ & Hrel). vm_compute in Hrel. discriminate.
Qed.

(** The operations of [tensor_observable_tape] get the positions of their
    wires; the tensor product measured keeps the labels of its factors. *)
Example tensor_observable_kept :
  is_ok (wrapper tensor_observable_tape).2 = true
  ∧ wires <$> Tape.operation_objects (wrapper tensor_observable_tape).1
    = [[IntLabel 0]; [IntLabel 1]]
  ∧ Tape.observable_objects (wrapper tensor_observable_tape).1
    = Tape.observable_objects tensor_observable_tape.
Proof. split_and!; vm_compute; reflexivity. Qed.

Example example_tape_relabelled :
  wires <$> Tape.operation_objects (wrapper example_tape).1
  = [[IntLabel 1]; [IntLabel 0; IntLabel 2]; [IntLabel 2]].
Proof. vm_compute. reflexivity. Qed.

(** ** More on the oracle *)

Section OracleOutcomes.
Context `{Numeric}.

(** What [simplify] can give on one of the four rotations: the operation
    itself, or one of the [simple_names] with at most one parameter. *)
Lemma simplified_outcome (o : Operation) :
  match simplified o with
  | Ok o' =>
      o' = o
      ∨ (str_in (name o) rotations = true
         ∧ str_in (name o') simple_names = true
         ∧ (length (data o') ≤ 1)%nat
         ∧ (wires o' = wires o
            ∨ (name o = "CRot" ∧ wires o' = control_wires o ++ target_wires o)))
  | Raise e => e = IndexError ∨ e = TypeError ∨ e = ValueError
  end.
Proof.
  unfold simplified. destruct (str_in (name o) rotations) eqn:Hr; [|by left].
  destruct o as [n cv ch d w cw tw ic]; simpl in *.
  apply rotations_cases in Hr as [-> | [-> | [-> | ->]]];
    unfold simplify; simpl;
    unfold simplify_u2, simplify_u3, simplify_rotation, simplify_controlled_rotation,
      close_at, sum_close_zero, close, angle_sum, not_; simpl;
    destruct d as [|x [|y [|z d]]]; simpl; try (by left);
    split_tests; try (by left); try (right; by left); try (right; by right);
    right; (split; [reflexivity|]); (split; [reflexivity|]); (split; [simpl; lia|]);
    simpl; try (by left); try (left; apply take_drop); right; done.
Qed.

Lemma simple_names_cases (n : string) :
  str_in n simple_names = true → str_in n rotations = false ∧ truthy n = true.
Proof.
  intros E. apply bool_decide_eq_true in E. unfold simple_names in E.
  rewrite !elem_of_cons, elem_of_nil in E.
  destruct E as [->|[->|[->|[->|[->|[->|[->|[->|[]]]]]]]]]; done.
Qed.

Lemma simplified_truthy (o o' : Operation) :
  truthy (name o) = true → simplified o = Ok o' → truthy (name o') = true.
Proof.
  intros Hn E. pose proof (simplified_outcome o) as Ho. rewrite E in Ho.
  destruct Ho as [->|(_ & Hs & _)]; [done|]. by apply simple_names_cases.
Qed.

(** X1: simplifying an operation that is already simplified changes
    nothing. *)
Theorem simplified_idempotent (o o' : Operation) :
  simplified o = Ok o' → simplified o' = Ok o'.
Proof.
  intros E. pose proof (simplified_outcome o) as Ho. rewrite E in Ho.
  destruct Ho as [->|(_ & Hs & _)]; [done|].
  apply simple_names_cases in Hs as [Hs _]. unfold simplified. by rewrite Hs.
Qed.

(** X2: when the simplification of [U2], [U3], [Rot] or [CRot] gives
    another operation, that operation is an [RX], [RY], [RZ] or [Hadamard],
    or the controlled version of one, with at most one parameter; it acts on
    the wires of the original, which for the controlled [Hadamard] are read
    off the control and target wires. *)
Theorem simplified_shape (o o' : Operation) :
  simplified o = Ok o' → o' ≠ o →
  name o ∈ rotations
  ∧ name o' ∈ simple_names
  ∧ (length (data o') ≤ 1)%nat
  ∧ wires o' = (if bool_decide (name o' = "ControlledOperation")
                then control_wires o ++ target_wires o else wires o).
Proof.
  intros E Hne. pose proof (simplified_outcome o) as Ho. rewrite E in Ho.
  destruct Ho as [->|(Hr & Hs & Hd & Hw)]; [done|].
  split; [by apply bool_decide_eq_true in Hr|].
  split; [by apply bool_decide_eq_true in Hs|].
  split; [done|].
  clear Hd Hne. revert E Hs Hw. unfold simplified. rewrite Hr.
  destruct o as [n cv ch d w cw tw ic]; simpl in *.
  apply rotations_cases in Hr as [-> | [-> | [-> | ->]]];
    unfold simplify; simpl;
    unfold simplify_u2, simplify_u3, simplify_rotation, simplify_controlled_rotation,
      close_at, sum_close_zero, close, angle_sum, not_; simpl;
    destruct d as [|x [|y [|z d]]]; simpl; try discriminate;
    split_tests; try discriminate;
    intros [= <-]; simpl; try done; intros _ _; apply take_drop.
Qed.

(** X3: an operand with a name makes the oracle answer or raise one of
    four exceptions: the error for an unsupported operand, the [IndexError]
    of a rotation with too few parameters, the [TypeError] of [np.mod] on
    parameters that are complex or of different shapes, or the [ValueError]
    of a sum of two angles whose shapes do not fit.  Neither the matrix
    comparison, which would fail on [np.allcllose], nor a table lookup on
    an unknown name is ever reached. *)
Theorem is_commuting_exceptions (a b : Operation) (e : exn) :
  name a ≠ "" →
  is_commuting a b = Raise e →
  e = not_supported_error a ∨ e = not_supported_error b
  ∨ e = IndexError ∨ e = TypeError ∨ e = ValueError.
Proof.
  intros Hn. unfold is_commuting.
  destruct (rejected a); [intros [= <-]; by left|].
  destruct (rejected b); [intros [= <-]; right; by left|].
  pose proof (simplified_outcome a) as Ha. pose proof (simplified_truthy a) as Ht.
  destruct (simplified a) as [a'|ea]; cbn; [|intros [= <-]; tauto].
  pose proof (simplified_outcome b) as Hb.
  destruct (simplified b) as [b'|eb]; cbn; [|intros [= <-]; tauto].
  assert (∀ o o' e', identity_case o o' = Raise e' → e' = TypeError) as Hid.
  { intros o o' e'. unfold identity_case, all_zeros.
    destruct (negb (bool_decide (data o = [])) && negb (bool_decide (name o = "U2")));
      [|discriminate].
    destruct (mod_defined (data o)); cbn; [discriminate|by intros [= <-]]. }
  destruct (identity_case a' b') as [[c|]|e1] eqn:E1; cbn; [discriminate| |].
  2: { intros [= <-]. apply Hid in E1. tauto. }
  destruct (identity_case b' a') as [[c|]|e2] eqn:E2; cbn; [discriminate| |].
  2: { intros [= <-]. apply Hid in E2. tauto. }
  destruct (intersection (wires a') (wires b')); simpl; [|discriminate].
  rewrite (Ht a'); [discriminate| |done].
  unfold truthy. by rewrite bool_decide_eq_false_2.
Qed.



(** X5: an unsupported operand makes the oracle raise whatever the wires
    and the other operand are, and when both are unsupported the error
    names the first. *)
Theorem unsupported_operand_raises (a b : Operation) :
  rejected a || rejected b = true →
  is_commuting a b = Raise (not_supported_error (if rejected a then a else b)).
Proof.
  intros Hr. destruct (is_commuting_rejected a b) as [H1 H2].
  destruct (rejected a) eqn:Ea; [by apply H1|]. by apply H2.
Qed.

(** The oracle on a first operand that has a name. *)
Lemma is_commuting_named (a b : Operation) :
  name a ≠ "" →
  is_commuting a b =
    if rejected a then Raise (not_supported_error a)
    else if rejected b then Raise (not_supported_error b)
    else a' ← simplified a; b' ← simplified b; outcome a' b'.
Proof.
  intros Hn. destruct (rejected a) eqn:Ea.
  { by apply is_commuting_rejected. }
  destruct (rejected b) eqn:Eb.
  { by apply is_commuting_rejected. }
  destruct (simplified a) as [a'|ea] eqn:Ha.
  2: { unfold is_commuting. by rewrite Ea, Eb, Ha. }
  destruct (simplified b) as [b'|eb] eqn:Hb.
  2: { unfold is_commuting. by rewrite Ea, Eb, Ha, Hb. }
  apply is_commuting_simplified; try done.
  eapply simplified_truthy; [|done]. unfold truthy. by rewrite bool_decide_eq_false_2.
Qed.

Lemma simplified_apart_from_controls (o1 o2 : Operation) :
  same_apart_from_controls o1 o2 → name o1 ≠ "CRot" →
  match simplified o1, simplified o2 with
  | Ok o1', Ok o2' => same_apart_from_controls o1' o2'
  | Raise e1, Raise e2 => e1 = e2
  | _, _ => False
  end.
Proof.
  destruct o1 as [n cv ch d w cw tw ic], o2 as [n2 cv2 ch2 d2 w2 cw2 tw2 ic2].
  intros (? & ? & ? & ? & ?) Hn; simpl in *; subst n2 cv2 ch2 d2 w2.
  unfold simplified. simpl. destruct (str_in n rotations) eqn:Hr; [|done].
  apply rotations_cases in Hr as [-> | [-> | [-> | ->]]]; [..|done];
    unfold simplify; simpl;
    unfold simplify_u2, simplify_u3, simplify_rotation, close_at, sum_close_zero, close,
      angle_sum, not_; simpl;
    destruct d as [|x [|y [|z d]]]; simpl; try reflexivity;
    split_tests; done.
Qed.

Lemma outcome_apart_from_controls (a1 a2 b1 b2 : Operation) :
  same_apart_from_controls a1 a2 → same_apart_from_controls b1 b2 →
  outcome a1 b1 = outcome a2 b2.
Proof.
  intros (Hna & _ & _ & Hda & Hwa) (Hnb & _ & _ & Hdb & Hwb).
  unfold outcome, identity_case, all_zeros.
  by rewrite Hna, Hda, Hwa, Hnb, Hdb, Hwb.
Qed.

(** X21: apart from the simplification of [CRot], what an operation says
    of its controls and targets has no effect on the oracle: two pairs of
    operations with the same names, parameters and wires get the same
    answer, or the same exception. *)
Theorem controls_have_no_effect (a1 b1 a2 b2 : Operation) :
  name a1 ≠ "" → name a1 ≠ "CRot" → name b1 ≠ "CRot" →
  same_apart_from_controls a1 a2 → same_apart_from_controls b1 b2 →
  is_commuting a1 b1 = is_commuting a2 b2.
Proof.
  intros Hn Hca Hcb Ha Hb.
  pose proof (simplified_apart_from_controls a1 a2 Ha Hca) as Hsa.
  pose proof (simplified_apart_from_controls b1 b2 Hb Hcb) as Hsb.
  destruct Ha as (Hna & Hcva & Hcha & _), Hb as (Hnb & Hcvb & Hchb & _).
  rewrite !is_commuting_named by congruence.
  unfold rejected, not_supported_error. rewrite <- Hna, <- Hcva, <- Hcha, <- Hnb, <- Hcvb, <- Hchb.
  destruct (_ || _ || _); [done|]. destruct (_ || _ || _); [done|].
  destruct (simplified a1) as [a1'|], (simplified a2) as [a2'|]; try done; cbn.
  2: by subst.
  destruct (simplified b1) as [b1'|], (simplified b2) as [b2'|]; try done; cbn.
  2: by subst.
  by apply outcome_apart_from_controls.
Qed.

End OracleOutcomes.

Lemma simplified_idempotent_witness :
  simplified (gate "Rot" [1; 3; -1] [0]) = Ok (gate "RX" [3] [0])
  ∧ simplified (gate "RX" [3] [0]) = Ok (gate "RX" [3] [0]).
Proof.
  assert (simplified (gate "Rot" [1; 3; -1] [0]) = Ok (gate "RX" [3] [0])) as E
    by reflexivity.
  split; [exact E|]. exact (simplified_idempotent _ _ E).
Defined.

Lemma simplified_shape_witness :
  name (cgate "CRot" "Rot" [2; 1; 0] [0] [1]) ∈ rotations
  ∧ name (ctrl_Hadamard (on [0]) (on [1])) ∈ simple_names
  ∧ (length (data (ctrl_Hadamard (on [0%Z]) (on [1%Z]))) ≤ 1)%nat
  ∧ wires (ctrl_Hadamard (on [0]) (on [1])) = on [0] ++ on [1].
Proof.
  apply (simplified_shape (cgate "CRot" "Rot" [2; 1; 0] [0] [1])
           (ctrl_Hadamard (on [0]) (on [1]))).
  - reflexivity.
  - discriminate.
Defined.

Lemma is_commuting_exceptions_witness :
  IndexError = not_supported_error (gate "Rot" [1] [0])
  ∨ IndexError = not_supported_error (gate "PauliX" [] [0])
  ∨ IndexError = IndexError ∨ IndexError = TypeError ∨ IndexError = ValueError.
Proof.
  apply (is_commuting_exceptions (gate "Rot" [1] [0]) (gate "PauliX" [] [0])).
  - discriminate.
  - reflexivity.
Defined.



Lemma unsupported_operand_raises_witness :
  is_commuting (gate "PauliRot" [1] [0]) (gate "QubitDensityMatrix" [] [5])
  = Raise (QuantumFunctionError "Operation PauliRot not supported.").
Proof.
  apply (unsupported_operand_raises (gate "PauliRot" [1] [0])
           (gate "QubitDensityMatrix" [] [5])).
  reflexivity.
Defined.

(** ** The table *)

(** Every cell of the table, looked up in both orders. *)
Lemma table_cells_checked :
  forallb (λ k1, forallb (λ k2,
    match table k1 k2, table k2 k1 with
    | Ok b, Ok c => bool_decide (k1 = "SX") || bool_decide (k2 = "SX") || eqb b c
    | _, _ => false
    end) position_items.*1) position_items.*1 = true.
Proof. vm_compute. reflexivity. Qed.

(** X6: [position] and [commutation_map] have the same 28 keys and every
    row has an entry for every key, so a lookup on two known names always
    finds a cell; and apart from the row and the column of [SX] the table
    is symmetric. *)
Theorem table_symmetric_apart_from_SX (k1 k2 : string) :
  k1 ∈ position_items.*1 → k2 ∈ position_items.*1 →
  (∃ b, table k1 k2 = Ok b)
  ∧ (k1 ≠ "SX" → k2 ≠ "SX" → table k1 k2 = table k2 k1).
Proof.
  intros H1 H2. pose proof table_cells_checked as Hc.
  rewrite forallb_forall in Hc. specialize (Hc k1 (proj1 (list_elem_of_In _ _) H1)).
  rewrite forallb_forall in Hc. specialize (Hc k2 (proj1 (list_elem_of_In _ _) H2)).
  destruct (table k1 k2) as [b|]; [|done]. destruct (table k2 k1) as [c|]; [|done].
  split; [eauto|]. intros N1 N2.
  rewrite !bool_decide_eq_false_2 in Hc by done.
  by destruct b, c.
Qed.

Lemma table_symmetric_apart_from_SX_witness :
  (∃ b, table "RZ" "ctrl" = Ok b)
  ∧ ("RZ" ≠ "SX" → "ctrl" ≠ "SX" → table "RZ" "ctrl" = table "ctrl" "RZ").
Proof.
  apply (table_symmetric_apart_from_SX "RZ" "ctrl");
    apply (bool_decide_unpack _); vm_compute; exact I.
Defined.

Lemma controls_have_no_effect_witness :
  is_commuting (cgate "CNOT" "PauliX" [] [0] [1]) (cgate "CZ" "PauliZ" [] [0] [2])
  = is_commuting (gate "CNOT" [] [0; 1]) (gate "CZ" [] [0; 2]).
Proof.
  apply (controls_have_no_effect (cgate "CNOT" "PauliX" [] [0] [1])
           (cgate "CZ" "PauliZ" [] [0] [2]) (gate "CNOT" [] [0; 1]) (gate "CZ" [] [0; 2]));
    try discriminate; repeat split.
Defined.

(** ** More on the merge *)

Section MergeMore.
Implicit Types (its : list (list Z)) (l : list Z) (v x : Z).

Lemma heapq_merge_fuel_Permutation fuel its :
  (length (mjoin its) ≤ fuel)%nat → heapq_merge_fuel fuel its ≡ₚ mjoin its.
Proof.
  revert its. induction fuel as [|fuel IH]; intros its Hlen; simpl.
  - destruct (mjoin its); simpl in *; [done|lia].
  - destruct (least_head its) as [v|] eqn:E.
    + destruct (least_head_Some _ _ E) as [[l Hl] _].
      pose proof (advance_Permutation _ _ _ Hl) as Hp.
      rewrite Hp, IH; [done|]. apply Permutation_length in Hp. simpl in Hp. lia.
    + apply least_head_None in E. by rewrite E.
Qed.

Lemma skip_repeats_elem last l x :
  (x ∈ skip_repeats last l → x ∈ l)
  ∧ (x ∈ l → x ∈ skip_repeats last l ∨ Some x = last).
Proof.
  revert last. induction l as [|v l IH]; intros last; simpl.
  - split; [done|]. by intros ?%elem_of_nil.
  - case_bool_decide as Hd.
    + destruct (IH last) as [IH1 IH2]. split.
      * intros ?%IH1. by right.
      * intros [->|Hx]%elem_of_cons; [by right|]. by apply IH2.
    + destruct (IH (Some v)) as [IH1 IH2]. split.
      * intros [->|Hx]%elem_of_cons; [by left|]. right. by apply IH1.
      * intros [->|Hx]%elem_of_cons; [left; by left|].
        destruct (IH2 Hx) as [?|[= ->]]; left; [by right|by left].
Qed.

Lemma StronglySorted_lt_NoDup l : StronglySorted Z.lt l → NoDup l.
Proof.
  induction 1 as [|x l Hl IH Hx]; constructor; [|done].
  intros Hin. rewrite Forall_forall in Hx. specialize (Hx _ Hin). lia.
Qed.

Lemma StronglySorted_lt_unique l1 l2 :
  StronglySorted Z.lt l1 → StronglySorted Z.lt l2 →
  (∀ x, x ∈ l1 ↔ x ∈ l2) → l1 = l2.
Proof.
  intros H1 H2 Hx.
  apply (StronglySorted_unique Z.le); [by apply StronglySorted_lt_le..|].
  apply NoDup_Permutation; [by apply StronglySorted_lt_NoDup..|done].
Qed.

Lemma merge_sort_strictly_sorted l :
  NoDup l → StronglySorted Z.lt (merge_sort Z.le l).
Proof.
  intros Hnd.
  assert (NoDup (merge_sort Z.le l)) as Hnd' by by rewrite merge_sort_Permutation.
  pose proof (StronglySorted_merge_sort Z.le l) as Hs.
  induction Hs as [|x k Hk IH Hx]; constructor.
  - apply IH. by apply NoDup_cons in Hnd' as [_ ?].
  - apply NoDup_cons in Hnd' as [Hin _].
    rewrite Forall_forall in Hx. apply Forall_forall. intros y Hy.
    specialize (Hx _ Hy). assert (x ≠ y) by (by intros ->). lia.
Qed.

(** X7: whatever the lists handed to [_merge_no_duplicates], sorted or
    not, its result holds exactly the values that occur in one of them. *)
Theorem merge_no_duplicates_elements its x :
  x ∈ _merge_no_duplicates its ↔ ∃ l, l ∈ its ∧ x ∈ l.
Proof.
  unfold _merge_no_duplicates, heapq_merge.
  destruct (skip_repeats_elem None (heapq_merge_fuel (length (mjoin its)) its) x)
    as [H1 H2].
  assert (x ∈ heapq_merge_fuel (length (mjoin its)) its ↔ ∃ l, l ∈ its ∧ x ∈ l) as Hm.
  { rewrite (heapq_merge_fuel_Permutation (length (mjoin its)) its) by done.
    rewrite list_elem_of_join. split; intros (l & ? & ?); eauto. }
  rewrite <- Hm. split; [done|]. intros Hx. by destruct (H2 Hx).
Qed.

(** X8: on sorted lists [_merge_no_duplicates] gives the sorted list of
    the distinct values of all of them. *)
Theorem merge_no_duplicates_sorted_union its :
  Forall (StronglySorted Z.le) its →
  _merge_no_duplicates its = merge_sort Z.le (remove_dups (mjoin its)).
Proof.
  intros Hs. destruct (merge_no_duplicates_spec its Hs) as [H1 H2].
  apply StronglySorted_lt_unique; [done|..].
  - apply merge_sort_strictly_sorted, NoDup_remove_dups.
  - intros x. rewrite H2, merge_sort_Permutation, elem_of_remove_dups, list_elem_of_join.
    split; intros (l & ? & ?); eauto.
Qed.

End MergeMore.

Lemma merge_no_duplicates_sorted_union_witness :
  _merge_no_duplicates [[1; 4; 4]; []; [0; 4; 7]] = [0; 1; 4; 7].
Proof.
  apply (merge_no_duplicates_sorted_union [[1; 4; 4]; []; [0; 4; 7]]).
  repeat constructor; lia.
Defined.

(** ** The node store *)

Section NodeStore.
Context `{Numeric}.
Implicit Types (dag d : CommutationDAG) (node top : CommutationDAGNode).
Implicit Types (operations : list Operation) (operation : Operation).

Lemma keeps_fixed_update_node dag0 f k :
  (∀ node, fixed_part (f node) = fixed_part node) →
  keeps (same_fixed_parts dag0) (update_node f k).
Proof.
  intros Hf dag [Hid Hl].
  unfold after, update_node, mbind, M_bind, bind, reading, writing, get_node.
  destruct (DAG.nodes dag !! k) as [node|] eqn:E; simpl; [|done].
  split; [done|]. intros j. destruct (decide (j = k)) as [->|Hne]; simpl.
  - rewrite lookup_insert_eq. simpl. by rewrite Hf, <- Hl, E.
  - by rewrite lookup_insert_ne.
Qed.

Lemma keeps_fixed_pred_update dag0 k : keeps (same_fixed_parts dag0) (_pred_update k).
Proof.
  unfold _pred_update.
  repeat first
    [ by apply keeps_fixed_update_node
    | apply keeps_reading
    | apply keeps_bind; [|intros ?] ].
Qed.

Lemma keeps_fixed_scan dag0 max_node_id max_node prev_node_id :
  keeps (same_fixed_parts dag0) (scan max_node_id max_node prev_node_id).
Proof.
  unfold scan.
  apply keeps_bind; [apply keeps_reading|]. intros prev.
  destruct (Node.reachable prev) as [[|]|]; try apply keeps_pure.
  apply keeps_bind; [apply keeps_reading|]. intros [|]; [apply keeps_pure|].
  apply keeps_bind; [|intros _; apply keeps_bind].
  - apply keeps_writing. by intros dag Hd.
  - apply keeps_fixed_pred_update.
  - intros _. apply keeps_bind; [apply keeps_reading|]. intros node.
    apply keeps_for_each. intros i _. by apply keeps_fixed_update_node.
Qed.

Lemma keeps_fixed_update_edges dag0 : keeps (same_fixed_parts dag0) _update_edges.
Proof.
  unfold _update_edges.
  apply keeps_bind; [apply keeps_reading|]. intros max_node_id.
  apply keeps_bind; [apply keeps_reading|]. intros node.
  apply keeps_bind.
  - apply keeps_for_each. intros i _. by apply keeps_fixed_update_node.
  - intros _. apply keeps_for_each. intros i _. apply keeps_fixed_scan.
Qed.

Lemma after_add_node operation dag :
  after (add_node operation) dag =
  after _update_edges (after (_add_node (new_node operation)) dag).
Proof. done. Qed.

Lemma add_node_fixed operation dag (n : nat) :
  counted n dag →
  let d := after (add_node operation) dag in
  counted (S n) d
  ∧ (∀ k, k ≠ Z.of_nat n →
       fixed_part <$> DAG.nodes d !! k = fixed_part <$> DAG.nodes dag !! k)
  ∧ fixed_part <$> DAG.nodes d !! Z.of_nat n
    = Some (fixed_part (Node.set_node_id (Z.of_nat n) (new_node operation))).
Proof.
  intros [Hid Hkeys] d.
  assert (same_fixed_parts (after (_add_node (new_node operation)) dag) d) as [Hid' Hl].
  { by apply (keeps_fixed_update_edges _ (after (_add_node (new_node operation)) dag)). }
  clearbody d. unfold after, _add_node, writing in Hid', Hl. simpl in Hid', Hl.
  rewrite Hid in Hid', Hl.
  replace (Z.of_nat n - 1 + 1) with (Z.of_nat n) in Hid', Hl by lia.
  split_and!.
  - split; [lia|]. intros k. rewrite <- (fmap_is_Some fixed_part), Hl, fmap_is_Some.
    rewrite lookup_insert_is_Some', Hkeys. lia.
  - intros k Hk. by rewrite Hl, lookup_insert_ne.
  - by rewrite Hl, lookup_insert_eq.
Qed.

Lemma add_nodes_fixed operations : ∀ dag (n : nat),
  counted n dag →
  (add_nodes operations dag).2 = Ok () →
  let d := after (add_nodes operations) dag in
  counted (n + length operations) d
  ∧ (∀ k, k < Z.of_nat n →
       fixed_part <$> DAG.nodes d !! k = fixed_part <$> DAG.nodes dag !! k)
  ∧ ∀ (i : nat) operation, operations !! i = Some operation →
      fixed_part <$> DAG.nodes d !! Z.of_nat (n + i)
      = Some (fixed_part (Node.set_node_id (Z.of_nat (n + i)) (new_node operation))).
Proof.
  induction operations as [|o rest IH]; intros dag n Hc Hok; simpl.
  - rewrite Nat.add_0_r. split_and!; [done|done|]. intros i ? [=].
  - destruct (add_node_fixed o dag n Hc) as (Hc1 & Hold1 & Hnew1).
    simpl in Hok. unfold after in *. simpl.
    unfold mbind, M_bind, bind in *.
    destruct (add_node o dag) as [dag1 [[]|e]]; simpl in *; [|done].
    destruct (IH dag1 (S n) Hc1 Hok) as (Hc2 & Hold2 & Hnew2).
    replace (n + S (length rest))%nat with (S n + length rest)%nat by lia.
    split_and!; [done| |].
    + intros k Hk. rewrite Hold2 by lia. apply Hold1. lia.
    + intros [|i] operation Hi; simpl in Hi.
      * injection Hi as <-. rewrite Nat.add_0_r, Hold2 by lia. done.
      * replace (n + S i)%nat with (S n + i)%nat by lia. by apply Hnew2.
Qed.

(** [add_node] gives no node a successor, whatever its outcome. *)
Lemma keeps_no_successors_add_node operation :
  keeps (λ d, ∀ k node, DAG.nodes d !! k = Some node → Node.successors node = [])
    (add_node operation).
Proof.
  intros dag Hdag. rewrite after_add_node.
  set (d1 := after (_add_node (new_node operation)) dag).
  assert (∀ k node, DAG.nodes d1 !! k = Some node → Node.successors node = []) as H1.
  { subst d1. unfold after, _add_node, writing. simpl. intros k node.
    rewrite lookup_insert_Some. intros [[_ <-]|[_ Hk]]; [|by eauto].
    simpl. unfold new_node. by destruct (controlled_truthy operation). }
  destruct (keeps_fixed_update_edges d1 d1) as [_ Hl]; [by split|].
  intros k node Hk. specialize (Hl k). rewrite Hk in Hl.
  destruct (DAG.nodes d1 !! k) as [node1|] eqn:E1; [|done].
  simpl in Hl. injection Hl as _ _ _ _ _ Hsucc _ _ _.
  rewrite Hsucc. by eapply H1.
Qed.

Lemma keeps_no_successors_add_nodes operations :
  keeps (λ d, ∀ k node, DAG.nodes d !! k = Some node → Node.successors node = [])
    (add_nodes operations).
Proof.
  induction operations as [|o rest IH]; simpl.
  - apply keeps_pure.
  - apply keeps_bind; [apply keeps_no_successors_add_node|]. by intros _.
Qed.

Lemma counted_init wires observables : counted 0 (__init__ wires observables).
Proof. split; [done|]. intros k. simpl. rewrite lookup_empty, is_Some_alt. lia. Qed.

(** X9: when [add_node] has run on each of a list of operations without
    raising, the nodes are numbered 0, 1, ... in the order of the list and
    [node_id] is the last number; node [k] holds the [k]-th operation and
    the wires read off it, an operation that is not controlled having all
    its wires as targets and no control wire; no node has successors yet;
    and [get_node] raises [KeyError] on every other id. *)
Theorem nodes_numbered_in_order dag_wires observables operations :
  (add_nodes operations (__init__ dag_wires observables)).2 = Ok () →
  let dag := after (add_nodes operations) (__init__ dag_wires observables) in
  DAG.node_id dag = Z.of_nat (length operations) - 1
  ∧ (∀ k, ¬ 0 ≤ k < Z.of_nat (length operations) →
       get_node k dag = Raise (KeyError (IntLabel k)))
  ∧ ∀ (k : nat) operation, operations !! k = Some operation →
      ∃ node, get_node (Z.of_nat k) dag = Ok node
        ∧ Node.op node = operation
        ∧ Node.node_id node = Z.of_nat k
        ∧ Node.wires node = wires operation
        ∧ Node.target_wires node =
            (if controlled_truthy operation then target_wires operation
             else wires operation)
        ∧ Node.control_wires node =
            (if controlled_truthy operation then control_wires operation else [])
        ∧ Node.successors node = [].
Proof.
  intros Hok dag.
  destruct (add_nodes_fixed operations _ 0 (counted_init dag_wires observables) Hok)
    as ([Hid Hkeys] & _ & Hnew).
  fold dag in Hid, Hkeys, Hnew. simpl in Hid, Hkeys.
  split_and!; [done| |].
  - intros k Hk. unfold get_node.
    destruct (DAG.nodes dag !! k) eqn:E; [|done].
    destruct Hk. apply Hkeys. eauto.
  - intros k operation Hk. specialize (Hnew k operation Hk). simpl in Hnew.
    unfold get_node. destruct (DAG.nodes dag !! Z.of_nat k) as [node|]; [|done].
    exists node. split; [done|]. simpl in Hnew.
    injection Hnew as Hop Hw Htw Hcw Hnid Hsucc _ _ _.
    rewrite Hop, Hnid, Hw, Htw, Hcw, Hsucc. unfold new_node.
    by destruct (controlled_truthy operation).
Qed.

(** The first operation added to an empty DAG is never shown to the
    oracle: whatever it is, supported or not, [add_node] makes it node 0
    and returns. *)
Lemma first_operation_unchecked operation wires observables :
  add_node operation (__init__ wires observables)
  = (DAG.mk wires (length wires) 0
       {[ 0 := Node.set_node_id 0 (new_node operation) ]} [] observables, Ok ()).
Proof. reflexivity. Qed.

End NodeStore.

Lemma nodes_numbered_in_order_witness :
  ∃ node,
    get_node (Z.of_nat 5) (after (add_nodes example_circuit) (__init__ (on [0; 1; 2]) []))
    = Ok node
    ∧ Node.op node = cgate "CRZ" "RZ" [1] [2] [0]
    ∧ Node.node_id node = Z.of_nat 5
    ∧ Node.wires node = wires (cgate "CRZ" "RZ" [1] [2] [0])
    ∧ Node.target_wires node =
        (if controlled_truthy (cgate "CRZ" "RZ" [1] [2] [0])
         then target_wires (cgate "CRZ" "RZ" [1] [2] [0])
         else wires (cgate "CRZ" "RZ" [1] [2] [0]))
    ∧ Node.control_wires node =
        (if controlled_truthy (cgate "CRZ" "RZ" [1] [2] [0])
         then control_wires (cgate "CRZ" "RZ" [1] [2] [0]) else [])
    ∧ Node.successors node = [].
Proof.
  assert ((add_nodes example_circuit (__init__ (on [0; 1; 2]) [])).2 = Ok ()) as Hok
    by (vm_compute; reflexivity).
  exact (proj2 (proj2 (nodes_numbered_in_order (on [0; 1; 2]) [] example_circuit Hok))
           5%nat (cgate "CRZ" "RZ" [1] [2] [0]) eq_refl).
Defined.

(** ** The DAG of a list of operations *)

Section BuiltDAG.
Context `{Numeric}.
Implicit Types (dag d : CommutationDAG) (node top : CommutationDAGNode).
Implicit Types (operations : list Operation) (operation : Operation).

Lemma fails_to_commute_true operations p q :
  0 ≤ p → 0 ≤ q →
  fails_to_commute operations p q = true ↔
  ∃ a b, operations !! Z.to_nat p = Some a ∧ operations !! Z.to_nat q = Some b
         ∧ is_commuting a b = Ok false.
Proof.
  intros Hp Hq. unfold fails_to_commute.
  destruct (operations !! Z.to_nat p) as [a|], (operations !! Z.to_nat q) as [b|].
  - destruct (is_commuting a b) as [[|]|e] eqn:E.
    + split; [done|]. intros (? & ? & [= <-] & [= <-] & ?). congruence.
    + split; [eauto|done].
    + split; [done|]. intros (? & ? & [= <-] & [= <-] & ?). congruence.
  - split; [done|]. by intros (? & ? & _ & ? & _).
  - split; [done|]. by intros (? & ? & ? & _).
  - split; [done|]. by intros (? & ? & ? & _).
Qed.

Lemma count_in_NoDup (E : list (Z * Z)) (e : Z * Z) :
  NoDup E →
  length (filter (λ x, x = e) E) = if bool_decide (e ∈ E) then 1%nat else 0%nat.
Proof.
  induction 1 as [|x E Hx Hnd IH]; [done|].
  rewrite filter_cons. destruct (decide (x = e)) as [->|Hne]; simpl.
  - rewrite IH, bool_decide_eq_false_2 by done.
    by rewrite bool_decide_eq_true_2 by left.
  - rewrite IH. apply (f_equal (λ b : bool, if b then 1%nat else 0%nat)).
    apply bool_decide_ext. rewrite elem_of_cons. split; [by right|]. by intros [->|?].
Qed.

(** X11: every edge of the DAG that the calls of [add_node] leave, whether
    they all returned or one of them raised, leads from an operation to a
    later one that does not commute with it. *)
Theorem edges_join_noncommuting dag_wires observables operations p q :
  Forall (λ o, supported o = true) operations →
  (p, q) ∈ DAG.edges (after (add_nodes operations) (__init__ dag_wires observables)) →
  0 ≤ p < q
  ∧ ∃ a b, operations !! Z.to_nat p = Some a ∧ operations !! Z.to_nat q = Some b
           ∧ is_commuting a b = Ok false.
Proof.
  destruct (add_nodes_grown dag_wires observables operations) as (added & Hpre & Hg).
  pose proof (gf_tidy _ _ Hg) as Ht. intros _ Hin.
  apply (td_noncommuting _ _ Ht), elem_of_brute_force_edges in Hin as (Hpq & Hq & Hf).
  split; [lia|]. apply fails_to_commute_true in Hf as (a & b & Ha & Hb & Hc); [|lia..].
  exists a, b. split_and!; [by eapply prefix_lookup_Some..|done].
Qed.

(** X12: no two nodes are joined by more than one edge: [get_edge] gives
    the single edge, with key 0 and [commute] False, or [None]. *)
Theorem get_edge_single dag_wires observables operations p q :
  Forall (λ o, supported o = true) operations →
  let dag := after (add_nodes operations) (__init__ dag_wires observables) in
  get_edge p q dag
  = if bool_decide ((p, q) ∈ DAG.edges dag) then Some [(0%nat, false)] else None.
Proof.
  intros _ dag.
  destruct (add_nodes_grown dag_wires observables operations) as (added & Hpre & Hg).
  fold dag in Hg. unfold get_edge.
  rewrite (count_in_NoDup _ _ (td_NoDup _ _ (gf_tidy _ _ Hg))).
  by destruct (bool_decide ((p, q) ∈ DAG.edges dag)).
Qed.

(** X13: the DAG has no edge that the others imply: no edge joins two
    nodes that a path through a third node joins as well. *)
Theorem no_redundant_edge dag_wires observables operations :
  Forall (λ o, supported o = true) operations →
  no_shortcut (DAG.edges (after (add_nodes operations) (__init__ dag_wires observables))).
Proof.
  intros _.
  destruct (add_nodes_grown dag_wires observables operations) as (added & Hpre & Hg).
  apply (td_no_shortcut _ _ (gf_tidy _ _ Hg)).
Qed.

(** X14: when [add_node] has returned on every operation, two operations
    that do not commute are never left unordered: the earlier one is among
    the predecessors stored in the node of the later one. *)
Theorem noncommuting_operations_ordered dag_wires observables operations
    (i j : nat) (a b : Operation) :
  Forall (λ o, supported o = true) operations →
  (add_nodes operations (__init__ dag_wires observables)).2 = Ok () →
  operations !! i = Some a → operations !! j = Some b → (i < j)%nat →
  is_commuting a b = Ok false →
  ∃ node,
    get_node (Z.of_nat j) (after (add_nodes operations) (__init__ dag_wires observables))
    = Ok node
    ∧ Z.of_nat i ∈ Node.predecessors node.
Proof.
  intros _ Hok Ha Hb' Hij Hc.
  destruct (add_nodes_built dag_wires observables operations Hok) as (dag & E & Hb & _).
  unfold after. rewrite E. simpl.
  assert (Z.of_nat j < Z.of_nat (length operations)) as Hj.
  { apply lookup_lt_Some in Hb'. lia. }
  assert (is_Some (DAG.nodes dag !! Z.of_nat j)) as [node Hnode].
  { apply (bf_keys _ _ Hb). lia. }
  exists node. split; [by apply get_node_Some|].
  apply (bf_cache _ _ Hb _ _ Hnode), (bf_paths _ _ Hb), path_edge.
  apply elem_of_brute_force_edges. split; [lia|]. split; [done|].
  apply fails_to_commute_true; [lia..|]. exists a, b. by rewrite !Nat2Z.id.
Qed.

(** X15: the predecessor list stored in a node is the one that
    [predecessors] computes from the graph. *)
Theorem cached_predecessors_agree dag_wires observables operations k node :
  Forall (λ o, supported o = true) operations →
  let dag := after (add_nodes operations) (__init__ dag_wires observables) in
  get_node k dag = Ok node →
  predecessors k dag = Ok (Node.predecessors node).
Proof.
  intros _ dag.
  destruct (add_nodes_grown dag_wires observables operations) as (added & Hpre & Hg).
  fold dag in Hg. clearbody dag. unfold get_node, predecessors, ancestors.
  destruct (DAG.nodes dag !! k) as [node'|] eqn:Hnode; [|done]. intros [= ->]. simpl.
  f_equal. destruct (gf_cache _ _ Hg _ _ Hnode) as [Hsorted Hmem].
  assert (0 ≤ k < Z.of_nat (length added)) as Hk by (apply (gf_keys _ _ Hg); eauto).
  apply StronglySorted_lt_unique; [|done|].
  - apply merge_sort_strictly_sorted, NoDup_filter, NoDup_elements.
  - intros m. rewrite merge_sort_Permutation, list_elem_of_filter, elem_of_elements, elem_of_dom.
    rewrite Is_true_true, (gf_size _ _ Hg), Hmem.
    rewrite (reaches_path (DAG.edges dag)); [|intros p q Hin|lia].
    2: { apply (gf_edges _ _ Hg) in Hin. lia. }
    split; [tauto|]. intros Hp. split_and!; [done| |].
    + apply (path_bounds _ 0 (Z.of_nat (length added))) in Hp; [lia|].
      apply (gf_edges _ _ Hg).
    + apply (gf_keys _ _ Hg).
      apply (path_bounds _ 0 (Z.of_nat (length added))) in Hp; [lia|].
      apply (gf_edges _ _ Hg).
Qed.

(** The first round of the scan compares the new operation with the one
    just before it; an exception there is the outcome of [add_node]. *)
Lemma add_node_raises operations operation dag (a : Operation) (e : exn) :
  built_from operations dag →
  last operations = Some a →
  is_commuting a operation = Raise e →
  ∃ d, add_node operation dag = (d, Raise e)
       ∧ size (DAG.nodes d) = S (length operations)
       ∧ DAG.edges d = DAG.edges dag.
Proof.
  intros Hb Hlast Hc.
  destruct (add_node_start operations operation dag Hb) as (d & Estart & Hsc & HE).
  exists d. split_and!; [|apply (sc_size _ _ _ _ _ Hsc)|done].
  rewrite Estart.
  destruct (length operations) as [|n] eqn:Hlen.
  { by destruct operations. }
  rewrite range_down_S. simpl.
  assert (is_Some (DAG.nodes dag !! Z.of_nat n)) as [node0 Hnode0].
  { apply (bf_keys _ _ Hb). lia. }
  destruct (sc_nodes _ _ _ _ _ Hsc) as (top & Htop & _ & Hcache & Hold).
  destruct (Hold _ _ Hnode0) as (node & Hnode & Hop & _ & Hreach).
  rewrite bool_decide_eq_false_2 in Hreach.
  2: { intros Hin. apply Hcache in Hin. rewrite HE in Hin.
       apply (path_bounds _ 0 (Z.of_nat (length operations))) in Hin; [lia|].
       apply (bf_edges _ _ Hb). }
  assert (Node.op node = a) as Hopa.
  { apply (bf_ops _ _ Hb) in Hnode0. rewrite Nat2Z.id in Hnode0.
    rewrite last_lookup, Hlen in Hlast. simpl in Hlast. congruence. }
  apply bind_Raise. unfold scan.
  rewrite (reading_Ok _ _ _ _ (get_node_Some _ _ _ Hnode)), Hreach.
  apply bind_Raise. unfold reading. by rewrite Hopa, Hc.
Qed.

(** X16: when an unsupported operation is detected.  Alone in the list it
    is not: [add_node] never shows the first operation of a DAG to the
    oracle.  After supported operations on which [add_node] has returned,
    or before any other operation, [add_node] raises the error that names
    it, at the first comparison it takes part in; when it is not the first
    operation its node is left in the DAG, without any edge. *)
Theorem unsupported_operation_raises dag_wires observables operations operation rest :
  Forall (λ o, supported o = true) operations →
  (add_nodes operations (__init__ dag_wires observables)).2 = Ok () →
  rejected operation = true →
  let r := add_nodes (operations ++ operation :: rest) (__init__ dag_wires observables) in
  (operations = [] → rest = [] → r.2 = Ok ())
  ∧ (operations ≠ [] ∨ rest ≠ [] → r.2 = Raise (not_supported_error operation))
  ∧ (operations ≠ [] →
     size (DAG.nodes r.1) = S (length operations)
     ∧ DAG.edges r.1
       = DAG.edges (after (add_nodes operations) (__init__ dag_wires observables))).
Proof.
  intros Hs Hok Hrej.
  destruct (add_nodes_built dag_wires observables operations Hok) as (dag & E & Hb & Ht).
  unfold after. rewrite add_nodes_app, (bind_Ok _ _ _ _ _ E), E. simpl.
  split_and!.
  - intros -> ->. injection E as <-. simpl.
    by rewrite (bind_Ok _ _ _ _ _ (first_operation_unchecked _ _ _)).
  - intros Hne. destruct (last operations) as [a|] eqn:Hlast.
    + destruct (add_node_raises operations operation dag a (not_supported_error operation))
        as (d & Eadd & _); [done..| |].
      { apply is_commuting_rejected; [|done]. apply supported_not_rejected.
        rewrite Forall_forall in Hs. apply Hs.
        rewrite last_lookup in Hlast. by eapply list_elem_of_lookup_2. }
      by rewrite (bind_Raise _ _ _ _ _ Eadd).
    + apply last_None in Hlast as ->. destruct Hne as [?|Hrest]; [done|].
      destruct rest as [|next rest]; [done|].
      injection E as <-.
      pose proof (first_operation_unchecked operation dag_wires observables) as E1.
      destruct (add_node_step [] operation _ _ (built_from_init dag_wires observables)
                  (tidy_init dag_wires observables) E1) as [Hb1 _].
      rewrite (bind_Ok _ _ _ _ _ E1). simpl.
      destruct (add_node_raises [operation] next _ operation
                  (not_supported_error operation) Hb1) as (d & Eadd & _); [done| |].
      { by apply is_commuting_rejected. }
      by rewrite (bind_Raise _ _ _ _ _ Eadd).
  - intros Hne. destruct (last operations) as [a|] eqn:Hlast.
    2: { by apply last_None in Hlast. }
    destruct (add_node_raises operations operation dag a (not_supported_error operation))
      as (d & Eadd & Hsize & HE); [done..| |].
    { apply is_commuting_rejected; [|done]. apply supported_not_rejected.
      rewrite Forall_forall in Hs. apply Hs.
      rewrite last_lookup in Hlast. by eapply list_elem_of_lookup_2. }
    by rewrite (bind_Raise _ _ _ _ _ Eadd).
Qed.

End BuiltDAG.

(** ** What [add_node] does to the edges of any DAG *)

Section Appends.
Context `{Numeric}.
Implicit Types (dag d : CommutationDAG) (operation : Operation).

Lemma same_fixed_size dag0 dag :
  same_fixed_parts dag0 dag → size (DAG.nodes dag) = size (DAG.nodes dag0).
Proof.
  intros [_ Hl]. rewrite <- !size_dom. f_equal. apply same_keys. intros k.
  by rewrite <- !(fmap_is_Some fixed_part), Hl.
Qed.

(** The edges added by the rounds of the scan from [n] downwards. *)
Lemma scan_loop_appends (E0 : list (Z * Z)) (top : Z) operation (n : nat) :
  Z.of_nat n ≤ top →
  ∀ d (sources : list Z),
    DAG.edges d = E0 ++ ((λ p, (p, top)) <$> sources) →
    StronglySorted (λ x y, y < x) sources →
    (∀ p, p ∈ sources → Z.of_nat n ≤ p < top) →
    ∃ sources',
      DAG.edges (after (for_each (scan top operation) (range_down 0 (Z.of_nat n))) d)
      = E0 ++ ((λ p, (p, top)) <$> sources')
      ∧ StronglySorted (λ x y, y < x) sources'
      ∧ ∀ p, p ∈ sources' → 0 ≤ p < top.
Proof.
  induction n as [|n IH]; intros Hn d sources HE Hsorted Hbounds.
  - exists sources. split_and!; [done..|]. intros p Hp%Hbounds. lia.
  - rewrite range_down_S. simpl.
    assert (∃ sources1,
              DAG.edges (scan top operation (Z.of_nat n) d).1
              = E0 ++ ((λ p, (p, top)) <$> sources1)
              ∧ StronglySorted (λ x y, y < x) sources1
              ∧ ∀ p, p ∈ sources1 → Z.of_nat n ≤ p < top) as (sources1 & HE1 & Hs1 & Hb1).
    { destruct (scan_edges top operation (Z.of_nat n) d) as [->|[-> _]].
      - exists sources. split_and!; [done..|]. intros p Hp%Hbounds. lia.
      - exists (sources ++ [Z.of_nat n]). split_and!.
        + by rewrite HE, fmap_app, app_assoc.
        + apply StronglySorted_app_2; [|done|repeat constructor].
          intros x y Hx%Hbounds ->%list_elem_of_singleton. lia.
        + intros p [Hp%Hbounds| ->%list_elem_of_singleton]%elem_of_app; lia. }
    unfold after, mbind, M_bind, bind.
    destruct (scan top operation (Z.of_nat n) d) as [d1 [[]|e]]; simpl in *.
    + apply (IH ltac:(lia) d1 sources1); done.
    + exists sources1. split_and!; [done..|]. intros p Hp%Hb1. lia.
Qed.

(** X10: whatever the DAG and the operation, and whether it returns or
    raises, [add_node] removes no edge and changes none: it appends edges
    that all lead into the node it has just added, from earlier nodes in
    descending order, each at most once. *)
Theorem add_node_appends operation dag :
  let dag' := after (add_node operation) dag in
  let top := Z.of_nat (size (DAG.nodes dag')) - 1 in
  ∃ sources,
    DAG.edges dag' = DAG.edges dag ++ ((λ p, (p, top)) <$> sources)
    ∧ StronglySorted (λ x y, y < x) sources
    ∧ ∀ p, p ∈ sources → 0 ≤ p < top.
Proof.
  intros dag' top.
  set (d1 := after (_add_node (new_node operation)) dag).
  assert (size (DAG.nodes dag') = size (DAG.nodes d1)) as Hsize.
  { apply same_fixed_size. by apply (keeps_fixed_update_edges d1 d1). }
  subst top. rewrite Hsize. clear Hsize.
  set (top := Z.of_nat (size (DAG.nodes d1)) - 1).
  assert (dag' = after _update_edges d1) as -> by done.
  assert (DAG.edges d1 = DAG.edges dag) as HE1 by done.
  rewrite <- HE1. clearbody d1. clear HE1 dag.
  assert (∀ d, DAG.edges d = DAG.edges d1 →
            ∃ sources, DAG.edges d = DAG.edges d1 ++ ((λ p, (p, top)) <$> sources)
                       ∧ StronglySorted (λ x y, y < x) sources
                       ∧ ∀ p, p ∈ sources → 0 ≤ p < top) as Hnone.
  { intros d ->. exists []. rewrite app_nil_r. split_and!; [done|constructor|].
    by intros p ?%elem_of_nil. }
  unfold after, _update_edges.
  rewrite (reading_Ok (λ dag, Ok (Z.of_nat (size (DAG.nodes dag)) - 1)) _ d1 top eq_refl).
  destruct (get_node top d1) as [node|e] eqn:Hnode.
  2: { rewrite (bind_Raise _ _ d1 d1 e) by (unfold reading; by rewrite Hnode).
       by apply Hnone. }
  rewrite (reading_Ok _ _ _ _ Hnode).
  assert (keeps (λ d, DAG.edges d = DAG.edges d1)
            (for_each (update_node (Node.set_reachable true)) (range 0 top))) as Hk.
  { apply keeps_for_each. intros i _. by apply keeps_update_node. }
  specialize (Hk d1 eq_refl). unfold after in Hk.
  destruct (for_each (update_node (Node.set_reachable true)) (range 0 top) d1)
    as [d2 [[]|e]] eqn:E2; simpl in Hk.
  2: { rewrite (bind_Raise _ _ _ _ _ E2). by apply Hnone. }
  rewrite (bind_Ok _ _ _ _ _ E2).
  destruct (size (DAG.nodes d1)) as [|n] eqn:Hn.
  { subst top. simpl. by apply Hnone. }
  replace top with (Z.of_nat n) in * by lia.
  apply (scan_loop_appends (DAG.edges d1) (Z.of_nat n) (Node.op node) n ltac:(lia) d2 []).
  - by rewrite app_nil_r.
  - constructor.
  - by intros p ?%elem_of_nil.
Qed.

End Appends.

Lemma edges_join_noncommuting_witness :
  0 ≤ 1 < 5
  ∧ ∃ a b, example_circuit !! Z.to_nat 1 = Some a ∧ example_circuit !! Z.to_nat 5 = Some b
           ∧ is_commuting a b = Ok false.
Proof.
  apply (edges_join_noncommuting (on [0; 1; 2]) [] example_circuit 1 5).
  - repeat constructor.
  - apply (bool_decide_unpack _). vm_compute. exact I.
Defined.

Lemma get_edge_single_witness :
  let dag := after (add_nodes example_circuit) (__init__ (on [0; 1; 2]) []) in
  get_edge 1 5 dag
  = if bool_decide ((1, 5) ∈ DAG.edges dag) then Some [(0%nat, false)] else None.
Proof. apply (get_edge_single (on [0; 1; 2]) [] example_circuit 1 5). repeat constructor. Defined.

Example example_circuit_get_edge :
  get_edge 1 5 (after (add_nodes example_circuit) (__init__ (on [0; 1; 2]) []))
  = Some [(0%nat, false)]
  ∧ get_edge 0 5 (after (add_nodes example_circuit) (__init__ (on [0; 1; 2]) [])) = None.
Proof. split; vm_compute; reflexivity. Qed.

Lemma no_redundant_edge_witness :
  no_shortcut (DAG.edges (after (add_nodes example_circuit) (__init__ (on [0; 1; 2]) []))).
Proof. apply (no_redundant_edge (on [0; 1; 2]) [] example_circuit). repeat constructor. Defined.

Lemma noncommuting_operations_ordered_witness :
  ∃ node,
    get_node 5 (after (add_nodes example_circuit) (__init__ (on [0; 1; 2]) [])) = Ok node
    ∧ 0 ∈ Node.predecessors node.
Proof.
  apply (noncommuting_operations_ordered (on [0; 1; 2]) [] example_circuit 0 5
           (gate "RX" [1] [0]) (cgate "CRZ" "RZ" [1] [2] [0]));
    [repeat constructor|vm_compute; reflexivity|reflexivity|reflexivity|lia|reflexivity].
Defined.

Lemma cached_predecessors_agree_witness :
  ∃ node,
    get_node 5 (after (add_nodes example_circuit) (__init__ (on [0; 1; 2]) [])) = Ok node
    ∧ predecessors 5 (after (add_nodes example_circuit) (__init__ (on [0; 1; 2]) []))
      = Ok (Node.predecessors node).
Proof.
  eexists. split; [vm_compute; reflexivity|].
  apply (cached_predecessors_agree (on [0; 1; 2]) [] example_circuit 5);
    [repeat constructor|vm_compute; reflexivity].
Defined.

Lemma unsupported_operation_raises_witness :
  let r := add_nodes ([gate "PauliX" [] [0]] ++ gate "PauliRot" [1] [0] :: [gate "PauliZ" [] [0]])
             (__init__ (on [0]) []) in
  ([gate "PauliX" [] [0]] = [] → [gate "PauliZ" [] [0]] = [] → r.2 = Ok ())
  ∧ ([gate "PauliX" [] [0]] ≠ [] ∨ [gate "PauliZ" [] [0]] ≠ [] →
     r.2 = Raise (not_supported_error (gate "PauliRot" [1] [0])))
  ∧ ([gate "PauliX" [] [0]] ≠ [] →
     size (DAG.nodes r.1) = S (length [gate "PauliX" [] [0]])
     ∧ DAG.edges r.1
       = DAG.edges (after (add_nodes [gate "PauliX" [] [0]]) (__init__ (on [0]) []))).
Proof.
  apply (unsupported_operation_raises (on [0]) [] [gate "PauliX" [] [0]]
           (gate "PauliRot" [1] [0]) [gate "PauliZ" [] [0]]).
  - repeat constructor.
  - reflexivity.
  - reflexivity.
Defined.

(** ** The successors *)

Section Successors.
Context `{Numeric}.
Implicit Types (dag d : CommutationDAG) (node top : CommutationDAGNode).
Implicit Types (operations : list Operation) (operation : Operation).
Implicit Types (E : list (Z * Z)).

Lemma path_first E m n : path E m n ↔ ∃ k, (m, k) ∈ E ∧ (k = n ∨ path E k n).
Proof.
  split.
  - induction 1 as [m n He|m k n _ IH He]; [eauto|].
    destruct IH as (x & Hx & Hor). exists x. split; [done|right].
    destruct Hor as [->|Hp]; [by apply path_edge|by eapply path_snoc].
  - intros (k & He & [->|Hp]); [by apply path_edge|].
    eapply path_trans; [by apply path_edge|done].
Qed.

Lemma elem_of_targets E n p : p ∈ targets E n ↔ (n, p) ∈ E.
Proof.
  unfold targets. rewrite list_elem_of_omap. split.
  - intros ([a b] & Hin & Heq). simpl in Heq. case_bool_decide; simplify_eq. done.
  - intros Hin. exists (n, p). split; [done|]. simpl. by rewrite bool_decide_eq_true_2.
Qed.

Lemma elem_of_direct_successors k dag node :
  DAG.nodes dag !! k = Some node →
  ∃ direct, direct_successors k dag = Ok direct
            ∧ ∀ x, x ∈ direct ↔ (k, x) ∈ DAG.edges dag.
Proof.
  intros E. unfold direct_successors. rewrite E. eexists. split; [done|].
  intros x. rewrite merge_sort_Permutation, elem_of_remove_dups.
  apply elem_of_targets.
Qed.

Lemma set_successors_id node : Node.set_successors (Node.successors node) node = node.
Proof. by destruct node. Qed.

(** What [predecessors] and [successors] compute on a graph whose [n]
    nodes are numbered from 0 and whose edges point upwards. *)
Lemma predecessors_of_cache d (n : nat) k node l :
  size (DAG.nodes d) = n →
  (∀ i, is_Some (DAG.nodes d !! i) ↔ 0 ≤ i < Z.of_nat n) →
  (∀ p q, (p, q) ∈ DAG.edges d → 0 ≤ p < q ∧ q < Z.of_nat n) →
  DAG.nodes d !! k = Some node →
  cache_ok (DAG.edges d) k l →
  predecessors k d = Ok l.
Proof.
  intros Hsize Hkeys Hedges Hnode [Hsorted Hmem].
  unfold predecessors, ancestors. rewrite Hnode. simpl. f_equal.
  assert (0 ≤ k < Z.of_nat n) as Hk by (apply Hkeys; eauto).
  apply StronglySorted_lt_unique; [|done|].
  - apply merge_sort_strictly_sorted, NoDup_filter, NoDup_elements.
  - intros m. rewrite merge_sort_Permutation, list_elem_of_filter, elem_of_elements, elem_of_dom.
    rewrite Is_true_true, Hsize, Hmem.
    rewrite (reaches_path (DAG.edges d)); [|intros p q Hin|lia].
    2: { apply Hedges in Hin. lia. }
    split; [tauto|]. intros Hp.
    apply (path_bounds _ 0 (Z.of_nat n)) in Hp as Hb; [|done].
    split_and!; [done|lia|]. apply Hkeys. lia.
Qed.

Lemma successors_of_cache d (n : nat) k node l :
  size (DAG.nodes d) = n →
  (∀ i, is_Some (DAG.nodes d !! i) ↔ 0 ≤ i < Z.of_nat n) →
  (∀ p q, (p, q) ∈ DAG.edges d → 0 ≤ p < q ∧ q < Z.of_nat n) →
  DAG.nodes d !! k = Some node →
  succ_cache_ok (DAG.edges d) k l →
  successors k d = Ok l.
Proof.
  intros Hsize Hkeys Hedges Hnode [Hsorted Hmem].
  unfold successors, descendants. rewrite Hnode. simpl. f_equal.
  assert (0 ≤ k < Z.of_nat n) as Hk by (apply Hkeys; eauto).
  apply StronglySorted_lt_unique; [|done|].
  - apply merge_sort_strictly_sorted, NoDup_filter, NoDup_elements.
  - intros m. rewrite merge_sort_Permutation, list_elem_of_filter, elem_of_elements, elem_of_dom.
    rewrite Is_true_true, Hmem, Hkeys. split.
    + intros [[Hr Hne] Hm]. apply (reaches_path (DAG.edges d)) in Hr; [done| |lia].
      intros p q Hin. apply Hedges in Hin. lia.
    + intros Hp. apply (path_bounds _ 0 (Z.of_nat n)) in Hp as Hb; [|done].
      split_and!; [|lia..].
      apply (reaches_path (DAG.edges d)); [|lia|done].
      intros p q Hin. apply Hedges in Hin. lia.
Qed.

Lemma succ_update_step operations dag j d :
  grown_from operations dag →
  0 < j ≤ Z.of_nat (length operations) →
  finishing dag j d →
  ∃ d', succ_update (j - 1) d = (d', Ok ()) ∧ finishing dag (j - 1) d'.
Proof.
  intros Hb Hj Hfi.
  assert (is_Some (DAG.nodes dag !! (j - 1))) as [node0 Hnode0].
  { apply (gf_keys _ _ Hb). lia. }
  destruct (fi_nodes _ _ _ Hfi _ _ Hnode0) as (l0 & Hnode & Hl0).
  rewrite bool_decide_eq_false_2 in Hl0 by lia. subst l0.
  assert (∀ x, (j - 1, x) ∈ DAG.edges dag →
            ∃ nx lx, DAG.nodes dag !! x = Some nx
                     ∧ DAG.nodes d !! x = Some (Node.set_successors lx nx)
                     ∧ succ_cache_ok (DAG.edges dag) x lx) as Hnext.
  { intros x Hx. apply (gf_edges _ _ Hb) in Hx.
    assert (is_Some (DAG.nodes dag !! x)) as [nx Hnx] by (apply (gf_keys _ _ Hb); lia).
    destruct (fi_nodes _ _ _ Hfi _ _ Hnx) as (lx & Hdx & Hlx).
    rewrite bool_decide_eq_true_2 in Hlx by lia. eauto. }
  unfold succ_update.
  destruct (elem_of_direct_successors _ _ _ Hnode) as (direct & Ed & Hd).
  rewrite (fi_edges _ _ _ Hfi) in Hd.
  rewrite (reading_Ok _ _ _ _ Ed), (reading_Ok _ _ _ _ (get_node_Some _ _ _ Hnode)).
  destruct (gather_spec Node.successors direct d) as (lists & Eg & Hlists).
  { intros x Hx%Hd. destruct (Hnext x Hx) as (nx & lx & _ & Hdx & _). eauto. }
  rewrite (reading_Ok _ _ _ _ Eg). simpl.
  rewrite (update_node_Some _ _ _ _ Hnode).
  eexists. split; [done|].
  destruct (merge_no_duplicates_spec lists) as [Hsorted Hmem].
  { apply Forall_forall. intros l (x & nx' & Hx%Hd & Hdx' & Hor)%Hlists.
    destruct Hor as [->| ->]; [repeat constructor|].
    destruct (Hnext x Hx) as (nx & lx & _ & Hdx & [Hlx _]).
    rewrite Hdx in Hdx'. injection Hdx' as <-. simpl. by apply StronglySorted_lt_le. }
  constructor; simpl.
  - apply (fi_edges _ _ _ Hfi).
  - rewrite dom_insert_lookup_L by eauto. apply (fi_dom _ _ _ Hfi).
  - intros k nodek Hk. destruct (decide (k = j - 1)) as [->|Hne].
    + rewrite lookup_insert_eq. rewrite Hnode0 in Hk. injection Hk as <-.
      eexists. split; [done|]. rewrite bool_decide_eq_true_2 by lia.
      split; [done|]. intros m. rewrite Hmem, path_first. split.
      * intros (l & (x & nx' & Hx%Hd & Hdx' & Hor)%Hlists & Hm).
        exists x. split; [done|].
        destruct Hor as [->| ->]; [left; by apply list_elem_of_singleton in Hm|right].
        destruct (Hnext x Hx) as (nx & lx & _ & Hdx & [_ Hlx]).
        rewrite Hdx in Hdx'. injection Hdx' as <-. simpl in Hm. by apply Hlx.
      * intros (x & Hx & Hor).
        destruct (Hnext x Hx) as (nx & lx & _ & Hdx & [_ Hlx]).
        destruct Hor as [->|Hp].
        -- exists [m]. split; [|by left]. apply Hlists.
           exists m, (Node.set_successors lx nx). split_and!; [by apply Hd|done|by left].
        -- exists lx. split; [|by apply Hlx]. apply Hlists.
           exists x, (Node.set_successors lx nx). split_and!; [by apply Hd|done|by right].
    + rewrite lookup_insert_ne by done.
      destruct (fi_nodes _ _ _ Hfi _ _ Hk) as (l & Hl1 & Hl2).
      exists l. split; [done|].
      rewrite (bool_decide_ext (j - 1 ≤ k) (j ≤ k)) by lia. done.
Qed.

Lemma succ_update_loop operations dag (n : nat) d :
  grown_from operations dag →
  (n ≤ length operations)%nat →
  finishing dag (Z.of_nat n) d →
  ∃ d', for_each succ_update (range_down 0 (Z.of_nat n)) d = (d', Ok ())
        ∧ finishing dag 0 d'.
Proof.
  intros Hb. revert d. induction n as [|n IH]; intros d Hn Hfi.
  - exists d. done.
  - rewrite range_down_S. simpl.
    destruct (succ_update_step operations dag (Z.of_nat (S n)) d) as (d1 & E1 & Hfi1);
      [done|lia|done|].
    replace (Z.of_nat (S n) - 1) with (Z.of_nat n) in * by lia.
    rewrite (bind_Ok _ _ _ _ _ E1). apply IH; [lia|done].
Qed.

(** The DAG that [_add_successors] leaves, whatever the outcome of the
    calls of [add_node] before it. *)
Lemma add_successors_spec dag_wires observables operations :
  ∃ added dag',
    added `prefix_of` operations
    ∧ grown_from added (after (add_nodes operations) (__init__ dag_wires observables))
    ∧ _add_successors (after (add_nodes operations) (__init__ dag_wires observables))
      = (dag', Ok ())
    ∧ finishing (after (add_nodes operations) (__init__ dag_wires observables)) 0 dag'.
Proof.
  destruct (add_nodes_grown dag_wires observables operations) as (added & Hpre & Hg).
  pose proof (keeps_no_successors_add_nodes operations (__init__ dag_wires observables))
    as Hnone.
  set (dag := after (add_nodes operations) (__init__ dag_wires observables)) in *.
  assert (∀ k node, DAG.nodes dag !! k = Some node → Node.successors node = []) as Hsucc.
  { apply Hnone. intros k node. simpl. by rewrite lookup_empty. }
  clearbody dag. clear Hnone.
  destruct (succ_update_loop added dag (length added) dag) as (dag' & E' & Hfi);
    [done|done| |].
  { constructor; [done..|]. intros k node Hnode.
    assert (0 ≤ k < Z.of_nat (length added)) as Hk by (apply (gf_keys _ _ Hg); eauto).
    rewrite bool_decide_eq_false_2 by lia.
    exists []. split; [|done]. rewrite Hnode. f_equal.
    rewrite <- (set_successors_id node) at 1. f_equal. by eapply Hsucc. }
  exists added, dag'. split_and!; [done..| |done].
  unfold _add_successors.
  rewrite (reading_Ok (λ dag, Ok (Z.of_nat (size (DAG.nodes dag)))) _ dag
             (Z.of_nat (length added))); [done|].
  by rewrite (gf_size _ _ Hg).
Qed.

(** X17: on the DAG that the calls of [add_node] leave, whether they all
    returned or one of them raised, [_add_successors] does not raise; it
    changes nothing but the successor lists of the nodes, and afterwards the
    lists stored in every node are the ones that [successors] and
    [predecessors] compute from the graph. *)
Theorem add_successors_caches dag_wires observables operations :
  Forall (λ o, supported o = true) operations →
  let dag := after (add_nodes operations) (__init__ dag_wires observables) in
  (_add_successors dag).2 = Ok ()
  ∧ DAG.edges (after _add_successors dag) = DAG.edges dag
  ∧ ∀ k node,
      get_node k (after _add_successors dag) = Ok node →
      successors k (after _add_successors dag) = Ok (Node.successors node)
      ∧ predecessors k (after _add_successors dag) = Ok (Node.predecessors node)
      ∧ ∃ node0, get_node k dag = Ok node0
                 ∧ node = Node.set_successors (Node.successors node) node0.
Proof.
  intros _ dag.
  destruct (add_successors_spec dag_wires observables operations)
    as (added & dag' & Hpre & Hg & E' & Hfi).
  fold dag in Hg, E', Hfi. clearbody dag.
  unfold after. rewrite E'. simpl.
  split; [done|]. split; [apply (fi_edges _ _ _ Hfi)|].
  intros k node Hnode. unfold get_node in Hnode.
  destruct (DAG.nodes dag' !! k) as [node'|] eqn:Hk; [|done]. injection Hnode as ->.
  assert (is_Some (DAG.nodes dag !! k)) as [node0 Hnode0].
  { apply elem_of_dom. rewrite <- (fi_dom _ _ _ Hfi). apply elem_of_dom. eauto. }
  destruct (fi_nodes _ _ _ Hfi _ _ Hnode0) as (l & Hl & Hok).
  assert (0 ≤ k < Z.of_nat (length added)) as Hk' by (apply (gf_keys _ _ Hg); eauto).
  rewrite bool_decide_eq_true_2 in Hok by lia.
  rewrite Hk in Hl. injection Hl as ->. simpl.
  assert (size (DAG.nodes dag') = length added) as Hsize.
  { rewrite <- size_dom, (fi_dom _ _ _ Hfi), size_dom. apply (gf_size _ _ Hg). }
  assert (∀ i, is_Some (DAG.nodes dag' !! i) ↔ 0 ≤ i < Z.of_nat (length added))
    as Hkeys.
  { intros i. rewrite <- (gf_keys _ _ Hg), <- !elem_of_dom.
    by rewrite (fi_dom _ _ _ Hfi). }
  assert (∀ p q, (p, q) ∈ DAG.edges dag' → 0 ≤ p < q ∧ q < Z.of_nat (length added))
    as Hedges.
  { intros p q. rewrite (fi_edges _ _ _ Hfi). apply (gf_edges _ _ Hg). }
  split_and!.
  - eapply successors_of_cache; [done..|]. by rewrite (fi_edges _ _ _ Hfi).
  - eapply predecessors_of_cache; [done..|]. rewrite (fi_edges _ _ _ Hfi).
    apply (gf_cache _ _ Hg _ _ Hnode0).
  - exists node0. split; [by apply get_node_Some|done].
Qed.

(** X18: in the finished DAG, when the construction has returned,
    successors and predecessors mirror each other: [j] is among the
    successors stored in node [i] exactly when [i] is among the predecessors
    stored in node [j]. *)
Theorem successors_mirror_predecessors dag_wires observables operations i j node_i node_j :
  Forall (λ o, supported o = true) operations →
  ((add_nodes operations ≫= λ _, _add_successors) (__init__ dag_wires observables)).2
    = Ok () →
  let dag := after (add_nodes operations ≫= λ _, _add_successors)
               (__init__ dag_wires observables) in
  get_node i dag = Ok node_i → get_node j dag = Ok node_j →
  j ∈ Node.successors node_i ↔ i ∈ Node.predecessors node_j.
Proof.
  intros _ Hok.
  destruct (add_successors_spec dag_wires observables operations)
    as (added & dag' & Hpre & Hg & E' & Hfi).
  revert Hok Hg E' Hfi. unfold after.
  destruct (add_nodes operations (__init__ dag_wires observables)) as [dag [[]|e]] eqn:E.
  2: { by rewrite (bind_Raise _ _ _ _ _ E). }
  rewrite (bind_Ok _ _ _ _ _ E). simpl. intros _ Hg E' Hfi. rewrite E'. simpl.
  assert (∀ k node, get_node k dag' = Ok node →
            ∃ node0 l, DAG.nodes dag !! k = Some node0
                       ∧ node = Node.set_successors l node0
                       ∧ succ_cache_ok (DAG.edges dag) k l) as Hget.
  { intros k node Hnode. unfold get_node in Hnode.
    destruct (DAG.nodes dag' !! k) as [node'|] eqn:Hk; [|done]. injection Hnode as ->.
    assert (is_Some (DAG.nodes dag !! k)) as [node0 Hnode0].
    { apply elem_of_dom. rewrite <- (fi_dom _ _ _ Hfi). apply elem_of_dom. eauto. }
    destruct (fi_nodes _ _ _ Hfi _ _ Hnode0) as (l & Hl & Hok).
    assert (0 ≤ k < Z.of_nat (length added)) as Hk' by (apply (gf_keys _ _ Hg); eauto).
    rewrite bool_decide_eq_true_2 in Hok by lia.
    rewrite Hk in Hl. injection Hl as ->. eauto. }
  intros (ni & li & Hni & -> & [_ Hli])%Hget (nj & lj & Hnj & -> & _)%Hget. simpl.
  rewrite Hli. symmetry. apply (gf_cache _ _ Hg _ _ Hnj).
Qed.

End Successors.

Lemma add_successors_caches_witness :
  let dag := after (add_nodes example_circuit) (__init__ (on [0; 1; 2]) []) in
  (_add_successors dag).2 = Ok ()
  ∧ DAG.edges (after _add_successors dag) = DAG.edges dag
  ∧ ∀ k node,
      get_node k (after _add_successors dag) = Ok node →
      successors k (after _add_successors dag) = Ok (Node.successors node)
      ∧ predecessors k (after _add_successors dag) = Ok (Node.predecessors node)
      ∧ ∃ node0, get_node k dag = Ok node0
                 ∧ node = Node.set_successors (Node.successors node) node0.
Proof.
  apply (add_successors_caches (on [0; 1; 2]) [] example_circuit). repeat constructor.
Defined.

Lemma successors_mirror_predecessors_witness :
  ∃ node_i node_j,
    get_node 2 (after (add_nodes example_circuit ≫= λ _, _add_successors)
                  (__init__ (on [0; 1; 2]) [])) = Ok node_i
    ∧ get_node 5 (after (add_nodes example_circuit ≫= λ _, _add_successors)
                    (__init__ (on [0; 1; 2]) [])) = Ok node_j
    ∧ (5 ∈ Node.successors node_i ↔ 2 ∈ Node.predecessors node_j).
Proof.
  eexists _, _. split; [vm_compute; reflexivity|]. split; [vm_compute; reflexivity|].
  apply (successors_mirror_predecessors (on [0; 1; 2]) [] example_circuit 2 5);
    [repeat constructor|vm_compute; reflexivity..].
Defined.

Example example_circuit_successors :
  Node.successors <$> get_node 2 (after (add_nodes example_circuit ≫= λ _, _add_successors)
                                    (__init__ (on [0; 1; 2]) []))
  = Ok [3; 4; 5; 6].
Proof. vm_compute. reflexivity. Qed.

(** ** The wrapper and the DAG it returns *)

Section WrapperBuilds.
Context `{Numeric}.
Implicit Types (dag d : CommutationDAG) (wires_map : gmap Label Label).
Implicit Types (operations : list Operation) (operation : Operation).

(** Relabelling an object that no node holds yet changes no node. *)
Lemma sync_fresh (added : list nat) (ref : nat) operation dag :
  ref ∉ added → sync added ref operation dag = dag.
Proof.
  intros Hnew. unfold sync. set (nodes' := map_imap _ _).
  assert (nodes' = DAG.nodes dag) as ->; [|apply set_nodes_id].
  subst nodes'. apply map_eq. intros k. rewrite map_lookup_imap.
  destruct (DAG.nodes dag !! k) as [node|]; [|done]. simpl.
  rewrite bool_decide_eq_false_2; [done|].
  intros [_ Hl]. apply Hnew. by eapply list_elem_of_lookup_2.
Qed.

(** The second loop changes only the objects it is given references to. *)
Lemma add_operations_frame wires_map (refs : list nat) :
  ∀ added objects dag objects' r,
    add_operations wires_map refs added objects dag = (objects', r) →
    ∀ i, i ∉ refs → objects' !! i = objects !! i.
Proof.
  induction refs as [|ref refs IH]; intros added objects dag objects' r; simpl.
  - by intros [= <- _].
  - destruct (_ ← object objects ref; _) as [o'|e]; [|by intros [= <- _]].
    destruct (add_node _ _) as [dag1 [[]|e]].
    + intros E i Hi. rewrite (IH _ _ _ _ _ E) by (intros ?; apply Hi; by right).
      apply list_lookup_insert_ne. intros ->. apply Hi. by left.
    + intros [= <- _] i Hi. apply list_lookup_insert_ne. intros ->. apply Hi. by left.
Qed.

Lemma add_operations_spec wires_map (refs : list nat) :
  ∀ added objects dag objects' dag',
    NoDup refs →
    (∀ ref, ref ∈ refs → ref ∉ added) →
    add_operations wires_map refs added objects dag = (objects', (dag', Ok ())) →
    ∃ operations,
      mapM (object objects') refs = Ok operations
      ∧ add_nodes operations dag = (dag', Ok ()).
Proof.
  induction refs as [|ref refs IH]; intros added objects dag objects' dag' Hnd Hnew; simpl.
  - intros [= <- <-]. by exists [].
  - apply NoDup_cons in Hnd as [Href Hnd].
    destruct (_ ← object objects ref; _) as [o'|e] eqn:Hrel; [|done].
    assert (ref < length objects)%nat as Hlen.
    { unfold object in Hrel. destruct (objects !! ref) eqn:Ho; [|done].
      by eapply lookup_lt_Some. }
    rewrite sync_fresh by (apply Hnew; by left).
    destruct (add_node o' dag) as [dag1 [[]|e]] eqn:Eadd; [|done].
    intros E.
    destruct (IH (added ++ [ref]) (<[ref:=o']> objects) dag1 objects' dag' Hnd)
      as (operations & Hops & Hrest); [|exact E|].
    { intros r Hr [Hin| ->%list_elem_of_singleton]%elem_of_app; [|done].
      apply (Hnew r); [by right|done]. }
    exists (o' :: operations). split.
    + assert (object objects' ref = Ok o') as Hobj.
      { unfold object. rewrite (add_operations_frame _ _ _ _ _ _ _ E) by done.
        by rewrite list_lookup_insert_eq. }
      cbn. rewrite Hobj. cbn. by rewrite Hops.
    + simpl. by rewrite (bind_Ok _ _ _ _ _ Eadd).
Qed.

(** X19: on a tape that lists no operation twice, the DAG that the
    wrapper returns is the one that [add_node], called on the relabelled
    operations in the order of the tape, and [_add_successors] leave from an
    empty DAG on the wires [0 .. n-1]. *)
Theorem wrapper_builds_dag (tape : QuantumTape) dag :
  NoDup (Tape.operations tape) →
  (wrapper tape).2 = Ok dag →
  ∃ operations,
    mapM (object (Tape.operation_objects (wrapper tape).1)) (Tape.operations tape)
    = Ok operations
    ∧ (add_nodes operations ≫= λ _, _add_successors)
        (__init__ (consecutive (Tape.wires tape))
           (omap (λ obs, Tape.observable_objects (wrapper tape).1 !! obs)
              (Tape.observables tape)))
      = (dag, Ok ()).
Proof.
  unfold wrapper. intros Hnd.
  destruct (relabel_observables _ (Tape.observables tape) _)
    as [observable_objects [[]|e]] eqn:Eo; [|done].
  destruct (add_operations _ (Tape.operations tape) _ _ _)
    as [operation_objects [dag1 [[]|e]]] eqn:Ea; [|done].
  destruct (_add_successors dag1) as [dag2 [[]|e]] eqn:Es; [|done].
  simpl. intros [= <-].
  destruct (add_operations_spec _ _ _ _ _ _ _ Hnd (λ ref _, not_elem_of_nil ref) Ea)
    as (operations & Hops & Hadd).
  exists operations. split; [done|]. by rewrite (bind_Ok _ _ _ _ _ Hadd).
Qed.











End WrapperBuilds.

Lemma wrapper_builds_dag_witness :
  ∃ operations,
    mapM (object (Tape.operation_objects (wrapper example_tape).1))
      (Tape.operations example_tape) = Ok operations
    ∧ (add_nodes operations ≫= λ _, _add_successors)
        (__init__ (consecutive (Tape.wires example_tape))
           (omap (λ obs, Tape.observable_objects (wrapper example_tape).1 !! obs)
              (Tape.observables example_tape)))
      = (example_dag, Ok ()).
Proof.
  apply (wrapper_builds_dag example_tape example_dag).
  - apply (bool_decide_unpack _); vm_compute; exact I.
  - vm_compute; reflexivity.
Defined.


(** ** Parameters that are not real numbers *)

(** A complex matrix among the parameters: the zero test of the oracle
    raises [TypeError], on the first operand before the second is looked
    at, and whether the operands share a wire or not; when the first
    operand acts as the identity the oracle returns before the test of the
    second, so that the outcome depends on the order. *)
Example complex_parameter_raises :
  @supported Values (QubitUnitary [0]) = true
  ∧ @tests_defined Values (QubitUnitary [0]) = false
  ∧ @is_commuting Values (QubitUnitary [0]) (vgate "PauliX" [] [0]) = Raise TypeError
  ∧ @is_commuting Values (vgate "PauliX" [] [1]) (QubitUnitary [0]) = Raise TypeError
  ∧ @is_commuting Values (vgate "RX" [Angle 0] [0]) (QubitUnitary [0]) = Ok true
  ∧ @is_commuting Values (QubitUnitary [0]) (vgate "RX" [Angle 0] [0]) = Raise TypeError.
Proof. split_and!; vm_compute; reflexivity. Qed.

(** Parameters of different shapes do not make one array. *)
Example ragged_parameters_raise :
  @supported Values (SimplifiedTwoDesign [0; 1]) = true
  ∧ @is_commuting Values (SimplifiedTwoDesign [0; 1]) (vgate "PauliX" [] [0])
    = Raise TypeError
  ∧ @is_commuting Values (vgate "PauliX" [] [2]) (SimplifiedTwoDesign [0; 1])
    = Raise TypeError.
Proof. split_and!; vm_compute; reflexivity. Qed.

(** A complex angle stops the simplification of a rotation, and so do two
    arrays of different lengths that it has to add. *)
Example complex_angle_raises :
  @simplified Values (vgate "Rot" [ComplexMatrix; Angle 0; Angle 0] [0]) = Raise TypeError
  ∧ @supported Values (vgate "Rot" [ComplexMatrix; Angle 0; Angle 0] [0]) = false
  ∧ @simplified Values (vgate "Rot" [RealArray 2; Angle 0; RealArray 3] [0])
    = Raise ValueError
  ∧ @supported Values (vgate "Rot" [RealArray 2; Angle 0; RealArray 3] [0]) = false.
Proof. split_and!; vm_compute; reflexivity. Qed.

(** [add_node] raises in the middle of a list: the operation it was
    adding has its node, the operations after it have none. *)
Example build_interrupted :
  let r := @add_nodes Values
             [vgate "PauliX" [] [0]; QubitUnitary [1]; vgate "PauliZ" [] [0]]
             (@__init__ Values (on [0; 1]) []) in
  r.2 = Raise TypeError
  ∧ size (DAG.nodes r.1) = 2%nat
  ∧ DAG.edges r.1 = [].
Proof. split_and!; vm_compute; reflexivity. Qed.

(** ** The comparisons that the scan skips *)

Section Pairs.
Context `{Numeric}.
Implicit Types (dag d : CommutationDAG) (node top : CommutationDAGNode).
Implicit Types (operations : list Operation) (operation : Operation).













End Pairs.


(** The pair that the scan skips in a list of three: the second operation
    is ordered after the first, and the third after the second. *)
Example skipped_comparison :
  DAG.edges (after (add_nodes [gate "PauliX" [] [0]; gate "PauliZ" [] [0]; gate "PauliY" [] [0]])
               (__init__ (on [0]) []))
  = [(0, 1); (1, 2)]
  ∧ is_commuting (gate "PauliX" [] [0]) (gate "PauliY" [] [0]) = Ok false.
Proof. split; vm_compute; reflexivity. Qed.
